(** * Stacking game: block geometry and game logic

    A shallow embedding of [src/entities/block.js] and
    [src/game/game_logic.js], with the parts of the render manager and the
    physics manager that the game logic drives, followed by the user
    interface ([src/ui/ui_manager.js]), the page loop ([StackGame]) and the
    event system ([EventSystem]).

    Modelling conventions.
    - JavaScript numbers are modelled twice.  The main embedding has exact
      rationals [Q] for them: infinities, NaN and the rounding of IEEE-754
      doubles are outside that model.  What is stated over it of arbitrary
      numbers is what holds of the doubles as well: a value the code copies
      or an expression the code computes, stated with [=], and the outcome
      of a comparison the code makes; an equation of real arithmetic is
      stated (with [==]) only where every operation involved is exact.  The
      module [Ieee], at the end of the definitions, is the same embedding
      over binary64 doubles; it runs the code where rounding matters.
    - Objects have identity.  Every block gets a fresh [uid] when it is
      created; its physics body and its mesh are referred to by that [uid] in
      the physics world and in the scene.
    - [this.stack] and [this.overhangs] are lists in array order (index 0
      first, [push] appends at the end).
    - A method that mutates the block at the top of the stack is modelled by
      writing the mutated block back to the last index of [stack].
    - [gameEvents.emit] appends to a log; none of the listeners registered in
      the repository calls back into the game logic during an emit.
    - [Math.random()] is an argument of the operation that draws it, and so
      is what the physics engine computes in one step.
    - Both managers are initialised before the game logic is built, as in
      [StackGame.initialize()]; orientations, shadows, lights and the
      renderer are left out.  Of the DOM the model keeps the three elements
      of the user interface: whether the document has them, the text of the
      score and the [style.display] of the two panels. *)

From Stdlib Require Import QArith Qabs Lqa ZArith List Permutation Lia Bool.
From Stdlib Require String PrimFloat.
Import ListNotations.
Open Scope Q_scope.

(** ** Numbers *)

Module JsNumber.

(** [a < b] as a boolean, the model of the JavaScript comparison. *)
Definition Qltb (a b : Q) : bool :=
  (Qnum a * QDen b <? Qnum b * QDen a)%Z.

(** [Math.abs] *)
Definition Math_abs (x : Q) : Q := Qabs x.

(** [Math.sign]: 1, -1 or 0. *)
Definition Math_sign (x : Q) : Q :=
  if Qltb 0 x then 1 else if Qltb x 0 then -1 else 0.


End JsNumber.
Import JsNumber.

(** ** Configuration ([config/game_config.js]) *)

Module GAME_CONFIG.
Definition BOX_HEIGHT : Q := 1.
Definition ORIGINAL_BOX_SIZE : Q := 3.
Definition MOVEMENT_SPEED : Q := 0.008.
Definition CAMERA_FOLLOW_SPEED : Q := 0.08.
Definition BOX_FALL_MASS : Q := 5.
Definition COLOR_HUE_BASE : Q := 30.
Definition COLOR_HUE_INCREMENT : Q := 4.
Definition ROBOT_PRECISION_RANGE : Q := 1.
End GAME_CONFIG.

(** [DIRECTIONS]: the two horizontal axes, 'x' and 'z'. *)
Module DIRECTIONS.
Inductive Direction : Type := X | Z.
End DIRECTIONS.
Abbreviation Direction := DIRECTIONS.Direction.

(** [a === b] on directions. *)
Definition Direction_eqb (a b : Direction) : bool :=
  match a, b with
  | DIRECTIONS.X, DIRECTIONS.X | DIRECTIONS.Z, DIRECTIONS.Z => true
  | _, _ => false
  end.

(** ** Blocks ([entities/block.js]) *)

Record Vec3 : Type := mkVec3 { vx : Q; vy : Q; vz : Q }.

(** [v[direction]] *)
Definition coord (v : Vec3) (direction : Direction) : Q :=
  match direction with
  | DIRECTIONS.X => vx v
  | DIRECTIONS.Z => vz v
  end.

(** [v[direction] = q] *)
Definition set_coord (v : Vec3) (direction : Direction) (q : Q) : Vec3 :=
  match direction with
  | DIRECTIONS.X => mkVec3 q (vy v) (vz v)
  | DIRECTIONS.Z => mkVec3 (vx v) (vy v) q
  end.

(** The THREE.Mesh of a block: box geometry, colour hue, position, scale. *)
Record Mesh : Type := mkMesh {
  mesh_geometry : Vec3;
  mesh_hue : Q;
  mesh_position : Vec3;
  mesh_scale : Vec3
}.

(** The CANNON.Body of a block: mass, half extents of its box, position. *)
Record Body : Type := mkBody {
  body_mass : Q;
  body_halfExtents : Vec3;
  body_position : Vec3
}.

Record Block : Type := mkBlock {
  uid : nat;
  position : Vec3;
  width : Q;
  depth : Q;
  direction : option Direction;     (* [null] for the base and for overhangs *)
  mesh : option Mesh;
  physicsBody : option Body;
  isMoving : bool;
  isFalling : bool
}.

Module BlockOps.

(** [new Block(x, y, z, width, depth, direction, physicsBody)]; [id] is the
    identity of the new object. *)
Definition new_Block (id : nat) (x y z width depth : Q)
           (direction : option Direction) (physicsBody : option Body) : Block :=
  mkBlock id (mkVec3 x y z) width depth direction None physicsBody false false.

(** [createMesh(stackIndex)]: builds the mesh and stores it in the block. *)
Definition createMesh (b : Block) (stackIndex : nat) : Block :=
  let geometry := mkVec3 (width b) GAME_CONFIG.BOX_HEIGHT (depth b) in
  let hue := GAME_CONFIG.COLOR_HUE_BASE
             + inject_Z (Z.of_nat stackIndex) * GAME_CONFIG.COLOR_HUE_INCREMENT in
  let m := mkMesh geometry hue (position b) (mkVec3 1 1 1) in
  mkBlock (uid b) (position b) (width b) (depth b) (direction b)
          (Some m) (physicsBody b) (isMoving b) (isFalling b).

(** [updateFromPhysics()]: the mesh takes the position of the body. *)
Definition updateFromPhysics (b : Block) : Block :=
  match physicsBody b, mesh b with
  | Some body, Some m =>
      mkBlock (uid b) (position b) (width b) (depth b) (direction b)
              (Some (mkMesh (mesh_geometry m) (mesh_hue m)
                            (body_position body) (mesh_scale m)))
              (physicsBody b) (isMoving b) (isFalling b)
  | _, _ => b
  end.

(** [getPosition(direction)] *)
Definition getPosition (b : Block) (direction : Direction) : Q :=
  coord (position b) direction.

(** [getSize(direction)]: the width for 'x', the depth otherwise. *)
Definition getSize (b : Block) (direction : option Direction) : Q :=
  match direction with
  | Some DIRECTIONS.X => width b
  | _ => depth b
  end.

Definition shift_mesh (m : Mesh) (d : Direction) (delta : Q) : Mesh :=
  mkMesh (mesh_geometry m) (mesh_hue m)
         (set_coord (mesh_position m) d (coord (mesh_position m) d + delta))
         (mesh_scale m).

Definition shift_body (p : Body) (d : Direction) (delta : Q) : Body :=
  mkBody (body_mass p) (body_halfExtents p)
         (set_coord (body_position p) d (coord (body_position p) d + delta)).

(** [updatePosition(direction, delta)]: mesh, body and block move together. *)
Definition updatePosition (b : Block) (d : Direction) (delta : Q) : Block :=
  mkBlock (uid b)
          (set_coord (position b) d (coord (position b) d + delta))
          (width b) (depth b) (direction b)
          (option_map (fun m => shift_mesh m d delta) (mesh b))
          (option_map (fun p => shift_body p d delta) (physicsBody b))
          (isMoving b) (isFalling b).

(** [cut(overlap, originalSize, delta)].  With [direction === null] neither
    extent changes and the writes to [position[null]] touch no coordinate. *)
Definition cut (b : Block) (overlap originalSize delta : Q) : Block :=
  match direction b with
  | None => b
  | Some d =>
      let newWidth := if Direction_eqb d DIRECTIONS.X then overlap else width b in
      let newDepth := if Direction_eqb d DIRECTIONS.Z then overlap else depth b in
      let cut_mesh (m : Mesh) :=
        mkMesh (mesh_geometry m) (mesh_hue m)
               (set_coord (mesh_position m) d (coord (mesh_position m) d - delta / 2))
               (set_coord (mesh_scale m) d (overlap / originalSize)) in
      let cut_body (p : Body) :=
        mkBody (body_mass p) (body_halfExtents p)
               (set_coord (body_position p) d (coord (body_position p) d - delta / 2)) in
      mkBlock (uid b)
              (set_coord (position b) d (coord (position b) d - delta / 2))
              newWidth newDepth (direction b)
              (option_map cut_mesh (mesh b))
              (option_map cut_body (physicsBody b))
              (isMoving b) (isFalling b)
  end.

(** [isOutOfBounds(bound = 10)]; with [direction === null] the coordinate is
    [undefined] and the comparison is false. *)
Definition isOutOfBounds (b : Block) : bool :=
  match direction b with
  | None => false
  | Some d => Qltb 10 (Math_abs (getPosition b d))
  end.

(** [startFalling()] *)
Definition startFalling (b : Block) : Block :=
  mkBlock (uid b) (position b) (width b) (depth b) (direction b)
          (mesh b) (physicsBody b) false true.

End BlockOps.
Import BlockOps.


(** ** Game logic ([game/game_logic.js]) *)

(** What [gameEvents.emit] publishes. [LAYER_ADDED] carries the [uid] of the
    block and the stack height. *)
Inductive Event : Type :=
| GAME_START
| GAME_OVER
| SCORE_UPDATE (newScore : Z)
| LAYER_ADDED (block : nat) (stackHeight : nat).

(** The fields of a [GameLogic] object, followed by the state of its
    collaborators: the bodies of the physics world, the meshes of the scene,
    the meshes whose geometry and material have been disposed, the height of
    the camera, the log of emitted events and the next free object identity. *)
Record GameLogic : Type := mkGameLogic {
  stack : list Block;
  overhangs : list Block;
  isAutopilot : bool;
  isGameEnded : bool;
  score : Z;
  robotPrecision : Q;
  world_bodies : list nat;
  scene_meshes : list nat;
  disposed : list nat;
  camera_y : Q;
  emitted : list Event;
  next_uid : nat
}.

Module Fields.

Definition set_stack (g : GameLogic) (s : list Block) : GameLogic :=
  mkGameLogic s (overhangs g) (isAutopilot g) (isGameEnded g) (score g)
              (robotPrecision g) (world_bodies g) (scene_meshes g) (disposed g)
              (camera_y g) (emitted g) (next_uid g).

Definition set_overhangs (g : GameLogic) (o : list Block) : GameLogic :=
  mkGameLogic (stack g) o (isAutopilot g) (isGameEnded g) (score g)
              (robotPrecision g) (world_bodies g) (scene_meshes g) (disposed g)
              (camera_y g) (emitted g) (next_uid g).

Definition set_isAutopilot (g : GameLogic) (a : bool) : GameLogic :=
  mkGameLogic (stack g) (overhangs g) a (isGameEnded g) (score g)
              (robotPrecision g) (world_bodies g) (scene_meshes g) (disposed g)
              (camera_y g) (emitted g) (next_uid g).

Definition set_isGameEnded (g : GameLogic) (e : bool) : GameLogic :=
  mkGameLogic (stack g) (overhangs g) (isAutopilot g) e (score g)
              (robotPrecision g) (world_bodies g) (scene_meshes g) (disposed g)
              (camera_y g) (emitted g) (next_uid g).

Definition set_score (g : GameLogic) (n : Z) : GameLogic :=
  mkGameLogic (stack g) (overhangs g) (isAutopilot g) (isGameEnded g) n
              (robotPrecision g) (world_bodies g) (scene_meshes g) (disposed g)
              (camera_y g) (emitted g) (next_uid g).

Definition set_robotPrecision (g : GameLogic) (p : Q) : GameLogic :=
  mkGameLogic (stack g) (overhangs g) (isAutopilot g) (isGameEnded g) (score g)
              p (world_bodies g) (scene_meshes g) (disposed g)
              (camera_y g) (emitted g) (next_uid g).

Definition set_world_bodies (g : GameLogic) (w : list nat) : GameLogic :=
  mkGameLogic (stack g) (overhangs g) (isAutopilot g) (isGameEnded g) (score g)
              (robotPrecision g) w (scene_meshes g) (disposed g)
              (camera_y g) (emitted g) (next_uid g).

Definition set_scene_meshes (g : GameLogic) (m : list nat) : GameLogic :=
  mkGameLogic (stack g) (overhangs g) (isAutopilot g) (isGameEnded g) (score g)
              (robotPrecision g) (world_bodies g) m (disposed g)
              (camera_y g) (emitted g) (next_uid g).

Definition set_disposed (g : GameLogic) (d : list nat) : GameLogic :=
  mkGameLogic (stack g) (overhangs g) (isAutopilot g) (isGameEnded g) (score g)
              (robotPrecision g) (world_bodies g) (scene_meshes g) d
              (camera_y g) (emitted g) (next_uid g).

Definition set_camera_y (g : GameLogic) (y : Q) : GameLogic :=
  mkGameLogic (stack g) (overhangs g) (isAutopilot g) (isGameEnded g) (score g)
              (robotPrecision g) (world_bodies g) (scene_meshes g) (disposed g)
              y (emitted g) (next_uid g).

Definition set_next_uid (g : GameLogic) (n : nat) : GameLogic :=
  mkGameLogic (stack g) (overhangs g) (isAutopilot g) (isGameEnded g) (score g)
              (robotPrecision g) (world_bodies g) (scene_meshes g) (disposed g)
              (camera_y g) (emitted g) n.

(** [gameEvents.emit(e)] *)
Definition emit (g : GameLogic) (e : Event) : GameLogic :=
  mkGameLogic (stack g) (overhangs g) (isAutopilot g) (isGameEnded g) (score g)
              (robotPrecision g) (world_bodies g) (scene_meshes g) (disposed g)
              (camera_y g) (emitted g ++ [e]) (next_uid g).

End Fields.
Import Fields.

(** *** Arrays *)

(** [a[i]]: [undefined] ([None]) out of range, also for a negative index. *)
Definition stack_at (a : list Block) (i : Z) : option Block :=
  if (i <? 0)%Z then None else nth_error a (Z.to_nat i).

(** [a[i] = b] for an index in range. *)
Fixpoint store_at (a : list Block) (i : nat) (b : Block) : list Block :=
  match a, i with
  | [], _ => []
  | _ :: t, O => b :: t
  | h :: t, S j => h :: store_at t j b
  end.

(** The mutated top block written back to [stack[stack.length - 1]]. *)
Definition store_top (g : GameLogic) (b : Block) : GameLogic :=
  set_stack g (store_at (stack g) (length (stack g) - 1) b).

(** *** Physics manager ([core/physics_manager.js]) *)

Module PhysicsManager.

(** [createBoxBody]: the new body joins the world under the identity [id]. *)
Definition createBoxBody (g : GameLogic) (id : nat)
           (x y z width height depth : Q) (isDynamic : bool) : Body * GameLogic :=
  let shape := mkVec3 (width / 2) (height / 2) (depth / 2) in
  let mass :=
    if isDynamic
    then GAME_CONFIG.BOX_FALL_MASS
         * (width / GAME_CONFIG.ORIGINAL_BOX_SIZE)
         * (depth / GAME_CONFIG.ORIGINAL_BOX_SIZE)
    else 0 in
  (mkBody mass shape (mkVec3 x y z),
   set_world_bodies g (world_bodies g ++ [id])).

(** [removeBody(body)], for the body of block [b]. *)
Definition removeBody (g : GameLogic) (b : Block) : GameLogic :=
  match physicsBody b with
  | Some _ => set_world_bodies g (remove Nat.eq_dec (uid b) (world_bodies g))
  | None => g
  end.

(** [updateBodyShape(body, width, height, depth)] on the body of [b]. *)
Definition updateBodyShape (b : Block) (newWidth height newDepth : Q) : Block :=
  match physicsBody b with
  | None => b
  | Some p =>
      mkBlock (uid b) (position b) (width b) (depth b) (direction b) (mesh b)
              (Some (mkBody (body_mass p)
                            (mkVec3 (newWidth / 2) (height / 2) (newDepth / 2))
                            (body_position p)))
              (isMoving b) (isFalling b)
  end.

(** [clearBodies()] *)
Definition clearBodies (g : GameLogic) : GameLogic :=
  set_world_bodies g [].

(** [step(deltaTime)]: the engine moves the bodies with mass, which are those
    of the overhangs; [engine] gives the position it computes for each. *)
Definition step (g : GameLogic) (engine : Block -> Vec3) : GameLogic :=
  let moved (b : Block) :=
    match physicsBody b with
    | None => b
    | Some p =>
        mkBlock (uid b) (position b) (width b) (depth b) (direction b) (mesh b)
                (Some (mkBody (body_mass p) (body_halfExtents p) (engine b)))
                (isMoving b) (isFalling b)
    end in
  set_overhangs g (map moved (overhangs g)).

End PhysicsManager.

(** *** Render manager ([core/render_manager.js]) *)

Module RenderManager.

(** [addToScene(mesh)], for the mesh with identity [id]. *)
Definition addToScene (g : GameLogic) (id : nat) : GameLogic :=
  set_scene_meshes g (scene_meshes g ++ [id]).

(** [removeFromScene(mesh)], for the mesh of block [b]. *)
Definition removeFromScene (g : GameLogic) (b : Block) : GameLogic :=
  match mesh b with
  | Some _ => set_scene_meshes g (remove Nat.eq_dec (uid b) (scene_meshes g))
  | None => g
  end.

(** [clearMeshes()]: every mesh leaves the scene and is disposed. *)
Definition clearMeshes (g : GameLogic) : GameLogic :=
  set_scene_meshes (set_disposed g (disposed g ++ scene_meshes g)) [].

(** [resetCamera()]: the camera returns to (4, 4, 4). *)
Definition resetCamera (g : GameLogic) : GameLogic :=
  set_camera_y g 4.

(** [updateCameraPosition(targetY, deltaTime)] *)
Definition updateCameraPosition (g : GameLogic) (targetY deltaTime : Q) : GameLogic :=
  let currentY := camera_y g in
  let minY := targetY + 4 in
  if Qltb currentY minY
  then set_camera_y g (camera_y g + GAME_CONFIG.CAMERA_FOLLOW_SPEED * deltaTime)
  else g.

End RenderManager.

(** *** The methods of [GameLogic] *)

Module Logic.

(** [createBlock(x, y, z, width, depth, direction, isDynamic)] *)
Definition createBlock (g : GameLogic) (x y z width depth : Q)
           (direction : option Direction) (isDynamic : bool) : Block * GameLogic :=
  let id := next_uid g in
  let g := set_next_uid g (S id) in
  let (physicsBody, g) :=
    PhysicsManager.createBoxBody g id x y z width GAME_CONFIG.BOX_HEIGHT depth isDynamic in
  let block := new_Block id x y z width depth direction (Some physicsBody) in
  let block := createMesh block (length (stack g)) in
  let g := RenderManager.addToScene g id in
  (block, g).

(** [addLayer(x, z, width, depth, direction = null)] *)
Definition addLayer (g : GameLogic) (x z width depth : Q)
           (direction : option Direction) : GameLogic :=
  let y := GAME_CONFIG.BOX_HEIGHT * inject_Z (Z.of_nat (length (stack g))) in
  let (block, g) := createBlock g x y z width depth direction false in
  let g := set_stack g (stack g ++ [block]) in
  emit g (LAYER_ADDED (uid block) (length (stack g))).

(** [addOverhang(x, z, width, depth)] *)
Definition addOverhang (g : GameLogic) (x z width depth : Q) : GameLogic :=
  let y := GAME_CONFIG.BOX_HEIGHT * inject_Z (Z.of_nat (length (stack g)) - 1) in
  let (overhang, g) := createBlock g x y z width depth None true in
  let overhang := startFalling overhang in
  set_overhangs g (overhangs g ++ [overhang]).

(** [setRobotPrecision()]; [random] is the value of [Math.random()]. *)
Definition setRobotPrecision (g : GameLogic) (random : Q) : GameLogic :=
  set_robotPrecision g (random * GAME_CONFIG.ROBOT_PRECISION_RANGE - 0.5).

(** [dispose()] of a block releases the geometry and material of its mesh. *)
Definition dispose_block (g : GameLogic) (b : Block) : GameLogic :=
  match mesh b with
  | Some _ => set_disposed g (disposed g ++ [uid b])
  | None => g
  end.

(** [clearGame()] *)
Definition clearGame (g : GameLogic) : GameLogic :=
  let g := PhysicsManager.clearBodies g in
  let g := RenderManager.clearMeshes g in
  let g := fold_left dispose_block (stack g ++ overhangs g) g in
  let g := set_stack g [] in
  set_overhangs g [].

(** [new GameLogic(renderManager, physicsManager)] on freshly initialised
    managers: empty world, empty scene, camera at height 4. *)
Definition new_GameLogic (random : Q) : GameLogic :=
  setRobotPrecision (mkGameLogic [] [] true false 0%Z 0 [] [] [] 4 [] 0) random.

(** [initialize()] *)
Definition initialize (g : GameLogic) : GameLogic :=
  let g := addLayer g 0 0 GAME_CONFIG.ORIGINAL_BOX_SIZE GAME_CONFIG.ORIGINAL_BOX_SIZE None in
  addLayer g (-10) 0 GAME_CONFIG.ORIGINAL_BOX_SIZE GAME_CONFIG.ORIGINAL_BOX_SIZE
           (Some DIRECTIONS.X).

(** [startGame()] *)
Definition startGame (g : GameLogic) : GameLogic :=
  let g := set_isAutopilot g false in
  let g := set_isGameEnded g false in
  let g := set_score g 0%Z in
  let g := set_stack g [] in
  let g := set_overhangs g [] in
  let g := clearGame g in
  let g := RenderManager.resetCamera g in
  let g := addLayer g 0 0 GAME_CONFIG.ORIGINAL_BOX_SIZE GAME_CONFIG.ORIGINAL_BOX_SIZE None in
  let g := addLayer g (-10) 0 GAME_CONFIG.ORIGINAL_BOX_SIZE GAME_CONFIG.ORIGINAL_BOX_SIZE
                    (Some DIRECTIONS.X) in
  let g := emit g GAME_START in
  emit g (SCORE_UPDATE (score g)).

(** [missBlock()].  On an empty stack [topLayer] is [undefined] and the first
    method call on it throws: [None]. *)
Definition missBlock (g : GameLogic) : option GameLogic :=
  match stack_at (stack g) (Z.of_nat (length (stack g)) - 1) with
  | None => None
  | Some topLayer =>
      let g := addOverhang g (getPosition topLayer DIRECTIONS.X)
                           (getPosition topLayer DIRECTIONS.Z)
                           (width topLayer) (depth topLayer) in
      let g := PhysicsManager.removeBody g topLayer in
      let g := RenderManager.removeFromScene g topLayer in
      let g := set_stack g (removelast (stack g)) in
      let g := set_isGameEnded g true in
      Some (if negb (isAutopilot g) then emit g GAME_OVER else g)
  end.

(** [cutAndContinue(topLayer, overlap, size, delta, overhangSize, direction)];
    [topLayer] is the block at the top of the stack. *)
Definition cutAndContinue (g : GameLogic) (topLayer : Block)
           (overlap size delta overhangSize : Q) (direction : Direction) : GameLogic :=
  let topLayer := cut topLayer overlap size delta in
  let topLayer :=
    PhysicsManager.updateBodyShape topLayer (width topLayer) GAME_CONFIG.BOX_HEIGHT
                                   (depth topLayer) in
  let g := store_top g topLayer in
  let overhangShift := (overlap / 2 + overhangSize / 2) * Math_sign delta in
  let overhangX :=
    if Direction_eqb direction DIRECTIONS.X
    then getPosition topLayer DIRECTIONS.X + overhangShift
    else getPosition topLayer DIRECTIONS.X in
  let overhangZ :=
    if Direction_eqb direction DIRECTIONS.Z
    then getPosition topLayer DIRECTIONS.Z + overhangShift
    else getPosition topLayer DIRECTIONS.Z in
  let overhangWidth :=
    if Direction_eqb direction DIRECTIONS.X then overhangSize else width topLayer in
  let overhangDepth :=
    if Direction_eqb direction DIRECTIONS.Z then overhangSize else depth topLayer in
  let g := addOverhang g overhangX overhangZ overhangWidth overhangDepth in
  let nextX :=
    if Direction_eqb direction DIRECTIONS.X then getPosition topLayer DIRECTIONS.X else -10 in
  let nextZ :=
    if Direction_eqb direction DIRECTIONS.Z then getPosition topLayer DIRECTIONS.Z else -10 in
  let nextDirection :=
    if Direction_eqb direction DIRECTIONS.X then DIRECTIONS.Z else DIRECTIONS.X in
  let g := set_score g (Z.of_nat (length (stack g)) - 1)%Z in
  let g := emit g (SCORE_UPDATE (score g)) in
  addLayer g nextX nextZ (width topLayer) (depth topLayer) (Some nextDirection).

(** [splitBlockAndAddNext()].  When the top layer has [direction === null],
    [getPosition(null)] is [undefined], [delta] and [overlap] are NaN and
    [overlap > 0] is false: the miss branch. *)
Definition splitBlockAndAddNext (g : GameLogic) : option GameLogic :=
  if isGameEnded g || (length (stack g) <? 2)%nat then Some g
  else
    let n := Z.of_nat (length (stack g)) in
    match stack_at (stack g) (n - 1), stack_at (stack g) (n - 2) with
    | Some topLayer, Some previousLayer =>
        match direction topLayer with
        | None => missBlock g
        | Some direction =>
            let size := getSize topLayer (Some direction) in
            let delta := getPosition topLayer direction
                         - getPosition previousLayer direction in
            let overhangSize := Math_abs delta in
            let overlap := size - overhangSize in
            if Qltb 0 overlap
            then Some (cutAndContinue g topLayer overlap size delta overhangSize direction)
            else missBlock g
        end
    | _, _ => None
    end.

(** [handleBlockPlacement()] *)
Definition handleBlockPlacement (g : GameLogic) : option GameLogic :=
  if isAutopilot g then Some (startGame g) else splitBlockAndAddNext g.

(** [shouldBlockMove(topLayer, previousLayer)]; with [direction === null] the
    autopilot comparison is on [undefined] and is false. *)
Definition shouldBlockMove (g : GameLogic) (topLayer previousLayer : Block) : bool :=
  if isGameEnded g then false
  else if negb (isAutopilot g) then true
  else
    match direction topLayer with
    | None => false
    | Some d =>
        let currentPos := getPosition topLayer d in
        let targetPos := getPosition previousLayer d + robotPrecision g in
        Qltb currentPos targetPos
    end.

(** [moveBlock(block, deltaTime)]; with [direction === null] the write goes to
    [position[null]] and no coordinate changes. *)
Definition moveBlock (block : Block) (deltaTime : Q) : Block :=
  let speed := GAME_CONFIG.MOVEMENT_SPEED in
  let delta := speed * deltaTime in
  match direction block with
  | None => block
  | Some d => updatePosition block d delta
  end.

(** [updateOverhangs()] *)
Definition updateOverhangs (g : GameLogic) : GameLogic :=
  set_overhangs g (map updateFromPhysics (overhangs g)).

(** [update(deltaTime)]; [random] is the value [Math.random()] returns if
    [setRobotPrecision] is reached. *)
Definition update (g : GameLogic) (deltaTime random : Q) : option GameLogic :=
  if (length (stack g) <? 2)%nat then Some g
  else
    let n := Z.of_nat (length (stack g)) in
    match stack_at (stack g) (n - 1), stack_at (stack g) (n - 2) with
    | Some topLayer, Some previousLayer =>
        let targetCameraY := GAME_CONFIG.BOX_HEIGHT * inject_Z (n - 2) in
        let g := RenderManager.updateCameraPosition g targetCameraY deltaTime in
        let shouldMove := shouldBlockMove g topLayer previousLayer in
        let moved :=
          if shouldMove then
            let topLayer := moveBlock topLayer deltaTime in
            let g := store_top g topLayer in
            if isOutOfBounds topLayer then missBlock g else Some g
          else if isAutopilot g then
            match splitBlockAndAddNext g with
            | Some g => Some (setRobotPrecision g random)
            | None => None
            end
          else Some g in
        match moved with
        | Some g => Some (updateOverhangs g)
        | None => None
        end
    | _, _ => None
    end.

End Logic.
Import Logic.

(** A fresh game as the page builds it: constructor, then [initialize()]. *)
Definition fresh (random : Q) : GameLogic := initialize (new_GameLogic random).

(** ** The geometry of a placement

    The quantities [splitBlockAndAddNext] computes from the top layer, the
    layer below it and the axis [d] of the top layer. *)

Module Geometry.

Definition size (topLayer : Block) (d : Direction) : Q :=
  getSize topLayer (Some d).

Definition delta (topLayer previousLayer : Block) (d : Direction) : Q :=
  getPosition topLayer d - getPosition previousLayer d.

Definition overhangSize (topLayer previousLayer : Block) (d : Direction) : Q :=
  Math_abs (delta topLayer previousLayer d).

Definition overlap (topLayer previousLayer : Block) (d : Direction) : Q :=
  size topLayer d - overhangSize topLayer previousLayer d.

(** The axis that follows [d]. *)
Definition opposite (d : Direction) : Direction :=
  match d with
  | DIRECTIONS.X => DIRECTIONS.Z
  | DIRECTIONS.Z => DIRECTIONS.X
  end.

End Geometry.

(** The block that stays in the stack after a cut: [topLayer] once [cut] and
    [updateBodyShape] have mutated it. *)
Definition keptLayer (topLayer : Block) (overlap size delta : Q) : Block :=
  let c := cut topLayer overlap size delta in
  PhysicsManager.updateBodyShape c (width c) GAME_CONFIG.BOX_HEIGHT (depth c).

(** ** The effect of the two branches of a placement *)

Set Implicit Arguments.

(** What [cutAndContinue] does to a stack [base ++ [p; t]] whose top layer
    slides along [d]: [overhang] is the block it adds to [overhangs], [next]
    the layer it appends. *)
Record cut_effect (g g' : GameLogic) (base : list Block) (p t : Block)
       (d : Direction) (overlap size delta overhangSize : Q)
       (overhang next : Block) : Prop := {
  ce_stack : stack g' = base ++ [p; keptLayer t overlap size delta; next];
  ce_overhangs : overhangs g' = overhangs g ++ [overhang];
  ce_overhang_uid : uid overhang = next_uid g;
  ce_overhang_along :
    getPosition overhang d
    = getPosition (keptLayer t overlap size delta) d
      + (overlap / 2 + overhangSize / 2) * Math_sign delta;
  ce_overhang_across :
    getPosition overhang (Geometry.opposite d)
    = getPosition (keptLayer t overlap size delta) (Geometry.opposite d);
  ce_overhang_height :
    vy (position overhang)
    = GAME_CONFIG.BOX_HEIGHT * inject_Z (Z.of_nat (length (stack g)) - 1);
  ce_overhang_size : getSize overhang (Some d) = overhangSize;
  ce_overhang_size_across :
    getSize overhang (Some (Geometry.opposite d))
    = getSize (keptLayer t overlap size delta) (Some (Geometry.opposite d));
  ce_overhang_direction : direction overhang = None;
  ce_overhang_falling : isFalling overhang = true;
  ce_next_uid : uid next = S (next_uid g);
  ce_next_along :
    getPosition next d = getPosition (keptLayer t overlap size delta) d;
  ce_next_across : getPosition next (Geometry.opposite d) = -10;
  ce_next_height :
    vy (position next)
    = GAME_CONFIG.BOX_HEIGHT * inject_Z (Z.of_nat (length (stack g)));
  ce_next_width : width next = width (keptLayer t overlap size delta);
  ce_next_depth : depth next = depth (keptLayer t overlap size delta);
  ce_next_direction : direction next = Some (Geometry.opposite d);
  ce_score : score g' = (Z.of_nat (length (stack g)) - 1)%Z;
  ce_isGameEnded : isGameEnded g' = isGameEnded g;
  ce_isAutopilot : isAutopilot g' = isAutopilot g;
  ce_world : world_bodies g' = world_bodies g ++ [next_uid g; S (next_uid g)];
  ce_scene : scene_meshes g' = scene_meshes g ++ [next_uid g; S (next_uid g)];
  ce_disposed : disposed g' = disposed g;
  ce_fresh : next_uid g' = S (S (next_uid g));
  ce_emitted :
    emitted g'
    = emitted g ++ [SCORE_UPDATE (Z.of_nat (length (stack g)) - 1);
                    LAYER_ADDED (S (next_uid g)) (S (length (stack g)))]
}.

(** What [missBlock] does to a stack [init ++ [t]]: [overhang] is the block
    it adds to [overhangs]. *)
Record miss_effect (g g' : GameLogic) (init : list Block) (t : Block)
       (overhang : Block) : Prop := {
  me_stack : stack g' = init;
  me_overhangs : overhangs g' = overhangs g ++ [overhang];
  me_overhang_uid : uid overhang = next_uid g;
  me_overhang_x : getPosition overhang DIRECTIONS.X = getPosition t DIRECTIONS.X;
  me_overhang_z : getPosition overhang DIRECTIONS.Z = getPosition t DIRECTIONS.Z;
  me_overhang_height :
    vy (position overhang)
    = GAME_CONFIG.BOX_HEIGHT * inject_Z (Z.of_nat (length (stack g)) - 1);
  me_overhang_width : width overhang = width t;
  me_overhang_depth : depth overhang = depth t;
  me_overhang_direction : direction overhang = None;
  me_overhang_falling : isFalling overhang = true;
  me_score : score g' = score g;
  me_isGameEnded : isGameEnded g' = true;
  me_isAutopilot : isAutopilot g' = isAutopilot g;
  me_world :
    world_bodies g'
    = match physicsBody t with
      | Some _ => remove Nat.eq_dec (uid t) (world_bodies g ++ [next_uid g])
      | None => world_bodies g ++ [next_uid g]
      end;
  me_scene :
    scene_meshes g'
    = match mesh t with
      | Some _ => remove Nat.eq_dec (uid t) (scene_meshes g ++ [next_uid g])
      | None => scene_meshes g ++ [next_uid g]
      end;
  me_disposed : disposed g' = disposed g;
  me_fresh : next_uid g' = S (next_uid g);
  me_emitted :
    emitted g' = emitted g ++ (if isAutopilot g then [] else [GAME_OVER])
}.

(** What [startGame] builds: the seed layers [base] and [top]. *)
Record start_effect (g g' : GameLogic) (base top : Block) : Prop := {
  se_stack : stack g' = [base; top];
  se_overhangs : overhangs g' = [];
  se_isAutopilot : isAutopilot g' = false;
  se_isGameEnded : isGameEnded g' = false;
  se_score : score g' = 0%Z;
  se_base_uid : uid base = next_uid g;
  se_base_position : position base = mkVec3 0 0 0;
  se_base_width : width base = GAME_CONFIG.ORIGINAL_BOX_SIZE;
  se_base_depth : depth base = GAME_CONFIG.ORIGINAL_BOX_SIZE;
  se_base_direction : direction base = None;
  se_top_uid : uid top = S (next_uid g);
  se_top_position : position top = mkVec3 (-10) 1 0;
  se_top_width : width top = GAME_CONFIG.ORIGINAL_BOX_SIZE;
  se_top_depth : depth top = GAME_CONFIG.ORIGINAL_BOX_SIZE;
  se_top_direction : direction top = Some DIRECTIONS.X;
  se_world : world_bodies g' = [next_uid g; S (next_uid g)];
  se_scene : scene_meshes g' = [next_uid g; S (next_uid g)];
  se_disposed : disposed g' = disposed g ++ scene_meshes g;
  se_fresh : next_uid g' = S (S (next_uid g));
  se_emitted :
    emitted g'
    = emitted g ++ [LAYER_ADDED (next_uid g) 1; LAYER_ADDED (S (next_uid g)) 2;
                    GAME_START; SCORE_UPDATE 0]
}.

Unset Implicit Arguments.

(** ** Entry points and reachable states *)

(** The calls that change the state while the page runs: [GAME_RESET] and
    [StackGame.restart()] call [startGame], [BLOCK_PLACED] calls
    [handleBlockPlacement], every animation frame calls [update] and then
    steps the physics world.  ([StackGame.dispose()] calls [clearGame] when
    the page unloads, after the loop has stopped; no call follows it.) *)
Inductive Op : Type :=
| OpStartGame
| OpHandleBlockPlacement
| OpUpdate (deltaTime random : Q)
| OpPhysicsStep (engine : Block -> Vec3).

Definition step (g : GameLogic) (op : Op) : option GameLogic :=
  match op with
  | OpStartGame => Some (startGame g)
  | OpHandleBlockPlacement => handleBlockPlacement g
  | OpUpdate deltaTime random => update g deltaTime random
  | OpPhysicsStep engine => Some (PhysicsManager.step g engine)
  end.

Fixpoint run (g : GameLogic) (ops : list Op) : option GameLogic :=
  match ops with
  | [] => Some g
  | op :: ops =>
      match step g op with
      | Some g' => run g' ops
      | None => None
      end
  end.

(** The states a page can be in: built by the constructor and
    [initialize()], then driven through the entry points. *)
Inductive reachable : GameLogic -> Prop :=
| reachable_fresh (random : Q) : reachable (fresh random)
| reachable_step (g : GameLogic) (op : Op) (g' : GameLogic) :
    reachable g -> step g op = Some g' -> reachable g'.

(** A fresh game: the one the page builds, or the one [startGame] builds. *)
Inductive fresh_game : GameLogic -> Prop :=
| fresh_page (random : Q) : fresh_game (fresh random)
| fresh_started (g : GameLogic) : fresh_game (startGame g).

(** A call that runs [startGame]. *)
Definition is_reset (g : GameLogic) (op : Op) : bool :=
  match op with
  | OpStartGame => true
  | OpHandleBlockPlacement => isAutopilot g
  | OpUpdate _ _ | OpPhysicsStep _ => false
  end.

(** A successful placement: a call other than a reset after which the stack
    has one more layer. *)
Definition is_placement (g : GameLogic) (op : Op) : bool :=
  negb (is_reset g op)
  && match step g op with
     | Some g' => (length (stack g) <? length (stack g'))%nat
     | None => false
     end.

(** The number of successful placements along a run. *)
Fixpoint placements (g : GameLogic) (ops : list Op) : nat :=
  match ops with
  | [] => 0
  | op :: ops =>
      match step g op with
      | Some g' => ((if is_placement g op then 1 else 0) + placements g' ops)%nat
      | None => 0%nat
      end
  end.

(** No call of the run is a reset: the run stays within one game. *)
Fixpoint one_game (g : GameLogic) (ops : list Op) : bool :=
  match ops with
  | [] => true
  | op :: ops =>
      negb (is_reset g op)
      && match step g op with
         | Some g' => one_game g' ops
         | None => true
         end
  end.

(** ** Invariants of the reachable states *)

(** The axis of the layer at index [i]: none for the base, then 'x' and 'z'
    in turn. *)
Definition axis_at (i : nat) : option Direction :=
  match i with
  | O => None
  | S _ => Some (if Nat.odd i then DIRECTIONS.X else DIRECTIONS.Z)
  end.

Set Implicit Arguments.

(** The blocks the game holds, by identity ([layers] in the stack, [falling]
    in the overhangs), against the physics world and the scene: identities
    are below the next free one and pairwise distinct, every body is in the
    world and every mesh in the scene. *)
Record resources_ok (layers falling world scene : list nat) (next : nat) : Prop := {
  res_fresh : Forall (fun u => (u < next)%nat) (layers ++ falling);
  res_world : incl (layers ++ falling) world;
  res_scene : incl (layers ++ falling) scene;
  res_nodup : NoDup (layers ++ falling)
}.

Record invariant (g : GameLogic) : Prop := {
  inv_playing :
    isGameEnded g = false ->
    (2 <= length (stack g))%nat /\ score g = (Z.of_nat (length (stack g)) - 2)%Z;
  inv_ended :
    isGameEnded g = true ->
    (1 <= length (stack g))%nat /\ score g = (Z.of_nat (length (stack g)) - 1)%Z;
  inv_axes :
    map direction (stack g) = map axis_at (seq 0 (length (stack g)));
  inv_resources :
    resources_ok (map uid (stack g)) (map uid (overhangs g))
                 (world_bodies g) (scene_meshes g) (next_uid g)
}.

(** Two states that the invariant cannot tell apart. *)
Record same_view (g g' : GameLogic) : Prop := {
  sv_stack_uid : map uid (stack g') = map uid (stack g);
  sv_stack_direction : map direction (stack g') = map direction (stack g);
  sv_overhangs_uid : map uid (overhangs g') = map uid (overhangs g);
  sv_world : world_bodies g' = world_bodies g;
  sv_scene : scene_meshes g' = scene_meshes g;
  sv_next_uid : next_uid g' = next_uid g;
  sv_score : score g' = score g;
  sv_isGameEnded : isGameEnded g' = isGameEnded g;
  sv_isAutopilot : isAutopilot g' = isAutopilot g
}.

Unset Implicit Arguments.

(** Adjacent layers above the base slide along opposite axes. *)
Definition alternates (a : list Block) : Prop :=
  forall (i : nat) (lower upper : Block),
    nth_error a (S i) = Some lower ->
    nth_error a (S (S i)) = Some upper ->
    exists d, direction lower = Some d
              /\ direction upper = Some (Geometry.opposite d).

(** ** Concrete games *)

Module Scenario.

(** The result of a call that returns. *)
Definition force (g : GameLogic) (r : option GameLogic) : GameLogic :=
  match r with
  | Some g' => g'
  | None => g
  end.

Definition no_block : Block := new_Block 0 0 0 0 0 0 None None.

(** A page in autopilot with precision 0, then the first tap: a new game,
    the sliding layer at x = -10 over the base at x = 0. *)
Definition start : GameLogic := Eval vm_compute in startGame (fresh 0.5).

(** 1375 ms later the layer is at x = 1: an offset of 1 on extent 3. *)
Definition offset_one : GameLogic :=
  Eval vm_compute in force start (update start 1375 0).
Definition offset_one_base : Block :=
  Eval vm_compute in nth 0 (stack offset_one) no_block.
Definition offset_one_top : Block :=
  Eval vm_compute in nth 1 (stack offset_one) no_block.

(** 875 ms after the start the layer is at x = -3: the overlap is 0. *)
Definition touching : GameLogic :=
  Eval vm_compute in force start (update start 875 0).
Definition touching_base : Block :=
  Eval vm_compute in nth 0 (stack touching) no_block.
Definition touching_top : Block :=
  Eval vm_compute in nth 1 (stack touching) no_block.

(** A tap then: the layer is missed and the game has ended. *)
Definition ended : GameLogic :=
  Eval vm_compute in force touching (handleBlockPlacement touching).

(** A page left in autopilot for two frames: the robot has placed a layer. *)
Definition demo : GameLogic :=
  Eval vm_compute in
    force (fresh 0.5) (run (fresh 0.5) [OpUpdate 1250 0.5; OpUpdate 16 0.5]).

(** From the start: wait for the layer to be over the base, tap, twice. *)
Definition two_taps : list Op :=
  [OpUpdate 1250 0; OpHandleBlockPlacement; OpUpdate 1250 0; OpHandleBlockPlacement].
Definition two_placed : GameLogic :=
  Eval vm_compute in force start (run start two_taps).

End Scenario.

(** What a call other than a reset can do to a game, as far as the score,
    the phase and the height of the stack go: nothing, a successful
    placement, or a miss. *)
Inductive outcome (g g' : GameLogic) : Prop :=
| outcome_idle :
    same_view g g' -> outcome g g'
| outcome_placed :
    isGameEnded g = false -> isGameEnded g' = false ->
    length (stack g') = S (length (stack g)) ->
    score g' = (score g + 1)%Z ->
    isAutopilot g' = isAutopilot g ->
    outcome g g'
| outcome_missed :
    isGameEnded g = false -> isGameEnded g' = true ->
    length (stack g) = S (length (stack g')) ->
    score g' = score g ->
    isAutopilot g' = isAutopilot g ->
    outcome g g'.

(** ** Consistency of the blocks of the stack *)

Set Implicit Arguments.

(** How a mesh shows an extent of its block along one axis: at the size of
    its geometry, with scale 1; or, once the block has been cut along the
    axis, with the scale [cut] has set, the extent the cut left over the
    extent the geometry has. *)
Definition drawn (geometry scale extent : Q) : Prop :=
  (scale = 1 /\ geometry = extent) \/ scale = extent / geometry.

(** The layer [b] at index [i] of the stack: its mesh and its body are where
    the block is, the body is static and has the half extents of the block,
    the mesh shows the width and the depth of the block and has the height
    of a box, the height of the block is that of the index, the extents are
    positive and not larger than those of the seed. *)
Record layer_consistent (i : nat) (b : Block) : Prop := {
  lc_mesh :
    exists m : Mesh,
      mesh b = Some m
      /\ mesh_position m = position b
      /\ drawn (vx (mesh_geometry m)) (vx (mesh_scale m)) (width b)
      /\ (vy (mesh_scale m) = 1 /\ vy (mesh_geometry m) = GAME_CONFIG.BOX_HEIGHT)
      /\ drawn (vz (mesh_geometry m)) (vz (mesh_scale m)) (depth b);
  lc_body :
    exists p : Body,
      physicsBody b = Some p
      /\ body_position p = position b
      /\ body_halfExtents p
         = mkVec3 (width b / 2) (GAME_CONFIG.BOX_HEIGHT / 2) (depth b / 2)
      /\ body_mass p = 0;
  lc_height :
    vy (position b) = GAME_CONFIG.BOX_HEIGHT * inject_Z (Z.of_nat i);
  lc_width : 0 < width b /\ width b <= GAME_CONFIG.ORIGINAL_BOX_SIZE;
  lc_depth : 0 < depth b /\ depth b <= GAME_CONFIG.ORIGINAL_BOX_SIZE;
  lc_at_rest : isFalling b = false
}.

(** A layer no cut has touched: its mesh has the geometry of the block and
    scale 1. *)
Definition uncut (b : Block) : Prop :=
  exists m : Mesh,
    mesh b = Some m
    /\ mesh_scale m = mkVec3 1 1 1
    /\ mesh_geometry m = mkVec3 (width b) GAME_CONFIG.BOX_HEIGHT (depth b).

(** Every layer is consistent at its index. *)
Definition layers_consistent (a : list Block) : Prop :=
  forall (i : nat) (b : Block), nth_error a i = Some b -> layer_consistent i b.

(** No layer is wider or deeper than the layer below it. *)
Definition tapers (a : list Block) : Prop :=
  forall (i : nat) (lower upper : Block),
    nth_error a i = Some lower ->
    nth_error a (S i) = Some upper ->
    width upper <= width lower /\ depth upper <= depth lower.

(** While the game runs the top layer is uncut and has the extents of the
    layer below it. *)
Record stack_consistent (g : GameLogic) : Prop := {
  sc_layers : layers_consistent (stack g);
  sc_top :
    isGameEnded g = false ->
    forall (base : list Block) (p t : Block),
      stack g = base ++ [p; t] ->
      uncut t /\ width t = width p /\ depth t = depth p;
  sc_taper : tapers (stack g)
}.

Unset Implicit Arguments.

(** ** More concrete games *)

Module Demo.

(** The page in autopilot with precision 0, 1250 ms after it was built: the
    sliding layer has reached x = 0, over the base. *)
Definition at_target : GameLogic :=
  Eval vm_compute in Scenario.force (fresh 0.5) (update (fresh 0.5) 1250 0.5).
Definition at_target_base : Block :=
  Eval vm_compute in nth 0 (stack at_target) Scenario.no_block.
Definition at_target_top : Block :=
  Eval vm_compute in nth 1 (stack at_target) Scenario.no_block.

(** The game of [Scenario.offset_one] after the tap that places the layer,
    and one frame of 100 ms later. *)
Definition placed : GameLogic :=
  Eval vm_compute in
    Scenario.force Scenario.offset_one (handleBlockPlacement Scenario.offset_one).
Definition placed_frame : GameLogic :=
  Eval vm_compute in Scenario.force placed (update placed 100 0).

(** After [placed], which holds one overhang: wait, then tap again. *)
Definition tap_again : list Op := [OpUpdate 1250 0; OpHandleBlockPlacement].
Definition placed_again : GameLogic :=
  Eval vm_compute in Scenario.force placed (run placed tap_again).

(** Two layers placed, then the physics engine lets every body with mass
    drop by one unit, then a frame is drawn. *)
Definition drop (b : Block) : Vec3 :=
  match physicsBody b with
  | Some p =>
      mkVec3 (vx (body_position p)) (vy (body_position p) - 1) (vz (body_position p))
  | None => position b
  end.
Definition dropped : GameLogic :=
  Eval vm_compute in PhysicsManager.step Scenario.two_placed drop.
Definition dropped_frame : GameLogic :=
  Eval vm_compute in Scenario.force dropped (update dropped 16 0).

End Demo.

(** ** Consistency of the overhangs and of the two engines *)

(** An overhang: a falling block without axis, with a mesh and a body; the
    box of the body has half the extents of the block and its mass is the
    fall mass scaled by the two extents. *)
Definition overhang_consistent (o : Block) : Prop :=
  exists (m : Mesh) (p : Body),
    mesh o = Some m
    /\ physicsBody o = Some p
    /\ isFalling o = true
    /\ direction o = None
    /\ body_halfExtents p
       = mkVec3 (width o / 2) (GAME_CONFIG.BOX_HEIGHT / 2) (depth o / 2)
    /\ body_mass p
       = GAME_CONFIG.BOX_FALL_MASS * (width o / GAME_CONFIG.ORIGINAL_BOX_SIZE)
         * (depth o / GAME_CONFIG.ORIGINAL_BOX_SIZE)
    /\ 0 <= width o /\ 0 <= depth o.

(** The identities of the blocks the game holds. *)
Definition live (g : GameLogic) : list nat :=
  map uid (stack g) ++ map uid (overhangs g).

Set Implicit Arguments.

(** The stack is consistent, the overhangs are, and neither the physics
    world nor the scene holds anything but the bodies and the meshes of the
    blocks of the game. *)
Record blocks_consistent (g : GameLogic) : Prop := {
  bc_stack : stack_consistent g;
  bc_overhangs : Forall overhang_consistent (overhangs g);
  bc_world : incl (world_bodies g) (live g);
  bc_scene : incl (scene_meshes g) (live g)
}.

Unset Implicit Arguments.

(** What stays of an overhang while it falls: its identity and its extents. *)
Definition piece (o : Block) : nat * Q * Q := (uid o, width o, depth o).

(** ** User interface ([ui/ui_manager.js]) *)

Module UI.

(** [element.style.display], as far as the handlers write it. *)
Inductive Display : Type :=
| display_unset
| display_none
| display_flex.

(** The fields of a [UIManager].  An element is [None] when
    [document.getElementById] found none; [scoreElement] holds the number
    whose decimal text is the [textContent] of the element ([None] before the
    first write), the two others hold their [style.display]. *)
Record UIManager : Type := mkUIManager {
  scoreElement : option (option Z);
  instructionsElement : option Display;
  resultsElement : option Display;
  score : Z;
  isInitialized : bool
}.

(** [if (element) element.style.display = value] *)
Definition set_display (element : option Display) (value : Display) : option Display :=
  match element with
  | Some _ => Some value
  | None => None
  end.

(** [constructor()] *)
Definition new_UIManager : UIManager := mkUIManager None None None 0%Z false.

(** [initialize()]; the arguments are what [document.getElementById] returns
    for the three elements. *)
Definition initialize (ui : UIManager)
           (scoreEl : option (option Z)) (instructionsEl resultsEl : option Display)
  : UIManager :=
  mkUIManager scoreEl instructionsEl resultsEl (score ui) true.

(** [updateScore(newScore)] *)
Definition updateScore (ui : UIManager) (newScore : Z) : UIManager :=
  mkUIManager
    match scoreElement ui with
    | Some _ => Some (Some newScore)
    | None => None
    end
    (instructionsElement ui) (resultsElement ui) newScore (isInitialized ui).

(** [showGameUI()] *)
Definition showGameUI (ui : UIManager) : UIManager :=
  let ui :=
    mkUIManager (scoreElement ui)
                (set_display (instructionsElement ui) display_none)
                (resultsElement ui) (score ui) (isInitialized ui) in
  let ui :=
    mkUIManager (scoreElement ui) (instructionsElement ui)
                (set_display (resultsElement ui) display_none)
                (score ui) (isInitialized ui) in
  updateScore ui 0.

(** [showGameOverUI()] *)
Definition showGameOverUI (ui : UIManager) : UIManager :=
  mkUIManager (scoreElement ui) (instructionsElement ui)
              (set_display (resultsElement ui) display_flex)
              (score ui) (isInitialized ui).

(** [showInstructionsUI()] *)
Definition showInstructionsUI (ui : UIManager) : UIManager :=
  let ui :=
    mkUIManager (scoreElement ui)
                (set_display (instructionsElement ui) display_flex)
                (resultsElement ui) (score ui) (isInitialized ui) in
  mkUIManager (scoreElement ui) (instructionsElement ui)
              (set_display (resultsElement ui) display_none)
              (score ui) (isInitialized ui).

(** [resetUI()] *)
Definition resetUI (ui : UIManager) : UIManager :=
  updateScore (showInstructionsUI ui) 0.

(** The listeners [setupGameEventListeners] subscribes, applied to an event
    the game logic emits: [SCORE_UPDATE] calls [updateScore] with the score,
    [GAME_START] calls [showGameUI], [GAME_OVER] calls [showGameOverUI];
    nothing listens to [LAYER_ADDED]. *)
Definition listen (ui : UIManager) (e : Event) : UIManager :=
  match e with
  | SCORE_UPDATE newScore => updateScore ui newScore
  | GAME_START => showGameUI ui
  | GAME_OVER => showGameOverUI ui
  | LAYER_ADDED _ _ => ui
  end.

(** The events of a list, delivered in the order of their emission. *)
Definition deliver (ui : UIManager) (events : list Event) : UIManager :=
  fold_left listen events ui.

End UI.

(** ** The page ([StackGame], the main module) *)

Module Page.

(** The fields of a [StackGame] once [initialize()] has built the managers
    and the game logic; the physics world and the scene are part of
    [gameLogic], the pending animation frame is left to the caller. *)
Record StackGame : Type := mkStackGame {
  gameLogic : GameLogic;
  uiManager : UI.UIManager;
  isRunning : bool;
  lastTime : Q
}.

(** The events a call of the game logic has emitted, from the state before
    and the state after. *)
Definition published (g g' : GameLogic) : list Event :=
  skipn (length (emitted g)) (emitted g').

(** A call of the game logic on the page: the user interface hears every
    event of the call.  (Its listeners neither read nor write the game logic,
    so they are run here after the call rather than during it.)  A call that
    throws is caught. *)
Definition call_logic (sg : StackGame) (r : option GameLogic) : option StackGame :=
  match r with
  | Some g' =>
      Some (mkStackGame g' (UI.deliver (uiManager sg) (published (gameLogic sg) g'))
                        (isRunning sg) (lastTime sg))
  | None => None
  end.

(** [gameEvents.emit(EVENTS.BLOCK_PLACED)], from a tap, a click or the space
    bar: the one listener is [GameLogic.handleBlockPlacement]; [emit] catches
    its errors. *)
Definition block_placed (sg : StackGame) : StackGame :=
  match call_logic sg (handleBlockPlacement (gameLogic sg)) with
  | Some sg' => sg'
  | None => sg
  end.

(** [gameEvents.emit(EVENTS.GAME_RESET)], from a click on the results: the
    listeners are [UIManager.resetUI], subscribed first, then
    [GameLogic.startGame]. *)
Definition game_reset (sg : StackGame) : StackGame :=
  let sg := mkStackGame (gameLogic sg) (UI.resetUI (uiManager sg))
                        (isRunning sg) (lastTime sg) in
  match call_logic sg (Some (startGame (gameLogic sg))) with
  | Some sg' => sg'
  | None => sg
  end.

(** [restart()] *)
Definition restart (sg : StackGame) : StackGame :=
  match call_logic sg (Some (startGame (gameLogic sg))) with
  | Some sg' => sg'
  | None => sg
  end.

(** [pause()] *)
Definition pause (sg : StackGame) : StackGame :=
  if negb (isRunning sg) then sg
  else mkStackGame (gameLogic sg) (uiManager sg) false (lastTime sg).

(** [animate(currentTime)]; [random] and [engine] are what [Math.random()]
    and the physics engine give during the frame. *)
Definition animate (sg : StackGame) (currentTime random : Q)
           (engine : Block -> Vec3) : StackGame :=
  if negb (isRunning sg) then sg
  else
    let deltaTime := if Qltb 0 (lastTime sg) then currentTime - lastTime sg else 0 in
    let sg := mkStackGame (gameLogic sg) (uiManager sg) (isRunning sg) currentTime in
    match call_logic sg (update (gameLogic sg) deltaTime random) with
    | Some sg =>
        mkStackGame (PhysicsManager.step (gameLogic sg) engine) (uiManager sg)
                    (isRunning sg) (lastTime sg)
    | None => pause sg
    end.

(** [start()] *)
Definition start (sg : StackGame) (random : Q) (engine : Block -> Vec3) : StackGame :=
  if isRunning sg then sg
  else
    let sg := mkStackGame (gameLogic sg) (uiManager sg) true 0 in
    let sg := animate sg 0 random engine in
    mkStackGame (gameLogic sg) (UI.resetUI (uiManager sg)) (isRunning sg) (lastTime sg).

(** [resume()] *)
Definition resume (sg : StackGame) (random : Q) (engine : Block -> Vec3) : StackGame :=
  if isRunning sg then sg else start sg random engine.

(** [initialize()]: the user interface is initialised on the elements of the
    document, the game logic is built and initialised, the loop starts.
    [precision] is what [Math.random()] gives to the constructor of the game
    logic. *)
Definition initialize
           (scoreEl : option (option Z)) (instructionsEl resultsEl : option UI.Display)
           (precision random : Q) (engine : Block -> Vec3) : StackGame :=
  let ui := UI.initialize UI.new_UIManager scoreEl instructionsEl resultsEl in
  start (mkStackGame (fresh precision) ui false 0) random engine.

(** What happens on a page: a tap (or click, or space bar), a click on the
    results, an animation frame, the document being hidden or shown again. *)
Inductive Input : Type :=
| Tap
| ResultsClick
| Frame (currentTime random : Q) (engine : Block -> Vec3)
| Hidden
| Shown (random : Q) (engine : Block -> Vec3).

Definition handle (sg : StackGame) (i : Input) : StackGame :=
  match i with
  | Tap => block_placed sg
  | ResultsClick => game_reset sg
  | Frame currentTime random engine => animate sg currentTime random engine
  | Hidden => pause sg
  | Shown random engine => resume sg random engine
  end.

Definition handle_all (sg : StackGame) (inputs : list Input) : StackGame :=
  fold_left handle inputs sg.

(** The document is shown again somewhere in the inputs. *)
Definition is_shown (i : Input) : bool :=
  match i with
  | Shown _ _ => true
  | _ => false
  end.

(** What a page with the elements of [ui] should show for the game [g]: the
    score; the instructions while the robot plays; the results once a game
    of the player has ended. *)
Definition view (ui : UI.UIManager) (g : GameLogic) : UI.UIManager :=
  UI.mkUIManager
    match UI.scoreElement ui with
    | Some _ => Some (Some (score g))
    | None => None
    end
    (UI.set_display (UI.instructionsElement ui)
                    (if isAutopilot g then UI.display_flex else UI.display_none))
    (UI.set_display (UI.resultsElement ui)
                    (if isGameEnded g && negb (isAutopilot g)
                     then UI.display_flex else UI.display_none))
    (score g)
    (UI.isInitialized ui).

Definition shows (ui : UI.UIManager) (g : GameLogic) : Prop := ui = view ui g.

End Page.

(** A page with the three elements, and a short session on it: a tap starts
    a game, two frames bring the sliding layer to x = 1, a tap places it. *)
Module Session.

Definition page : Page.StackGame :=
  Page.initialize (Some None) (Some UI.display_unset) (Some UI.display_unset)
                  0.5 0.5 Demo.drop.

Definition inputs : list Page.Input :=
  [Page.Tap; Page.Frame 16 0 Demo.drop; Page.Frame 1391 0 Demo.drop; Page.Tap].

Definition played : Page.StackGame :=
  Eval vm_compute in Page.handle_all page inputs.

(** The document is hidden then. *)
Definition hidden : Page.StackGame := Eval vm_compute in Page.pause played.

End Session.

(** ** Event system ([core/event_system.js]) *)

Module EventSystem.

Section Callbacks.

(** The callbacks act on a world of type [World] and receive data of type
    [Data].  A callback is a function object, known by its identity;
    [call c data w] is the world the callback [c] leaves and whether it
    returned ([false]: it threw).  No callback of the repository subscribes
    or unsubscribes, so the listeners are not part of the world. *)
Variables World Data : Type.
Variable call : nat -> Data -> World -> World * bool.

(** [listeners]: a [Map] from event names to [Set]s of callbacks.  Both keep
    insertion order; a key occurs once, a callback occurs once in a set. *)
Definition Listeners : Type := list (String.string * list nat).

(** [constructor()] *)
Definition new_EventSystem : Listeners := [].

(** [Map.get] *)
Fixpoint get (l : Listeners) (eventName : String.string) : option (list nat) :=
  match l with
  | [] => None
  | (k, s) :: l => if String.eqb k eventName then Some s else get l eventName
  end.

(** [Map.has] *)
Definition has (l : Listeners) (eventName : String.string) : bool :=
  match get l eventName with
  | Some _ => true
  | None => false
  end.

(** [Map.set] *)
Fixpoint set (l : Listeners) (eventName : String.string) (s : list nat) : Listeners :=
  match l with
  | [] => [(eventName, s)]
  | (k, s0) :: l =>
      if String.eqb k eventName then (k, s) :: l else (k, s0) :: set l eventName s
  end.

(** [Map.delete] *)
Fixpoint delete (l : Listeners) (eventName : String.string) : Listeners :=
  match l with
  | [] => []
  | (k, s) :: l =>
      if String.eqb k eventName then delete l eventName
      else (k, s) :: delete l eventName
  end.

(** [Set.add] *)
Definition add (s : list nat) (callback : nat) : list nat :=
  if existsb (Nat.eqb callback) s then s else s ++ [callback].

(** [Set.delete] *)
Definition set_delete (s : list nat) (callback : nat) : list nat :=
  remove Nat.eq_dec callback s.

(** [on(eventName, callback)]: the listeners after the call. *)
Definition on (l : Listeners) (eventName : String.string) (callback : nat) : Listeners :=
  let l := if has l eventName then l else set l eventName [] in
  match get l eventName with
  | Some s => set l eventName (add s callback)
  | None => l
  end.

(** The function [on(eventName, callback)] returns, called on [l]. *)
Definition unsubscribe (l : Listeners) (eventName : String.string) (callback : nat)
  : Listeners :=
  match get l eventName with
  | Some s => set l eventName (set_delete s callback)
  | None => l
  end.

(** One turn of the loop of [emit]: the callback is called, its error is
    caught and logged. *)
Definition notify (data : Data) (acc : World * list nat) (callback : nat)
  : World * list nat :=
  let (w, ok) := call callback data (fst acc) in
  (w, if ok then snd acc else snd acc ++ [callback]).

(** [emit(eventName, data)]: the world after the call, and the callbacks
    whose error was logged. *)
Definition emit (l : Listeners) (eventName : String.string) (data : Data) (w : World)
  : World * list nat :=
  match get l eventName with
  | Some s => fold_left (notify data) s (w, [])
  | None => (w, [])
  end.

(** [removeAllListeners(eventName)] *)
Definition removeAllListeners (l : Listeners) (eventName : String.string) : Listeners :=
  delete l eventName.

(** [clear()] *)
Definition clear (l : Listeners) : Listeners := [].

(** The callbacks subscribed to an event, in the order [emit] calls them. *)
Definition subscribers (l : Listeners) (eventName : String.string) : list nat :=
  match get l eventName with
  | Some s => s
  | None => []
  end.

End Callbacks.

Arguments notify {World Data} call data acc callback.
Arguments emit {World Data} call l eventName data w.

End EventSystem.

(** The names of the events ([EVENTS]). *)
Module EVENTS.
Import String.
Definition GAME_START : string := "game_start"%string.
Definition GAME_OVER : string := "game_over"%string.
Definition GAME_RESET : string := "game_reset"%string.
Definition SCORE_UPDATE : string := "score_update"%string.
Definition BLOCK_PLACED : string := "block_placed"%string.
Definition BLOCK_MISSED : string := "block_missed"%string.
Definition LAYER_ADDED : string := "layer_added"%string.
Definition WINDOW_RESIZE : string := "window_resize"%string.
End EVENTS.

(** The listeners of [gameEvents] on the page, in the order
    [StackGame.initialize()] subscribes them: those of the user interface
    ([UIManager.setupGameEventListeners]), those of the game logic
    ([GameLogic.setupEventListeners]), then the one of the page itself. *)
Module Wiring.

Definition updateScore : nat := 0.
Definition showGameUI : nat := 1.
Definition showGameOverUI : nat := 2.
Definition resetUI : nat := 3.
Definition handleBlockPlacement : nat := 4.
Definition startGame : nat := 5.
Definition handleResize : nat := 6.

Definition gameEvents : EventSystem.Listeners :=
  let l := EventSystem.new_EventSystem in
  let l := EventSystem.on l EVENTS.SCORE_UPDATE updateScore in
  let l := EventSystem.on l EVENTS.GAME_START showGameUI in
  let l := EventSystem.on l EVENTS.GAME_OVER showGameOverUI in
  let l := EventSystem.on l EVENTS.GAME_RESET resetUI in
  let l := EventSystem.on l EVENTS.BLOCK_PLACED handleBlockPlacement in
  let l := EventSystem.on l EVENTS.GAME_RESET startGame in
  EventSystem.on l EVENTS.WINDOW_RESIZE handleResize.

(** Callbacks for a trial: each one records its call in the world, a list;
    the one with the identity of [resetUI] throws after that. *)
Definition recorder (callback : nat) (data : unit) (w : list nat) : list nat * bool :=
  (w ++ [callback], negb (callback =? resetUI)%nat).

End Wiring.

(** ** Colours *)

(** The hue [createMesh(stackIndex)] gives. *)
Definition hue_at (stackIndex : nat) : Q :=
  GAME_CONFIG.COLOR_HUE_BASE
  + inject_Z (Z.of_nat stackIndex) * GAME_CONFIG.COLOR_HUE_INCREMENT.

(** The hue of the mesh of a block, if it has a mesh. *)
Definition hue_of (b : Block) : option Q := option_map mesh_hue (mesh b).

(** Every layer has the hue of its index. *)
Definition coloured (a : list Block) : Prop :=
  forall (i : nat) (b : Block), nth_error a i = Some b -> hue_of b = Some (hue_at i).

(** * The program over IEEE-754 doubles

    JavaScript numbers are binary64 floating-point numbers.  The module
    [Ieee] is the embedding above once more, definition by definition, with
    the arithmetic of doubles (the primitive floats of the kernel: binary64,
    rounding to nearest, ties to even) in place of the rationals.  Decimal
    constants denote the nearest double, as they do in JavaScript.  It is
    there to run the code, where a statement depends on how the code rounds. *)

Set Warnings "-inexact-float".

Module Ieee.

Import PrimFloat.
Local Open Scope float_scope.

(** *** Numbers *)

Module JsNumber.

(** An array length or index as a number (exact below 2^53). *)
Fixpoint of_nat (n : nat) : float :=
  match n with
  | O => 0
  | S n => of_nat n + 1
  end.

(** An integer as a number. *)
Definition of_Z (z : Z) : float :=
  match z with
  | Z0 => 0
  | Zpos p => of_nat (Pos.to_nat p)
  | Zneg p => - of_nat (Pos.to_nat p)
  end.

(** [Math.abs] *)
Definition Math_abs (x : float) : float := abs x.

(** [Math.sign]: 1, -1, or the argument itself when it is a zero or NaN. *)
Definition Math_sign (x : float) : float :=
  if PrimFloat.ltb 0 x then 1 else if PrimFloat.ltb x 0 then -1 else x.

End JsNumber.
Import JsNumber.

(** *** Configuration ([config/game_config.js]) *)

Module GAME_CONFIG.
Definition BOX_HEIGHT : float := 1.
Definition ORIGINAL_BOX_SIZE : float := 3.
Definition MOVEMENT_SPEED : float := 0.008.
Definition CAMERA_FOLLOW_SPEED : float := 0.08.
Definition BOX_FALL_MASS : float := 5.
Definition COLOR_HUE_BASE : float := 30.
Definition COLOR_HUE_INCREMENT : float := 4.
Definition ROBOT_PRECISION_RANGE : float := 1.
End GAME_CONFIG.

(** *** Blocks ([entities/block.js]) *)

Record Vec3 : Type := mkVec3 { vx : float; vy : float; vz : float }.

(** [v[direction]] *)
Definition coord (v : Vec3) (direction : Direction) : float :=
  match direction with
  | DIRECTIONS.X => vx v
  | DIRECTIONS.Z => vz v
  end.

(** [v[direction] = q] *)
Definition set_coord (v : Vec3) (direction : Direction) (q : float) : Vec3 :=
  match direction with
  | DIRECTIONS.X => mkVec3 q (vy v) (vz v)
  | DIRECTIONS.Z => mkVec3 (vx v) (vy v) q
  end.

(** The THREE.Mesh of a block: box geometry, colour hue, position, scale. *)
Record Mesh : Type := mkMesh {
  mesh_geometry : Vec3;
  mesh_hue : float;
  mesh_position : Vec3;
  mesh_scale : Vec3
}.

(** The CANNON.Body of a block: mass, half extents of its box, position. *)
Record Body : Type := mkBody {
  body_mass : float;
  body_halfExtents : Vec3;
  body_position : Vec3
}.

Record Block : Type := mkBlock {
  uid : nat;
  position : Vec3;
  width : float;
  depth : float;
  direction : option Direction;     (* [null] for the base and for overhangs *)
  mesh : option Mesh;
  physicsBody : option Body;
  isMoving : bool;
  isFalling : bool
}.

Module BlockOps.

(** [new Block(x, y, z, width, depth, direction, physicsBody)]; [id] is the
    identity of the new object. *)
Definition new_Block (id : nat) (x y z width depth : float)
           (direction : option Direction) (physicsBody : option Body) : Block :=
  mkBlock id (mkVec3 x y z) width depth direction None physicsBody false false.

(** [createMesh(stackIndex)]: builds the mesh and stores it in the block. *)
Definition createMesh (b : Block) (stackIndex : nat) : Block :=
  let geometry := mkVec3 (width b) GAME_CONFIG.BOX_HEIGHT (depth b) in
  let hue := GAME_CONFIG.COLOR_HUE_BASE
             + of_nat stackIndex * GAME_CONFIG.COLOR_HUE_INCREMENT in
  let m := mkMesh geometry hue (position b) (mkVec3 1 1 1) in
  mkBlock (uid b) (position b) (width b) (depth b) (direction b)
          (Some m) (physicsBody b) (isMoving b) (isFalling b).

(** [updateFromPhysics()]: the mesh takes the position of the body. *)
Definition updateFromPhysics (b : Block) : Block :=
  match physicsBody b, mesh b with
  | Some body, Some m =>
      mkBlock (uid b) (position b) (width b) (depth b) (direction b)
              (Some (mkMesh (mesh_geometry m) (mesh_hue m)
                            (body_position body) (mesh_scale m)))
              (physicsBody b) (isMoving b) (isFalling b)
  | _, _ => b
  end.

(** [getPosition(direction)] *)
Definition getPosition (b : Block) (direction : Direction) : float :=
  coord (position b) direction.

(** [getSize(direction)]: the width for 'x', the depth otherwise. *)
Definition getSize (b : Block) (direction : option Direction) : float :=
  match direction with
  | Some DIRECTIONS.X => width b
  | _ => depth b
  end.

Definition shift_mesh (m : Mesh) (d : Direction) (delta : float) : Mesh :=
  mkMesh (mesh_geometry m) (mesh_hue m)
         (set_coord (mesh_position m) d (coord (mesh_position m) d + delta))
         (mesh_scale m).

Definition shift_body (p : Body) (d : Direction) (delta : float) : Body :=
  mkBody (body_mass p) (body_halfExtents p)
         (set_coord (body_position p) d (coord (body_position p) d + delta)).

(** [updatePosition(direction, delta)]: mesh, body and block move together. *)
Definition updatePosition (b : Block) (d : Direction) (delta : float) : Block :=
  mkBlock (uid b)
          (set_coord (position b) d (coord (position b) d + delta))
          (width b) (depth b) (direction b)
          (option_map (fun m => shift_mesh m d delta) (mesh b))
          (option_map (fun p => shift_body p d delta) (physicsBody b))
          (isMoving b) (isFalling b).

(** [cut(overlap, originalSize, delta)].  With [direction === null] neither
    extent changes and the writes to [position[null]] touch no coordinate. *)
Definition cut (b : Block) (overlap originalSize delta : float) : Block :=
  match direction b with
  | None => b
  | Some d =>
      let newWidth := if Direction_eqb d DIRECTIONS.X then overlap else width b in
      let newDepth := if Direction_eqb d DIRECTIONS.Z then overlap else depth b in
      let cut_mesh (m : Mesh) :=
        mkMesh (mesh_geometry m) (mesh_hue m)
               (set_coord (mesh_position m) d (coord (mesh_position m) d - delta / 2))
               (set_coord (mesh_scale m) d (overlap / originalSize)) in
      let cut_body (p : Body) :=
        mkBody (body_mass p) (body_halfExtents p)
               (set_coord (body_position p) d (coord (body_position p) d - delta / 2)) in
      mkBlock (uid b)
              (set_coord (position b) d (coord (position b) d - delta / 2))
              newWidth newDepth (direction b)
              (option_map cut_mesh (mesh b))
              (option_map cut_body (physicsBody b))
              (isMoving b) (isFalling b)
  end.

(** [isOutOfBounds(bound = 10)]; with [direction === null] the coordinate is
    [undefined] and the comparison is false. *)
Definition isOutOfBounds (b : Block) : bool :=
  match direction b with
  | None => false
  | Some d => PrimFloat.ltb 10 (Math_abs (getPosition b d))
  end.

(** [startFalling()] *)
Definition startFalling (b : Block) : Block :=
  mkBlock (uid b) (position b) (width b) (depth b) (direction b)
          (mesh b) (physicsBody b) false true.

End BlockOps.
Import BlockOps.


(** *** Game logic ([game/game_logic.js]) *)

(** The fields of a [GameLogic] object, followed by the state of its
    collaborators: the bodies of the physics world, the meshes of the scene,
    the meshes whose geometry and material have been disposed, the height of
    the camera, the log of emitted events and the next free object identity. *)
Record GameLogic : Type := mkGameLogic {
  stack : list Block;
  overhangs : list Block;
  isAutopilot : bool;
  isGameEnded : bool;
  score : Z;
  robotPrecision : float;
  world_bodies : list nat;
  scene_meshes : list nat;
  disposed : list nat;
  camera_y : float;
  emitted : list Event;
  next_uid : nat
}.

Module Fields.

Definition set_stack (g : GameLogic) (s : list Block) : GameLogic :=
  mkGameLogic s (overhangs g) (isAutopilot g) (isGameEnded g) (score g)
              (robotPrecision g) (world_bodies g) (scene_meshes g) (disposed g)
              (camera_y g) (emitted g) (next_uid g).

Definition set_overhangs (g : GameLogic) (o : list Block) : GameLogic :=
  mkGameLogic (stack g) o (isAutopilot g) (isGameEnded g) (score g)
              (robotPrecision g) (world_bodies g) (scene_meshes g) (disposed g)
              (camera_y g) (emitted g) (next_uid g).

Definition set_isAutopilot (g : GameLogic) (a : bool) : GameLogic :=
  mkGameLogic (stack g) (overhangs g) a (isGameEnded g) (score g)
              (robotPrecision g) (world_bodies g) (scene_meshes g) (disposed g)
              (camera_y g) (emitted g) (next_uid g).

Definition set_isGameEnded (g : GameLogic) (e : bool) : GameLogic :=
  mkGameLogic (stack g) (overhangs g) (isAutopilot g) e (score g)
              (robotPrecision g) (world_bodies g) (scene_meshes g) (disposed g)
              (camera_y g) (emitted g) (next_uid g).

Definition set_score (g : GameLogic) (n : Z) : GameLogic :=
  mkGameLogic (stack g) (overhangs g) (isAutopilot g) (isGameEnded g) n
              (robotPrecision g) (world_bodies g) (scene_meshes g) (disposed g)
              (camera_y g) (emitted g) (next_uid g).

Definition set_robotPrecision (g : GameLogic) (p : float) : GameLogic :=
  mkGameLogic (stack g) (overhangs g) (isAutopilot g) (isGameEnded g) (score g)
              p (world_bodies g) (scene_meshes g) (disposed g)
              (camera_y g) (emitted g) (next_uid g).

Definition set_world_bodies (g : GameLogic) (w : list nat) : GameLogic :=
  mkGameLogic (stack g) (overhangs g) (isAutopilot g) (isGameEnded g) (score g)
              (robotPrecision g) w (scene_meshes g) (disposed g)
              (camera_y g) (emitted g) (next_uid g).

Definition set_scene_meshes (g : GameLogic) (m : list nat) : GameLogic :=
  mkGameLogic (stack g) (overhangs g) (isAutopilot g) (isGameEnded g) (score g)
              (robotPrecision g) (world_bodies g) m (disposed g)
              (camera_y g) (emitted g) (next_uid g).

Definition set_disposed (g : GameLogic) (d : list nat) : GameLogic :=
  mkGameLogic (stack g) (overhangs g) (isAutopilot g) (isGameEnded g) (score g)
              (robotPrecision g) (world_bodies g) (scene_meshes g) d
              (camera_y g) (emitted g) (next_uid g).

Definition set_camera_y (g : GameLogic) (y : float) : GameLogic :=
  mkGameLogic (stack g) (overhangs g) (isAutopilot g) (isGameEnded g) (score g)
              (robotPrecision g) (world_bodies g) (scene_meshes g) (disposed g)
              y (emitted g) (next_uid g).

Definition set_next_uid (g : GameLogic) (n : nat) : GameLogic :=
  mkGameLogic (stack g) (overhangs g) (isAutopilot g) (isGameEnded g) (score g)
              (robotPrecision g) (world_bodies g) (scene_meshes g) (disposed g)
              (camera_y g) (emitted g) n.

(** [gameEvents.emit(e)] *)
Definition emit (g : GameLogic) (e : Event) : GameLogic :=
  mkGameLogic (stack g) (overhangs g) (isAutopilot g) (isGameEnded g) (score g)
              (robotPrecision g) (world_bodies g) (scene_meshes g) (disposed g)
              (camera_y g) (emitted g ++ [e]) (next_uid g).

End Fields.
Import Fields.

(** *** Arrays *)

(** [a[i]]: [undefined] ([None]) out of range, also for a negative index. *)
Definition stack_at (a : list Block) (i : Z) : option Block :=
  if (i <? 0)%Z then None else nth_error a (Z.to_nat i).

(** [a[i] = b] for an index in range. *)
Fixpoint store_at (a : list Block) (i : nat) (b : Block) : list Block :=
  match a, i with
  | [], _ => []
  | _ :: t, O => b :: t
  | h :: t, S j => h :: store_at t j b
  end.

(** The mutated top block written back to [stack[stack.length - 1]]. *)
Definition store_top (g : GameLogic) (b : Block) : GameLogic :=
  set_stack g (store_at (stack g) (length (stack g) - 1) b).

(** *** Physics manager ([core/physics_manager.js]) *)

Module PhysicsManager.

(** [createBoxBody]: the new body joins the world under the identity [id]. *)
Definition createBoxBody (g : GameLogic) (id : nat)
           (x y z width height depth : float) (isDynamic : bool) : Body * GameLogic :=
  let shape := mkVec3 (width / 2) (height / 2) (depth / 2) in
  let mass :=
    if isDynamic
    then GAME_CONFIG.BOX_FALL_MASS
         * (width / GAME_CONFIG.ORIGINAL_BOX_SIZE)
         * (depth / GAME_CONFIG.ORIGINAL_BOX_SIZE)
    else 0 in
  (mkBody mass shape (mkVec3 x y z),
   set_world_bodies g (world_bodies g ++ [id])).

(** [removeBody(body)], for the body of block [b]. *)
Definition removeBody (g : GameLogic) (b : Block) : GameLogic :=
  match physicsBody b with
  | Some _ => set_world_bodies g (remove Nat.eq_dec (uid b) (world_bodies g))
  | None => g
  end.

(** [updateBodyShape(body, width, height, depth)] on the body of [b]. *)
Definition updateBodyShape (b : Block) (newWidth height newDepth : float) : Block :=
  match physicsBody b with
  | None => b
  | Some p =>
      mkBlock (uid b) (position b) (width b) (depth b) (direction b) (mesh b)
              (Some (mkBody (body_mass p)
                            (mkVec3 (newWidth / 2) (height / 2) (newDepth / 2))
                            (body_position p)))
              (isMoving b) (isFalling b)
  end.

(** [clearBodies()] *)
Definition clearBodies (g : GameLogic) : GameLogic :=
  set_world_bodies g [].

(** [step(deltaTime)]: the engine moves the bodies with mass, which are those
    of the overhangs; [engine] gives the position it computes for each. *)
Definition step (g : GameLogic) (engine : Block -> Vec3) : GameLogic :=
  let moved (b : Block) :=
    match physicsBody b with
    | None => b
    | Some p =>
        mkBlock (uid b) (position b) (width b) (depth b) (direction b) (mesh b)
                (Some (mkBody (body_mass p) (body_halfExtents p) (engine b)))
                (isMoving b) (isFalling b)
    end in
  set_overhangs g (map moved (overhangs g)).

End PhysicsManager.

(** *** Render manager ([core/render_manager.js]) *)

Module RenderManager.

(** [addToScene(mesh)], for the mesh with identity [id]. *)
Definition addToScene (g : GameLogic) (id : nat) : GameLogic :=
  set_scene_meshes g (scene_meshes g ++ [id]).

(** [removeFromScene(mesh)], for the mesh of block [b]. *)
Definition removeFromScene (g : GameLogic) (b : Block) : GameLogic :=
  match mesh b with
  | Some _ => set_scene_meshes g (remove Nat.eq_dec (uid b) (scene_meshes g))
  | None => g
  end.

(** [clearMeshes()]: every mesh leaves the scene and is disposed. *)
Definition clearMeshes (g : GameLogic) : GameLogic :=
  set_scene_meshes (set_disposed g (disposed g ++ scene_meshes g)) [].

(** [resetCamera()]: the camera returns to (4, 4, 4). *)
Definition resetCamera (g : GameLogic) : GameLogic :=
  set_camera_y g 4.

(** [updateCameraPosition(targetY, deltaTime)] *)
Definition updateCameraPosition (g : GameLogic) (targetY deltaTime : float) : GameLogic :=
  let currentY := camera_y g in
  let minY := targetY + 4 in
  if PrimFloat.ltb currentY minY
  then set_camera_y g (camera_y g + GAME_CONFIG.CAMERA_FOLLOW_SPEED * deltaTime)
  else g.

End RenderManager.

(** *** The methods of [GameLogic] *)

Module Logic.

(** [createBlock(x, y, z, width, depth, direction, isDynamic)] *)
Definition createBlock (g : GameLogic) (x y z width depth : float)
           (direction : option Direction) (isDynamic : bool) : Block * GameLogic :=
  let id := next_uid g in
  let g := set_next_uid g (S id) in
  let (physicsBody, g) :=
    PhysicsManager.createBoxBody g id x y z width GAME_CONFIG.BOX_HEIGHT depth isDynamic in
  let block := new_Block id x y z width depth direction (Some physicsBody) in
  let block := createMesh block (length (stack g)) in
  let g := RenderManager.addToScene g id in
  (block, g).

(** [addLayer(x, z, width, depth, direction = null)] *)
Definition addLayer (g : GameLogic) (x z width depth : float)
           (direction : option Direction) : GameLogic :=
  let y := GAME_CONFIG.BOX_HEIGHT * of_nat (length (stack g)) in
  let (block, g) := createBlock g x y z width depth direction false in
  let g := set_stack g (stack g ++ [block]) in
  emit g (LAYER_ADDED (uid block) (length (stack g))).

(** [addOverhang(x, z, width, depth)] *)
Definition addOverhang (g : GameLogic) (x z width depth : float) : GameLogic :=
  let y := GAME_CONFIG.BOX_HEIGHT * of_Z (Z.of_nat (length (stack g)) - 1) in
  let (overhang, g) := createBlock g x y z width depth None true in
  let overhang := startFalling overhang in
  set_overhangs g (overhangs g ++ [overhang]).

(** [setRobotPrecision()]; [random] is the value of [Math.random()]. *)
Definition setRobotPrecision (g : GameLogic) (random : float) : GameLogic :=
  set_robotPrecision g (random * GAME_CONFIG.ROBOT_PRECISION_RANGE - 0.5).

(** [dispose()] of a block releases the geometry and material of its mesh. *)
Definition dispose_block (g : GameLogic) (b : Block) : GameLogic :=
  match mesh b with
  | Some _ => set_disposed g (disposed g ++ [uid b])
  | None => g
  end.

(** [clearGame()] *)
Definition clearGame (g : GameLogic) : GameLogic :=
  let g := PhysicsManager.clearBodies g in
  let g := RenderManager.clearMeshes g in
  let g := fold_left dispose_block (stack g ++ overhangs g) g in
  let g := set_stack g [] in
  set_overhangs g [].

(** [new GameLogic(renderManager, physicsManager)] on freshly initialised
    managers: empty world, empty scene, camera at height 4. *)
Definition new_GameLogic (random : float) : GameLogic :=
  setRobotPrecision (mkGameLogic [] [] true false 0%Z 0 [] [] [] 4 [] 0) random.

(** [initialize()] *)
Definition initialize (g : GameLogic) : GameLogic :=
  let g := addLayer g 0 0 GAME_CONFIG.ORIGINAL_BOX_SIZE GAME_CONFIG.ORIGINAL_BOX_SIZE None in
  addLayer g (-10) 0 GAME_CONFIG.ORIGINAL_BOX_SIZE GAME_CONFIG.ORIGINAL_BOX_SIZE
           (Some DIRECTIONS.X).

(** [startGame()] *)
Definition startGame (g : GameLogic) : GameLogic :=
  let g := set_isAutopilot g false in
  let g := set_isGameEnded g false in
  let g := set_score g 0%Z in
  let g := set_stack g [] in
  let g := set_overhangs g [] in
  let g := clearGame g in
  let g := RenderManager.resetCamera g in
  let g := addLayer g 0 0 GAME_CONFIG.ORIGINAL_BOX_SIZE GAME_CONFIG.ORIGINAL_BOX_SIZE None in
  let g := addLayer g (-10) 0 GAME_CONFIG.ORIGINAL_BOX_SIZE GAME_CONFIG.ORIGINAL_BOX_SIZE
                    (Some DIRECTIONS.X) in
  let g := emit g GAME_START in
  emit g (SCORE_UPDATE (score g)).

(** [missBlock()].  On an empty stack [topLayer] is [undefined] and the first
    method call on it throws: [None]. *)
Definition missBlock (g : GameLogic) : option GameLogic :=
  match stack_at (stack g) (Z.of_nat (length (stack g)) - 1) with
  | None => None
  | Some topLayer =>
      let g := addOverhang g (getPosition topLayer DIRECTIONS.X)
                           (getPosition topLayer DIRECTIONS.Z)
                           (width topLayer) (depth topLayer) in
      let g := PhysicsManager.removeBody g topLayer in
      let g := RenderManager.removeFromScene g topLayer in
      let g := set_stack g (removelast (stack g)) in
      let g := set_isGameEnded g true in
      Some (if negb (isAutopilot g) then emit g GAME_OVER else g)
  end.

(** [cutAndContinue(topLayer, overlap, size, delta, overhangSize, direction)];
    [topLayer] is the block at the top of the stack. *)
Definition cutAndContinue (g : GameLogic) (topLayer : Block)
           (overlap size delta overhangSize : float) (direction : Direction) : GameLogic :=
  let topLayer := cut topLayer overlap size delta in
  let topLayer :=
    PhysicsManager.updateBodyShape topLayer (width topLayer) GAME_CONFIG.BOX_HEIGHT
                                   (depth topLayer) in
  let g := store_top g topLayer in
  let overhangShift := (overlap / 2 + overhangSize / 2) * Math_sign delta in
  let overhangX :=
    if Direction_eqb direction DIRECTIONS.X
    then getPosition topLayer DIRECTIONS.X + overhangShift
    else getPosition topLayer DIRECTIONS.X in
  let overhangZ :=
    if Direction_eqb direction DIRECTIONS.Z
    then getPosition topLayer DIRECTIONS.Z + overhangShift
    else getPosition topLayer DIRECTIONS.Z in
  let overhangWidth :=
    if Direction_eqb direction DIRECTIONS.X then overhangSize else width topLayer in
  let overhangDepth :=
    if Direction_eqb direction DIRECTIONS.Z then overhangSize else depth topLayer in
  let g := addOverhang g overhangX overhangZ overhangWidth overhangDepth in
  let nextX :=
    if Direction_eqb direction DIRECTIONS.X then getPosition topLayer DIRECTIONS.X else -10 in
  let nextZ :=
    if Direction_eqb direction DIRECTIONS.Z then getPosition topLayer DIRECTIONS.Z else -10 in
  let nextDirection :=
    if Direction_eqb direction DIRECTIONS.X then DIRECTIONS.Z else DIRECTIONS.X in
  let g := set_score g (Z.of_nat (length (stack g)) - 1)%Z in
  let g := emit g (SCORE_UPDATE (score g)) in
  addLayer g nextX nextZ (width topLayer) (depth topLayer) (Some nextDirection).

(** [splitBlockAndAddNext()].  When the top layer has [direction === null],
    [getPosition(null)] is [undefined], [delta] and [overlap] are NaN and
    [overlap > 0] is false: the miss branch. *)
Definition splitBlockAndAddNext (g : GameLogic) : option GameLogic :=
  if isGameEnded g || (length (stack g) <? 2)%nat then Some g
  else
    let n := Z.of_nat (length (stack g)) in
    match stack_at (stack g) (n - 1), stack_at (stack g) (n - 2) with
    | Some topLayer, Some previousLayer =>
        match direction topLayer with
        | None => missBlock g
        | Some direction =>
            let size := getSize topLayer (Some direction) in
            let delta := getPosition topLayer direction
                         - getPosition previousLayer direction in
            let overhangSize := Math_abs delta in
            let overlap := size - overhangSize in
            if PrimFloat.ltb 0 overlap
            then Some (cutAndContinue g topLayer overlap size delta overhangSize direction)
            else missBlock g
        end
    | _, _ => None
    end.

(** [handleBlockPlacement()] *)
Definition handleBlockPlacement (g : GameLogic) : option GameLogic :=
  if isAutopilot g then Some (startGame g) else splitBlockAndAddNext g.

(** [shouldBlockMove(topLayer, previousLayer)]; with [direction === null] the
    autopilot comparison is on [undefined] and is false. *)
Definition shouldBlockMove (g : GameLogic) (topLayer previousLayer : Block) : bool :=
  if isGameEnded g then false
  else if negb (isAutopilot g) then true
  else
    match direction topLayer with
    | None => false
    | Some d =>
        let currentPos := getPosition topLayer d in
        let targetPos := getPosition previousLayer d + robotPrecision g in
        PrimFloat.ltb currentPos targetPos
    end.

(** [moveBlock(block, deltaTime)]; with [direction === null] the write goes to
    [position[null]] and no coordinate changes. *)
Definition moveBlock (block : Block) (deltaTime : float) : Block :=
  let speed := GAME_CONFIG.MOVEMENT_SPEED in
  let delta := speed * deltaTime in
  match direction block with
  | None => block
  | Some d => updatePosition block d delta
  end.

(** [updateOverhangs()] *)
Definition updateOverhangs (g : GameLogic) : GameLogic :=
  set_overhangs g (map updateFromPhysics (overhangs g)).

(** [update(deltaTime)]; [random] is the value [Math.random()] returns if
    [setRobotPrecision] is reached. *)
Definition update (g : GameLogic) (deltaTime random : float) : option GameLogic :=
  if (length (stack g) <? 2)%nat then Some g
  else
    let n := Z.of_nat (length (stack g)) in
    match stack_at (stack g) (n - 1), stack_at (stack g) (n - 2) with
    | Some topLayer, Some previousLayer =>
        let targetCameraY := GAME_CONFIG.BOX_HEIGHT * of_Z (n - 2) in
        let g := RenderManager.updateCameraPosition g targetCameraY deltaTime in
        let shouldMove := shouldBlockMove g topLayer previousLayer in
        let moved :=
          if shouldMove then
            let topLayer := moveBlock topLayer deltaTime in
            let g := store_top g topLayer in
            if isOutOfBounds topLayer then missBlock g else Some g
          else if isAutopilot g then
            match splitBlockAndAddNext g with
            | Some g => Some (setRobotPrecision g random)
            | None => None
            end
          else Some g in
        match moved with
        | Some g => Some (updateOverhangs g)
        | None => None
        end
    | _, _ => None
    end.

End Logic.
Import Logic.

(** A fresh game as the page builds it: constructor, then [initialize()]. *)
Definition fresh (random : float) : GameLogic := initialize (new_GameLogic random).

(** *** The geometry of a placement

    The quantities [splitBlockAndAddNext] computes from the top layer, the
    layer below it and the axis [d] of the top layer. *)

Module Geometry.

Definition size (topLayer : Block) (d : Direction) : float :=
  getSize topLayer (Some d).

Definition delta (topLayer previousLayer : Block) (d : Direction) : float :=
  getPosition topLayer d - getPosition previousLayer d.

Definition overhangSize (topLayer previousLayer : Block) (d : Direction) : float :=
  Math_abs (delta topLayer previousLayer d).

Definition overlap (topLayer previousLayer : Block) (d : Direction) : float :=
  size topLayer d - overhangSize topLayer previousLayer d.

(** The axis that follows [d]. *)
Definition opposite (d : Direction) : Direction :=
  match d with
  | DIRECTIONS.X => DIRECTIONS.Z
  | DIRECTIONS.Z => DIRECTIONS.X
  end.

End Geometry.

(** The block that stays in the stack after a cut: [topLayer] once [cut] and
    [updateBodyShape] have mutated it. *)
Definition keptLayer (topLayer : Block) (overlap size delta : float) : Block :=
  let c := cut topLayer overlap size delta in
  PhysicsManager.updateBodyShape c (width c) GAME_CONFIG.BOX_HEIGHT (depth c).

(** *** Entry points *)

Inductive Op : Type :=
| OpStartGame
| OpHandleBlockPlacement
| OpUpdate (deltaTime random : float)
| OpPhysicsStep (engine : Block -> Vec3).

Definition step (g : GameLogic) (op : Op) : option GameLogic :=
  match op with
  | OpStartGame => Some (startGame g)
  | OpHandleBlockPlacement => handleBlockPlacement g
  | OpUpdate deltaTime random => update g deltaTime random
  | OpPhysicsStep engine => Some (PhysicsManager.step g engine)
  end.

Fixpoint run (g : GameLogic) (ops : list Op) : option GameLogic :=
  match ops with
  | [] => Some g
  | op :: ops =>
      match step g op with
      | Some g' => run g' ops
      | None => None
      end
  end.

(** The result of a call that returns. *)
Definition force (g : GameLogic) (r : option GameLogic) : GameLogic :=
  match r with
  | Some g' => g'
  | None => g
  end.

(** [n] animation frames of [deltaTime] milliseconds each. *)
Definition frames (n : nat) (deltaTime : float) : list Op :=
  repeat (OpUpdate deltaTime 0) n.

(** *** A game in doubles

    A tap starts the game; 52 frames of 20 ms and a tap place the first
    layer, 52 more frames and a tap the second; 56 frames later the third
    layer slides over the second one. *)
Definition session : list Op :=
  [OpStartGame]
    ++ frames 52 20 ++ [OpHandleBlockPlacement]
    ++ frames 52 20 ++ [OpHandleBlockPlacement]
    ++ frames 56 20.

Definition third_layer : GameLogic :=
  Eval vm_compute in force (fresh 0.5) (run (fresh 0.5) session).
Definition third_layer_base : list Block :=
  Eval vm_compute in firstn 2 (stack third_layer).
Definition third_layer_previous : Block :=
  Eval vm_compute in nth 2 (stack third_layer) (new_Block 0 0 0 0 0 0 None None).
Definition third_layer_top : Block :=
  Eval vm_compute in nth 3 (stack third_layer) (new_Block 0 0 0 0 0 0 None None).

(** The tap then. *)
Definition third_placed : GameLogic :=
  Eval vm_compute in force third_layer (handleBlockPlacement third_layer).

(** Another game: 51 frames of 20 ms after the start, the first layer is
    over the base. *)
Definition first_layer : GameLogic :=
  Eval vm_compute in
    force (fresh 0.5) (run (fresh 0.5) ([OpStartGame] ++ frames 51 20)).
Definition first_layer_base : Block :=
  Eval vm_compute in nth 0 (stack first_layer) (new_Block 0 0 0 0 0 0 None None).
Definition first_layer_top : Block :=
  Eval vm_compute in nth 1 (stack first_layer) (new_Block 0 0 0 0 0 0 None None).

End Ieee.
(** * Properties *)

(** ** Numbers *)

Module JsNumberFacts.

Lemma Qltb_lt (a b : Q) : Qltb a b = true <-> a < b.
Proof. unfold Qltb, Qlt. apply Z.ltb_lt. Qed.

Lemma Qltb_ge (a b : Q) : Qltb a b = false <-> b <= a.
Proof. unfold Qltb, Qle. apply Z.ltb_ge. Qed.

Lemma Math_sign_pos (x : Q) : 0 < x -> Math_sign x = 1.
Proof.
  intro H. unfold Math_sign.
  apply Qltb_lt in H. now rewrite H.
Qed.

Lemma Math_sign_neg (x : Q) : x < 0 -> Math_sign x = -1.
Proof.
  intro H. unfold Math_sign.
  assert (Qltb 0 x = false) as -> by (apply Qltb_ge; lra).
  apply Qltb_lt in H. now rewrite H.
Qed.

Lemma Math_sign_zero (x : Q) : x == 0 -> Math_sign x = 0.
Proof.
  intro H. unfold Math_sign.
  assert (Qltb 0 x = false) as -> by (apply Qltb_ge; lra).
  assert (Qltb x 0 = false) as -> by (apply Qltb_ge; lra).
  reflexivity.
Qed.

(** [sign x * |x|] gives [x] back. *)
Lemma Math_sign_abs (x : Q) : Math_sign x * Math_abs x == x.
Proof.
  unfold Math_abs.
  destruct (Qlt_le_dec 0 x) as [Hp | Hn].
  - rewrite (Math_sign_pos _ Hp), Qabs_pos; lra.
  - destruct (Qlt_le_dec x 0) as [Hlt | Hge].
    + rewrite (Math_sign_neg _ Hlt), Qabs_neg; lra.
    + assert (x == 0) as H0 by lra.
      rewrite (Math_sign_zero _ H0), Qabs_pos; lra.
Qed.

End JsNumberFacts.
Import JsNumberFacts.

(** ** Arrays: the two topmost entries *)

Section Arrays.

Variables (base : list Block) (p t : Block).

Lemma length_two_top : length (base ++ [p; t]) = S (S (length base)).
Proof. rewrite length_app. simpl. lia. Qed.

Lemma stack_at_top :
  stack_at (base ++ [p; t]) (Z.of_nat (length (base ++ [p; t])) - 1) = Some t.
Proof.
  unfold stack_at. rewrite length_two_top.
  destruct (Z.ltb_spec (Z.of_nat (S (S (length base))) - 1) 0); [lia |].
  replace (Z.to_nat (Z.of_nat (S (S (length base))) - 1)) with (length base + 1)%nat by lia.
  rewrite nth_error_app2 by lia.
  replace (length base + 1 - length base)%nat with 1%nat by lia.
  reflexivity.
Qed.

Lemma stack_at_previous :
  stack_at (base ++ [p; t]) (Z.of_nat (length (base ++ [p; t])) - 2) = Some p.
Proof.
  unfold stack_at. rewrite length_two_top.
  destruct (Z.ltb_spec (Z.of_nat (S (S (length base))) - 2) 0); [lia |].
  replace (Z.to_nat (Z.of_nat (S (S (length base))) - 2)) with (length base + 0)%nat by lia.
  rewrite nth_error_app2 by lia.
  replace (length base + 0 - length base)%nat with 0%nat by lia.
  reflexivity.
Qed.

Lemma store_at_app (l : list Block) (b : Block) :
  store_at (l ++ [t]) (length l) b = l ++ [b].
Proof. induction l as [| h l IH]; simpl; [reflexivity | now rewrite IH]. Qed.

Lemma store_at_top (b : Block) :
  store_at (base ++ [p; t]) (length (base ++ [p; t]) - 1) b = base ++ [p; b].
Proof.
  rewrite length_two_top.
  replace (S (S (length base)) - 1)%nat with (length (base ++ [p])) by (rewrite length_app; simpl; lia).
  change (base ++ [p; t]) with (base ++ [p] ++ [t]). rewrite app_assoc.
  rewrite store_at_app. now rewrite <- app_assoc.
Qed.

End Arrays.

Lemma two_top_inv (l : list Block) :
  (2 <= length l)%nat -> exists base p t, l = base ++ [p; t].
Proof.
  intro H.
  destruct (exists_last (l := l)) as [l1 [t ->]]; [intros ->; simpl in H; lia |].
  rewrite length_app in H. simpl in H.
  destruct (exists_last (l := l1)) as [l0 [p ->]]; [intros ->; simpl in H; lia |].
  exists l0, p, t. now rewrite <- app_assoc.
Qed.

(** ** One placement on a running game

    The stack is [base ++ [previousLayer; topLayer]], the game has not ended
    and the top layer slides along [d]. *)

Section Placement.

Variables (g : GameLogic) (base : list Block) (previousLayer topLayer : Block)
          (d : Direction).
Hypothesis Hstack : stack g = base ++ [previousLayer; topLayer].
Hypothesis Hplaying : isGameEnded g = false.
Hypothesis Hdir : direction topLayer = Some d.

Let size := Geometry.size topLayer d.
Let delta := Geometry.delta topLayer previousLayer d.
Let overhangSize := Geometry.overhangSize topLayer previousLayer d.
Let overlap := Geometry.overlap topLayer previousLayer d.

(** The branch taken when the layers overlap. *)
Lemma split_cut :
  0 < overlap ->
  splitBlockAndAddNext g
  = Some (cutAndContinue g topLayer overlap size delta overhangSize d).
Proof.
  intro Hpos. unfold splitBlockAndAddNext.
  rewrite Hplaying, Hstack, stack_at_top, stack_at_previous, Hdir, length_two_top.
  simpl orb. cbv iota.
  apply Qltb_lt in Hpos. unfold overlap, Geometry.overlap, Geometry.size,
    Geometry.overhangSize, Geometry.delta in Hpos.
  rewrite Hpos. reflexivity.
Qed.

(** The branch taken when they do not. *)
Lemma split_miss :
  overlap <= 0 -> splitBlockAndAddNext g = missBlock g.
Proof.
  intro Hneg. unfold splitBlockAndAddNext.
  rewrite Hplaying, Hstack, stack_at_top, stack_at_previous, Hdir, length_two_top.
  simpl orb. cbv iota.
  apply Qltb_ge in Hneg. unfold overlap, Geometry.overlap, Geometry.size,
    Geometry.overhangSize, Geometry.delta in Hneg.
  rewrite Hneg. reflexivity.
Qed.

End Placement.

(** ** What the primitives leave alone *)

Module Frame.

Lemma uid_cut (b : Block) (overlap size delta : Q) :
  uid (cut b overlap size delta) = uid b.
Proof. unfold cut. now destruct (direction b). Qed.

Lemma direction_cut (b : Block) (overlap size delta : Q) :
  direction (cut b overlap size delta) = direction b.
Proof. unfold cut. destruct (direction b) eqn:E; [reflexivity | exact E]. Qed.

Lemma uid_updateBodyShape (b : Block) (w h dp : Q) :
  uid (PhysicsManager.updateBodyShape b w h dp) = uid b.
Proof. unfold PhysicsManager.updateBodyShape. now destruct (physicsBody b). Qed.

Lemma direction_updateBodyShape (b : Block) (w h dp : Q) :
  direction (PhysicsManager.updateBodyShape b w h dp) = direction b.
Proof. unfold PhysicsManager.updateBodyShape. now destruct (physicsBody b). Qed.

Lemma position_updateBodyShape (b : Block) (w h dp : Q) :
  position (PhysicsManager.updateBodyShape b w h dp) = position b.
Proof. unfold PhysicsManager.updateBodyShape. now destruct (physicsBody b). Qed.

Lemma width_updateBodyShape (b : Block) (w h dp : Q) :
  width (PhysicsManager.updateBodyShape b w h dp) = width b.
Proof. unfold PhysicsManager.updateBodyShape. now destruct (physicsBody b). Qed.

Lemma depth_updateBodyShape (b : Block) (w h dp : Q) :
  depth (PhysicsManager.updateBodyShape b w h dp) = depth b.
Proof. unfold PhysicsManager.updateBodyShape. now destruct (physicsBody b). Qed.

Lemma uid_moveBlock (b : Block) (deltaTime : Q) : uid (moveBlock b deltaTime) = uid b.
Proof. unfold moveBlock. now destruct (direction b). Qed.

Lemma direction_moveBlock (b : Block) (deltaTime : Q) :
  direction (moveBlock b deltaTime) = direction b.
Proof. unfold moveBlock, updatePosition. destruct (direction b) eqn:E; [reflexivity | exact E]. Qed.

Lemma uid_updateFromPhysics (b : Block) : uid (updateFromPhysics b) = uid b.
Proof. unfold updateFromPhysics. now destruct (physicsBody b), (mesh b). Qed.

Lemma length_store_at (a : list Block) (i : nat) (b : Block) :
  length (store_at a i b) = length a.
Proof.
  revert i. induction a as [| h a IH]; intros [| i]; simpl; auto.
Qed.

End Frame.

(** ** The block a cut leaves in the stack *)

Section KeptLayer.

Variables (topLayer : Block) (d : Direction) (overlap size delta : Q).
Hypothesis Hdir : direction topLayer = Some d.

Lemma uid_keptLayer : uid (keptLayer topLayer overlap size delta) = uid topLayer.
Proof. unfold keptLayer. cbv zeta. now rewrite Frame.uid_updateBodyShape, Frame.uid_cut. Qed.

Lemma direction_keptLayer :
  direction (keptLayer topLayer overlap size delta) = direction topLayer.
Proof.
  unfold keptLayer. cbv zeta.
  now rewrite Frame.direction_updateBodyShape, Frame.direction_cut.
Qed.

(** Along the cut axis the kept block has extent [overlap]... *)
Lemma getSize_keptLayer :
  getSize (keptLayer topLayer overlap size delta) (Some d) = overlap.
Proof.
  unfold keptLayer, getSize. cbv zeta.
  rewrite Frame.width_updateBodyShape, Frame.depth_updateBodyShape.
  unfold cut. rewrite Hdir. now destruct d.
Qed.

(** Its centre moves by [- delta / 2] along the cut axis... *)
Lemma getPosition_keptLayer :
  getPosition (keptLayer topLayer overlap size delta) d
  = getPosition topLayer d - delta / 2.
Proof.
  unfold keptLayer, getPosition. cbv zeta.
  rewrite Frame.position_updateBodyShape.
  unfold cut. rewrite Hdir. now destruct d.
Qed.

End KeptLayer.

(** ** The two branches of a placement, field by field *)


Section Effects.

Variables (g : GameLogic) (base : list Block) (p t : Block).
Hypothesis Hstack : stack g = base ++ [p; t].

Lemma cutAndContinue_effect (d : Direction) (overlap size delta overhangSize : Q) :
  direction t = Some d ->
  exists overhang next,
    cut_effect g (cutAndContinue g t overlap size delta overhangSize d)
               base p t d overlap size delta overhangSize overhang next.
Proof.
  intro Hdir.
  eexists. eexists. constructor.
  - assert (E : forall nx,
               base ++ [p; keptLayer t overlap size delta; nx]
               = store_at (stack g) (length (stack g) - 1)
                          (keptLayer t overlap size delta) ++ [nx]).
    { intro nx. rewrite Hstack, store_at_top, <- app_assoc. reflexivity. }
    rewrite E. reflexivity.
  - reflexivity.
  - reflexivity.
  - destruct d; reflexivity.
  - destruct d; reflexivity.
  - unfold cutAndContinue, addOverhang, store_top. cbn [stack set_stack].
    rewrite Frame.length_store_at. reflexivity.
  - destruct d; reflexivity.
  - destruct d; reflexivity.
  - reflexivity.
  - reflexivity.
  - reflexivity.
  - destruct d; reflexivity.
  - destruct d; reflexivity.
  - unfold cutAndContinue, addOverhang, addLayer, createBlock, store_top.
    cbn -[store_at Qmult inject_Z Z.of_nat].
    rewrite Frame.length_store_at. reflexivity.
  - reflexivity.
  - reflexivity.
  - destruct d; reflexivity.
  - unfold cutAndContinue, addOverhang, addLayer, createBlock, store_top.
    cbn -[store_at Z.sub Z.of_nat].
    rewrite Frame.length_store_at. reflexivity.
  - reflexivity.
  - reflexivity.
  - unfold cutAndContinue. cbn. rewrite <- app_assoc. reflexivity.
  - unfold cutAndContinue. cbn. rewrite <- app_assoc. reflexivity.
  - reflexivity.
  - reflexivity.
  - unfold cutAndContinue, addOverhang, addLayer, createBlock, store_top.
    cbn -[store_at Z.sub Z.of_nat].
    rewrite length_app, Frame.length_store_at, <- app_assoc.
    simpl. replace (length (stack g) + 1)%nat with (S (length (stack g))) by lia.
    reflexivity.
Qed.

End Effects.

Lemma stack_at_last (init : list Block) (t : Block) :
  stack_at (init ++ [t]) (Z.of_nat (length (init ++ [t])) - 1) = Some t.
Proof.
  unfold stack_at. rewrite length_app. simpl length.
  destruct (Z.ltb_spec (Z.of_nat (length init + 1) - 1) 0); [lia |].
  replace (Z.to_nat (Z.of_nat (length init + 1) - 1)) with (length init + 0)%nat by lia.
  rewrite nth_error_app2 by lia.
  replace (length init + 0 - length init)%nat with 0%nat by lia.
  reflexivity.
Qed.

Lemma missBlock_effect (g : GameLogic) (init : list Block) (t : Block) :
  stack g = init ++ [t] ->
  exists g' overhang, missBlock g = Some g' /\ miss_effect g g' init t overhang.
Proof.
  intro Hstack.
  assert (Htop : stack_at (stack g) (Z.of_nat (length (stack g)) - 1) = Some t)
    by (rewrite Hstack; apply stack_at_last).
  assert (Hpop : removelast (stack g) = init)
    by (rewrite Hstack; apply removelast_last).
  unfold missBlock. rewrite Htop.
  unfold PhysicsManager.removeBody, RenderManager.removeFromScene.
  destruct (physicsBody t) eqn:Eb, (mesh t) eqn:Em;
    cbn [isAutopilot set_isGameEnded set_stack set_scene_meshes set_world_bodies
         addOverhang createBlock PhysicsManager.createBoxBody
         RenderManager.addToScene set_overhangs set_next_uid];
    destruct (isAutopilot g) eqn:Ea; cbn [negb];
    (eexists; eexists; split; [reflexivity |]);
    (constructor; try reflexivity; try exact Hpop; try exact Ea;
     try (rewrite ?Eb, ?Em; reflexivity);
     try (cbn [emitted emit set_isGameEnded]; rewrite ?Ea, ?app_nil_r; reflexivity)).
Qed.

(** The guard of [splitBlockAndAddNext]. *)
Lemma split_skips (g : GameLogic) :
  isGameEnded g = true \/ (length (stack g) < 2)%nat ->
  splitBlockAndAddNext g = Some g.
Proof.
  intros [Hended | Hshort]; unfold splitBlockAndAddNext.
  - now rewrite Hended.
  - apply Nat.ltb_lt in Hshort. rewrite Hshort. now rewrite orb_true_r.
Qed.

Lemma startGame_effect (g : GameLogic) :
  exists base top, start_effect g (startGame g) base top.
Proof.
  eexists. eexists. constructor.
  1: cbv; reflexivity.
  all: try (cbv; reflexivity).
  cbv -[app]. rewrite <- !app_assoc. reflexivity.
Qed.

(** ** The claims about one placement *)

(** C1, as the code has it.  When the layers overlap, the placement leaves
    the top block in the stack with the extent [overlap] along the cut axis,
    the number the code has computed as [size - overhangSize], and adds an
    overhang of extent [overhangSize], the absolute value of the offset of
    the two layers, along that axis.  The extent kept is positive and not
    larger than the extent the block had before the cut. *)
Theorem cut_sets_extents
        (g : GameLogic) (base : list Block) (previousLayer topLayer : Block)
        (d : Direction) :
  stack g = base ++ [previousLayer; topLayer] ->
  isGameEnded g = false ->
  direction topLayer = Some d ->
  0 < Geometry.overlap topLayer previousLayer d ->
  exists g' kept overhang next,
    splitBlockAndAddNext g = Some g'
    /\ stack g' = base ++ [previousLayer; kept; next]
    /\ overhangs g' = overhangs g ++ [overhang]
    /\ uid kept = uid topLayer
    /\ getSize kept (Some d) = Geometry.overlap topLayer previousLayer d
    /\ getSize kept (Some d)
       = getSize topLayer (Some d)
         - Math_abs (getPosition topLayer d - getPosition previousLayer d)
    /\ getSize overhang (Some d) = Geometry.overhangSize topLayer previousLayer d
    /\ getSize overhang (Some d)
       = Math_abs (getPosition topLayer d - getPosition previousLayer d)
    /\ 0 < getSize kept (Some d)
    /\ getSize kept (Some d) <= getSize topLayer (Some d)
    /\ 0 <= getSize overhang (Some d).
Proof.
  intros Hstack Hplaying Hdir Hpos.
  set (ov := Geometry.overlap topLayer previousLayer d) in *.
  set (os := Geometry.overhangSize topLayer previousLayer d).
  set (sz := Geometry.size topLayer d).
  set (dl := Geometry.delta topLayer previousLayer d).
  destruct (cutAndContinue_effect g base previousLayer topLayer Hstack d ov sz dl os Hdir)
    as (overhang & next & E).
  exists (cutAndContinue g topLayer ov sz dl os d),
         (keptLayer topLayer ov sz dl), overhang, next.
  split; [exact (split_cut g base previousLayer topLayer d Hstack Hplaying Hdir Hpos) |].
  split; [exact (ce_stack E) |].
  split; [exact (ce_overhangs E) |].
  split; [exact (uid_keptLayer topLayer ov sz dl) |].
  rewrite (getSize_keptLayer topLayer d ov sz dl Hdir), (ce_overhang_size E).
  assert (Hos : 0 <= os) by apply Qabs_nonneg.
  split; [reflexivity |]. split; [reflexivity |].
  split; [reflexivity |]. split; [reflexivity |].
  split; [exact Hpos |].
  split; [| exact Hos].
  unfold ov, Geometry.overlap, Geometry.size. fold os. lra.
Qed.

Lemma cut_sets_extents_witness :
  stack Scenario.offset_one = [] ++ [Scenario.offset_one_base; Scenario.offset_one_top]
  /\ isGameEnded Scenario.offset_one = false
  /\ direction Scenario.offset_one_top = Some DIRECTIONS.X
  /\ 0 < Geometry.overlap Scenario.offset_one_top Scenario.offset_one_base DIRECTIONS.X
  /\ exists g' kept overhang next,
       splitBlockAndAddNext Scenario.offset_one = Some g'
       /\ stack g' = [] ++ [Scenario.offset_one_base; kept; next]
       /\ overhangs g' = overhangs Scenario.offset_one ++ [overhang]
       /\ getSize kept (Some DIRECTIONS.X)
          = Geometry.overlap Scenario.offset_one_top Scenario.offset_one_base DIRECTIONS.X
       /\ getSize overhang (Some DIRECTIONS.X)
          = Geometry.overhangSize Scenario.offset_one_top Scenario.offset_one_base
                                  DIRECTIONS.X.
Proof.
  assert (H1 : stack Scenario.offset_one
               = [] ++ [Scenario.offset_one_base; Scenario.offset_one_top])
    by reflexivity.
  assert (H2 : isGameEnded Scenario.offset_one = false) by reflexivity.
  assert (H3 : direction Scenario.offset_one_top = Some DIRECTIONS.X) by reflexivity.
  assert (H4 : 0 < Geometry.overlap Scenario.offset_one_top Scenario.offset_one_base
                                    DIRECTIONS.X) by reflexivity.
  repeat split; try assumption.
  destruct (cut_sets_extents _ [] _ _ _ H1 H2 H3 H4)
    as (g' & kept & overhang & next & Hs & Hst & Ho & _ & Hk & _ & Hov & _).
  exists g', kept, overhang, next. repeat split; assumption.
Defined.

Section Doubles.

Import PrimFloat.
Local Open Scope float_scope.

(** C1, as stated, fails in the arithmetic of the code.  In the game
    [Ieee.session], played in doubles, the third layer has the extent
    1.3200000000000067 along 'x' and is 0.19999999999999696 off the layer
    below it.  The placement keeps 1.1200000000000099 and sheds
    0.19999999999999696: the two add up to 1.320000000000007, which is not
    the extent the block had before the cut. *)
Lemma extents_do_not_add_up_in_doubles :
  Ieee.run (Ieee.fresh 0.5) Ieee.session = Some Ieee.third_layer
  /\ Ieee.stack Ieee.third_layer
     = Ieee.third_layer_base ++ [Ieee.third_layer_previous; Ieee.third_layer_top]
  /\ Ieee.isGameEnded Ieee.third_layer = false
  /\ Ieee.direction Ieee.third_layer_top = Some DIRECTIONS.X
  /\ Ieee.Geometry.size Ieee.third_layer_top DIRECTIONS.X = 1.3200000000000067
  /\ Ieee.Geometry.overhangSize Ieee.third_layer_top Ieee.third_layer_previous
                                DIRECTIONS.X
     = 0.19999999999999696
  /\ Ieee.Geometry.overlap Ieee.third_layer_top Ieee.third_layer_previous DIRECTIONS.X
     = 1.1200000000000099
  /\ (0 <? Ieee.Geometry.overlap Ieee.third_layer_top Ieee.third_layer_previous
                                 DIRECTIONS.X) = true
  /\ exists g' kept overhang next,
       Ieee.Logic.splitBlockAndAddNext Ieee.third_layer = Some g'
       /\ Ieee.stack g'
          = Ieee.third_layer_base ++ [Ieee.third_layer_previous; kept; next]
       /\ Ieee.overhangs g' = Ieee.overhangs Ieee.third_layer ++ [overhang]
       /\ Ieee.uid kept = Ieee.uid Ieee.third_layer_top
       /\ Ieee.BlockOps.getSize kept (Some DIRECTIONS.X) = 1.1200000000000099
       /\ Ieee.BlockOps.getSize overhang (Some DIRECTIONS.X) = 0.19999999999999696
       /\ Ieee.BlockOps.getSize kept (Some DIRECTIONS.X)
          + Ieee.BlockOps.getSize overhang (Some DIRECTIONS.X)
          = 1.320000000000007
       /\ (Ieee.BlockOps.getSize kept (Some DIRECTIONS.X)
           + Ieee.BlockOps.getSize overhang (Some DIRECTIONS.X)
           =? Ieee.Geometry.size Ieee.third_layer_top DIRECTIONS.X) = false.
Proof.
  split; [vm_compute; reflexivity |].
  do 7 (split; [vm_compute; reflexivity |]).
  eexists. eexists. eexists. eexists.
  split; [vm_compute; reflexivity |].
  split; [vm_compute; reflexivity |].
  split; [vm_compute; reflexivity |].
  repeat split; vm_compute; reflexivity.
Qed.

End Doubles.

(** C2. A placement is a miss exactly when [overlap <= 0]: then [missBlock]
    runs, the game ends and the top block leaves the stack (also when
    [overlap] is exactly 0); when [0 < overlap] the cut runs, the game goes
    on and the top block stays with a positive extent along the cut axis. *)
Theorem miss_iff_overlap_nonpositive
        (g : GameLogic) (base : list Block) (previousLayer topLayer : Block)
        (d : Direction) :
  stack g = base ++ [previousLayer; topLayer] ->
  isGameEnded g = false ->
  direction topLayer = Some d ->
  exists g',
    splitBlockAndAddNext g = Some g'
    /\ (isGameEnded g' = true <-> Geometry.overlap topLayer previousLayer d <= 0)
    /\ (Geometry.overlap topLayer previousLayer d <= 0 ->
        missBlock g = Some g' /\ stack g' = base ++ [previousLayer])
    /\ (0 < Geometry.overlap topLayer previousLayer d ->
        g' = cutAndContinue g topLayer
                            (Geometry.overlap topLayer previousLayer d)
                            (Geometry.size topLayer d)
                            (Geometry.delta topLayer previousLayer d)
                            (Geometry.overhangSize topLayer previousLayer d) d
        /\ exists kept next,
             stack g' = base ++ [previousLayer; kept; next]
             /\ uid kept = uid topLayer
             /\ 0 < getSize kept (Some d)).
Proof.
  intros Hstack Hplaying Hdir.
  set (ov := Geometry.overlap topLayer previousLayer d).
  set (os := Geometry.overhangSize topLayer previousLayer d).
  set (sz := Geometry.size topLayer d).
  set (dl := Geometry.delta topLayer previousLayer d).
  destruct (Qlt_le_dec 0 ov) as [Hpos | Hneg].
  - destruct (cutAndContinue_effect g base previousLayer topLayer Hstack d ov sz dl os Hdir)
      as (overhang & next & E).
    exists (cutAndContinue g topLayer ov sz dl os d).
    split; [exact (split_cut g base previousLayer topLayer d Hstack Hplaying Hdir Hpos) |].
    split; [| split].
    + rewrite (ce_isGameEnded E), Hplaying. split; [discriminate | intro; lra].
    + intro; lra.
    + intros _. split; [reflexivity |].
      exists (keptLayer topLayer ov sz dl), next.
      split; [exact (ce_stack E) |].
      split; [exact (uid_keptLayer topLayer ov sz dl) |].
      now rewrite (getSize_keptLayer topLayer d ov sz dl Hdir).
  - assert (Hstack' : stack g = (base ++ [previousLayer]) ++ [topLayer])
      by (now rewrite <- app_assoc).
    destruct (missBlock_effect g _ topLayer Hstack') as (g' & overhang & Hm & E).
    exists g'.
    split; [rewrite <- Hm;
            exact (split_miss g base previousLayer topLayer d Hstack Hplaying Hdir Hneg) |].
    split; [| split].
    + split; [intros _; exact Hneg | intros _; exact (me_isGameEnded E)].
    + intros _. split; [exact Hm | exact (me_stack E)].
    + intro; lra.
Qed.

Lemma miss_iff_overlap_nonpositive_witness :
  stack Scenario.touching = [] ++ [Scenario.touching_base; Scenario.touching_top]
  /\ isGameEnded Scenario.touching = false
  /\ direction Scenario.touching_top = Some DIRECTIONS.X
  /\ Geometry.overlap Scenario.touching_top Scenario.touching_base DIRECTIONS.X == 0
  /\ exists g',
       splitBlockAndAddNext Scenario.touching = Some g'
       /\ isGameEnded g' = true
       /\ stack g' = [Scenario.touching_base].
Proof.
  assert (H1 : stack Scenario.touching
               = [] ++ [Scenario.touching_base; Scenario.touching_top])
    by reflexivity.
  assert (H2 : isGameEnded Scenario.touching = false) by reflexivity.
  assert (H3 : direction Scenario.touching_top = Some DIRECTIONS.X) by reflexivity.
  assert (H4 : Geometry.overlap Scenario.touching_top Scenario.touching_base
                                DIRECTIONS.X == 0) by reflexivity.
  repeat split; try assumption.
  destruct (miss_iff_overlap_nonpositive _ [] _ _ _ H1 H2 H3)
    as (g' & Hsplit & Hiff & Hmiss & _).
  exists g'. split; [exact Hsplit |].
  assert (Hle : Geometry.overlap Scenario.touching_top Scenario.touching_base
                                 DIRECTIONS.X <= 0) by (rewrite H4; apply Qle_refl).
  split; [apply Hiff; exact Hle | apply Hmiss; exact Hle].
Defined.

(** C8. A miss adds the whole top block to [overhangs], at its x and z and
    with its width and depth, pops it from the stack, appends no layer, ends
    the game, and emits GAME_OVER exactly when the game is not in
    autopilot. *)
Theorem miss_drops_top_layer
        (g : GameLogic) (base : list Block) (previousLayer topLayer : Block)
        (d : Direction) :
  stack g = base ++ [previousLayer; topLayer] ->
  isGameEnded g = false ->
  direction topLayer = Some d ->
  Geometry.overlap topLayer previousLayer d <= 0 ->
  exists g' overhang,
    splitBlockAndAddNext g = Some g'
    /\ stack g' = base ++ [previousLayer]
    /\ length (stack g) = S (length (stack g'))
    /\ overhangs g' = overhangs g ++ [overhang]
    /\ getPosition overhang DIRECTIONS.X = getPosition topLayer DIRECTIONS.X
    /\ getPosition overhang DIRECTIONS.Z = getPosition topLayer DIRECTIONS.Z
    /\ width overhang = width topLayer
    /\ depth overhang = depth topLayer
    /\ isFalling overhang = true
    /\ isGameEnded g' = true
    /\ emitted g' = emitted g ++ (if isAutopilot g then [] else [GAME_OVER]).
Proof.
  intros Hstack Hplaying Hdir Hneg.
  assert (Hstack' : stack g = (base ++ [previousLayer]) ++ [topLayer])
    by (now rewrite <- app_assoc).
  destruct (missBlock_effect g _ topLayer Hstack') as (g' & overhang & Hm & E).
  exists g', overhang.
  split; [rewrite <- Hm;
          exact (split_miss g base previousLayer topLayer d Hstack Hplaying Hdir Hneg) |].
  split; [exact (me_stack E) |].
  split; [rewrite (me_stack E), Hstack', !length_app; simpl; lia |].
  split; [exact (me_overhangs E) |].
  split; [exact (me_overhang_x E) |].
  split; [exact (me_overhang_z E) |].
  split; [exact (me_overhang_width E) |].
  split; [exact (me_overhang_depth E) |].
  split; [exact (me_overhang_falling E) |].
  split; [exact (me_isGameEnded E) | exact (me_emitted E)].
Qed.

Lemma miss_drops_top_layer_witness :
  stack Scenario.touching = [] ++ [Scenario.touching_base; Scenario.touching_top]
  /\ isGameEnded Scenario.touching = false
  /\ direction Scenario.touching_top = Some DIRECTIONS.X
  /\ Geometry.overlap Scenario.touching_top Scenario.touching_base DIRECTIONS.X <= 0
  /\ exists g' overhang,
       splitBlockAndAddNext Scenario.touching = Some g'
       /\ stack g' = [Scenario.touching_base]
       /\ overhangs g' = [overhang]
       /\ isGameEnded g' = true
       /\ emitted g' = emitted Scenario.touching ++ [GAME_OVER].
Proof.
  assert (H1 : stack Scenario.touching
               = [] ++ [Scenario.touching_base; Scenario.touching_top])
    by reflexivity.
  assert (H2 : isGameEnded Scenario.touching = false) by reflexivity.
  assert (H3 : direction Scenario.touching_top = Some DIRECTIONS.X) by reflexivity.
  assert (H4 : Geometry.overlap Scenario.touching_top Scenario.touching_base
                                DIRECTIONS.X <= 0) by (intro H; discriminate H).
  repeat split; try assumption.
  destruct (miss_drops_top_layer _ [] _ _ _ H1 H2 H3 H4)
    as (g' & overhang & Hsplit & Hst & _ & Hov & _ & _ & _ & _ & _ & Hend & Hem).
  exists g', overhang. repeat split; assumption.
Defined.

(** C10. [splitBlockAndAddNext] on a game that has ended, or on a stack of
    fewer than two layers, returns with the whole state unchanged. *)
Theorem split_is_noop_when_ended_or_short (g : GameLogic) :
  isGameEnded g = true \/ (length (stack g) < 2)%nat ->
  splitBlockAndAddNext g = Some g.
Proof. exact (split_skips g). Qed.

Lemma split_is_noop_when_ended_or_short_witness :
  (isGameEnded Scenario.ended = true \/ (length (stack Scenario.ended) < 2)%nat)
  /\ splitBlockAndAddNext Scenario.ended = Some Scenario.ended.
Proof.
  assert (H : isGameEnded Scenario.ended = true
              \/ (length (stack Scenario.ended) < 2)%nat) by (left; reflexivity).
  split; [exact H | exact (split_is_noop_when_ended_or_short _ H)].
Defined.

(** C3, as the code has it.  The overhang is centred at the coordinate the
    top block has AFTER the cut (its coordinate before the cut less
    [delta / 2]) plus [(overlap / 2 + overhangSize / 2) * sign delta], each
    as the code computes it; so it lies on the side of the kept block that
    the sign of [delta] gives. *)
Theorem overhang_shifted_from_postcut_coordinate
        (g : GameLogic) (base : list Block) (previousLayer topLayer : Block)
        (d : Direction) :
  stack g = base ++ [previousLayer; topLayer] ->
  isGameEnded g = false ->
  direction topLayer = Some d ->
  0 < Geometry.overlap topLayer previousLayer d ->
  let delta := Geometry.delta topLayer previousLayer d in
  let overlap := Geometry.overlap topLayer previousLayer d in
  let overhangSize := Geometry.overhangSize topLayer previousLayer d in
  exists g' kept overhang next,
    splitBlockAndAddNext g = Some g'
    /\ stack g' = base ++ [previousLayer; kept; next]
    /\ overhangs g' = overhangs g ++ [overhang]
    /\ getPosition kept d = getPosition topLayer d - delta / 2
    /\ getPosition overhang d
       = getPosition kept d + (overlap / 2 + overhangSize / 2) * Math_sign delta
    /\ (0 < delta -> getPosition kept d <= getPosition overhang d)
    /\ (delta < 0 -> getPosition overhang d <= getPosition kept d).
Proof.
  intros Hstack Hplaying Hdir Hpos dl ov os.
  set (sz := Geometry.size topLayer d).
  destruct (cutAndContinue_effect g base previousLayer topLayer Hstack d ov sz dl os Hdir)
    as (overhang & next & E).
  exists (cutAndContinue g topLayer ov sz dl os d),
         (keptLayer topLayer ov sz dl), overhang, next.
  split; [exact (split_cut g base previousLayer topLayer d Hstack Hplaying Hdir Hpos) |].
  split; [exact (ce_stack E) |].
  split; [exact (ce_overhangs E) |].
  split; [exact (getPosition_keptLayer topLayer d ov sz dl Hdir) |].
  split; [exact (ce_overhang_along E) |].
  assert (Hos : 0 <= os) by apply Qabs_nonneg.
  assert (Hov : 0 < ov) by exact Hpos.
  assert (Hshift : 0 <= ov / 2 + os / 2)
    by (unfold Qdiv; change (/ 2) with (1 # 2); lra).
  rewrite (ce_overhang_along E).
  set (shift := ov / 2 + os / 2) in *. clearbody shift.
  set (c := getPosition (keptLayer topLayer ov sz dl) d). clearbody c.
  split; intro Hsign.
  - rewrite (Math_sign_pos dl Hsign). lra.
  - rewrite (Math_sign_neg dl Hsign). lra.
Qed.

Lemma overhang_shifted_from_postcut_coordinate_witness :
  stack Scenario.offset_one = [] ++ [Scenario.offset_one_base; Scenario.offset_one_top]
  /\ isGameEnded Scenario.offset_one = false
  /\ direction Scenario.offset_one_top = Some DIRECTIONS.X
  /\ 0 < Geometry.overlap Scenario.offset_one_top Scenario.offset_one_base DIRECTIONS.X
  /\ exists g' kept overhang,
       splitBlockAndAddNext Scenario.offset_one = Some g'
       /\ overhangs g' = overhangs Scenario.offset_one ++ [overhang]
       /\ getPosition kept DIRECTIONS.X
          = getPosition Scenario.offset_one_top DIRECTIONS.X
            - Geometry.delta Scenario.offset_one_top Scenario.offset_one_base
                             DIRECTIONS.X / 2
       /\ getPosition kept DIRECTIONS.X <= getPosition overhang DIRECTIONS.X.
Proof.
  assert (H1 : stack Scenario.offset_one
               = [] ++ [Scenario.offset_one_base; Scenario.offset_one_top])
    by reflexivity.
  assert (H2 : isGameEnded Scenario.offset_one = false) by reflexivity.
  assert (H3 : direction Scenario.offset_one_top = Some DIRECTIONS.X) by reflexivity.
  assert (H4 : 0 < Geometry.overlap Scenario.offset_one_top Scenario.offset_one_base
                                    DIRECTIONS.X) by reflexivity.
  assert (H5 : 0 < Geometry.delta Scenario.offset_one_top Scenario.offset_one_base
                                  DIRECTIONS.X) by reflexivity.
  repeat split; try assumption.
  destruct (overhang_shifted_from_postcut_coordinate _ [] _ _ _ H1 H2 H3 H4)
    as (g' & kept & overhang & next & Hsplit & _ & Hov & Hk & _ & Hside & _).
  exists g', kept, overhang.
  split; [exact Hsplit |]. split; [exact Hov |]. split; [exact Hk |].
  exact (Hside H5).
Defined.

(** C3, as stated, fails.  The layer is at x = 1 over the base at x = 0, both
    of extent 3: overlap 2, overhang size 1.  The overhang is spawned at
    x = 2, not at 1 + (2/2 + 1/2) = 5/2. *)
Lemma overhang_not_shifted_from_precut_coordinate :
  stack Scenario.offset_one = [Scenario.offset_one_base; Scenario.offset_one_top]
  /\ isGameEnded Scenario.offset_one = false
  /\ direction Scenario.offset_one_top = Some DIRECTIONS.X
  /\ getPosition Scenario.offset_one_top DIRECTIONS.X == 1
  /\ Geometry.delta Scenario.offset_one_top Scenario.offset_one_base DIRECTIONS.X == 1
  /\ Geometry.overlap Scenario.offset_one_top Scenario.offset_one_base DIRECTIONS.X == 2
  /\ Geometry.overhangSize Scenario.offset_one_top Scenario.offset_one_base
                           DIRECTIONS.X == 1
  /\ (exists g' overhang,
        splitBlockAndAddNext Scenario.offset_one = Some g'
        /\ overhangs g' = overhangs Scenario.offset_one ++ [overhang]
        /\ getPosition overhang DIRECTIONS.X == 2)
  /\ ~ (exists g' overhang,
          splitBlockAndAddNext Scenario.offset_one = Some g'
          /\ overhangs g' = overhangs Scenario.offset_one ++ [overhang]
          /\ getPosition overhang DIRECTIONS.X
             == getPosition Scenario.offset_one_top DIRECTIONS.X
                + Math_sign (Geometry.delta Scenario.offset_one_top
                                            Scenario.offset_one_base DIRECTIONS.X)
                  * (Geometry.overlap Scenario.offset_one_top
                                      Scenario.offset_one_base DIRECTIONS.X / 2
                     + Geometry.overhangSize Scenario.offset_one_top
                                             Scenario.offset_one_base
                                             DIRECTIONS.X / 2)).
Proof.
  repeat (split; [reflexivity |]).
  split.
  - eexists. eexists. split; [vm_compute; reflexivity |].
    split; [vm_compute; reflexivity | reflexivity].
  - intros (g' & overhang & Hsplit & Hov & Hpos).
    vm_compute in Hsplit. injection Hsplit as <-.
    vm_compute in Hov. injection Hov as <-.
    vm_compute in Hpos. discriminate Hpos.
Qed.

Section DoublesAdjoin.

Import PrimFloat.
Local Open Scope float_scope.

(** In real arithmetic the centre above makes the overhang adjoin the kept
    block.  In the arithmetic of the code the two faces can differ by a
    rounding error: 51 frames of 20 ms after the start the layer is at
    x = -1.8399999999999932; the placement leaves the lower face of the kept
    block at -1.5 and puts the upper face of the overhang at
    -1.4999999999999998. *)
Lemma overhang_face_off_kept_face_in_doubles :
  Ieee.stack Ieee.first_layer = [] ++ [Ieee.first_layer_base; Ieee.first_layer_top]
  /\ Ieee.BlockOps.getPosition Ieee.first_layer_top DIRECTIONS.X = -1.8399999999999932
  /\ exists g' kept overhang next,
       Ieee.Logic.splitBlockAndAddNext Ieee.first_layer = Some g'
       /\ Ieee.stack g' = [] ++ [Ieee.first_layer_base; kept; next]
       /\ Ieee.overhangs g' = Ieee.overhangs Ieee.first_layer ++ [overhang]
       /\ Ieee.BlockOps.getPosition kept DIRECTIONS.X
          - Ieee.BlockOps.getSize kept (Some DIRECTIONS.X) / 2
          = -1.5
       /\ Ieee.BlockOps.getPosition overhang DIRECTIONS.X
          + Ieee.BlockOps.getSize overhang (Some DIRECTIONS.X) / 2
          = -1.4999999999999998.
Proof.
  split; [vm_compute; reflexivity |]. split; [vm_compute; reflexivity |].
  eexists. eexists. eexists. eexists.
  split; [vm_compute; reflexivity |].
  split; [vm_compute; reflexivity |].
  split; [vm_compute; reflexivity |].
  split; vm_compute; reflexivity.
Qed.

End DoublesAdjoin.

(** C4, as the code has it.  The layer appended after a cut sits at height
    [BOX_HEIGHT * stack.length] (the length before the append), has the width
    and depth of the block just cut and slides along the other axis.  Along
    the axis just cut it has the coordinate of the block just cut; along its
    own sliding axis it starts at the spawn offset -10. *)
Theorem next_layer_spawn
        (g : GameLogic) (base : list Block) (previousLayer topLayer : Block)
        (d : Direction) :
  stack g = base ++ [previousLayer; topLayer] ->
  isGameEnded g = false ->
  direction topLayer = Some d ->
  0 < Geometry.overlap topLayer previousLayer d ->
  exists g' kept next,
    splitBlockAndAddNext g = Some g'
    /\ stack g' = base ++ [previousLayer; kept; next]
    /\ uid kept = uid topLayer
    /\ vy (position next)
       = GAME_CONFIG.BOX_HEIGHT * inject_Z (Z.of_nat (length (stack g)))
    /\ width next = width kept
    /\ depth next = depth kept
    /\ direction next = Some (Geometry.opposite d)
    /\ getPosition next d = getPosition kept d
    /\ getPosition next (Geometry.opposite d) = -10.
Proof.
  intros Hstack Hplaying Hdir Hpos.
  set (ov := Geometry.overlap topLayer previousLayer d) in *.
  set (os := Geometry.overhangSize topLayer previousLayer d).
  set (sz := Geometry.size topLayer d).
  set (dl := Geometry.delta topLayer previousLayer d).
  destruct (cutAndContinue_effect g base previousLayer topLayer Hstack d ov sz dl os Hdir)
    as (overhang & next & E).
  exists (cutAndContinue g topLayer ov sz dl os d), (keptLayer topLayer ov sz dl), next.
  split; [exact (split_cut g base previousLayer topLayer d Hstack Hplaying Hdir Hpos) |].
  split; [exact (ce_stack E) |].
  split; [exact (uid_keptLayer topLayer ov sz dl) |].
  split; [exact (ce_next_height E) |].
  split; [exact (ce_next_width E) |].
  split; [exact (ce_next_depth E) |].
  split; [exact (ce_next_direction E) |].
  split; [exact (ce_next_along E) | exact (ce_next_across E)].
Qed.

Lemma next_layer_spawn_witness :
  stack Scenario.offset_one = [] ++ [Scenario.offset_one_base; Scenario.offset_one_top]
  /\ isGameEnded Scenario.offset_one = false
  /\ direction Scenario.offset_one_top = Some DIRECTIONS.X
  /\ 0 < Geometry.overlap Scenario.offset_one_top Scenario.offset_one_base DIRECTIONS.X
  /\ exists g' kept next,
       splitBlockAndAddNext Scenario.offset_one = Some g'
       /\ stack g' = [] ++ [Scenario.offset_one_base; kept; next]
       /\ direction next = Some DIRECTIONS.Z
       /\ getPosition next DIRECTIONS.X = getPosition kept DIRECTIONS.X
       /\ getPosition next DIRECTIONS.Z = -10.
Proof.
  assert (H1 : stack Scenario.offset_one
               = [] ++ [Scenario.offset_one_base; Scenario.offset_one_top])
    by reflexivity.
  assert (H2 : isGameEnded Scenario.offset_one = false) by reflexivity.
  assert (H3 : direction Scenario.offset_one_top = Some DIRECTIONS.X) by reflexivity.
  assert (H4 : 0 < Geometry.overlap Scenario.offset_one_top Scenario.offset_one_base
                                    DIRECTIONS.X) by reflexivity.
  repeat split; try assumption.
  destruct (next_layer_spawn _ [] _ _ _ H1 H2 H3 H4)
    as (g' & kept & next & Hsplit & Hst & _ & _ & _ & _ & Hd & Hx & Hz).
  exists g', kept, next. repeat split; assumption.
Defined.

(** C4, as stated, fails.  In the same game the layer cut slides along 'x'
    and ends at x = 1/2, z = 0; the layer appended slides along 'z'.  Along
    its own axis 'z' it is at -10, not at the 0 of the block below; along the
    other axis 'x' it is at 1/2, not at -10. *)
Lemma next_layer_not_aligned_on_own_axis :
  stack Scenario.offset_one = [Scenario.offset_one_base; Scenario.offset_one_top]
  /\ isGameEnded Scenario.offset_one = false
  /\ direction Scenario.offset_one_top = Some DIRECTIONS.X
  /\ 0 < Geometry.overlap Scenario.offset_one_top Scenario.offset_one_base DIRECTIONS.X
  /\ (exists g' kept next,
        splitBlockAndAddNext Scenario.offset_one = Some g'
        /\ stack g' = [Scenario.offset_one_base; kept; next]
        /\ direction next = Some DIRECTIONS.Z
        /\ getPosition kept DIRECTIONS.Z == 0
        /\ getPosition kept DIRECTIONS.X == 1 # 2
        /\ getPosition next DIRECTIONS.Z == -10
        /\ getPosition next DIRECTIONS.X == 1 # 2)
  /\ ~ (exists g' kept next,
          splitBlockAndAddNext Scenario.offset_one = Some g'
          /\ stack g' = [Scenario.offset_one_base; kept; next]
          /\ direction next = Some DIRECTIONS.Z
          /\ getPosition next DIRECTIONS.Z == getPosition kept DIRECTIONS.Z)
  /\ ~ (exists g' kept next,
          splitBlockAndAddNext Scenario.offset_one = Some g'
          /\ stack g' = [Scenario.offset_one_base; kept; next]
          /\ direction next = Some DIRECTIONS.Z
          /\ getPosition next DIRECTIONS.X == -10).
Proof.
  repeat (split; [reflexivity |]).
  split; [| split].
  - eexists. eexists. eexists. split; [vm_compute; reflexivity |].
    split; [vm_compute; reflexivity |].
    repeat split; reflexivity.
  - intros (g' & kept & next & Hsplit & Hst & _ & Hpos).
    vm_compute in Hsplit. injection Hsplit as <-.
    vm_compute in Hst. injection Hst as <- <-.
    vm_compute in Hpos. discriminate Hpos.
  - intros (g' & kept & next & Hsplit & Hst & _ & Hpos).
    vm_compute in Hsplit. injection Hsplit as <-.
    vm_compute in Hst. injection Hst as <- <-.
    vm_compute in Hpos. discriminate Hpos.
Qed.

(** ** Invariants *)

(** *** Axes by index *)

Lemma axis_at_succ (i : nat) (d : Direction) :
  axis_at (S i) = Some d -> axis_at (S (S i)) = Some (Geometry.opposite d).
Proof.
  unfold axis_at.
  rewrite (Nat.odd_succ (S i)), <- (Nat.negb_odd (S i)).
  destruct (Nat.odd (S i)); simpl; intro H; injection H as <-; reflexivity.
Qed.

Lemma axes_snoc (n : nat) :
  map axis_at (seq 0 (S n)) = map axis_at (seq 0 n) ++ [axis_at n].
Proof. rewrite seq_S, map_app. reflexivity. Qed.

(** In a state that satisfies the invariant the layer at index [i] has the
    axis of that index. *)
Lemma axis_of_layer (g : GameLogic) (i : nat) (b : Block) :
  invariant g -> nth_error (stack g) i = Some b -> direction b = axis_at i.
Proof.
  intros Hinv Hnth.
  assert (Hlt : (i < length (stack g))%nat)
    by (apply nth_error_Some; rewrite Hnth; discriminate).
  pose proof (map_nth_error direction i (stack g) Hnth) as H.
  rewrite (inv_axes Hinv), nth_error_map, nth_error_seq in H.
  apply Nat.ltb_lt in Hlt. rewrite Hlt in H. simpl in H.
  now injection H as <-.
Qed.

Lemma axis_of_top (g : GameLogic) (base : list Block) (p t : Block) :
  invariant g -> stack g = base ++ [p; t] ->
  direction t = axis_at (S (length base)).
Proof.
  intros Hinv Hstack. apply (axis_of_layer g); [exact Hinv |].
  rewrite Hstack, nth_error_app2 by lia.
  replace (S (length base) - length base)%nat with 1%nat by lia. reflexivity.
Qed.

(** *** Resources *)

Section Resources.

Variables (layers falling world scene : list nat) (n : nat).

Lemma resources_cut :
  resources_ok layers falling world scene n ->
  resources_ok (layers ++ [S n]) (falling ++ [n])
               (world ++ [n; S n]) (scene ++ [n; S n]) (S (S n)).
Proof.
  intros [Hf Hw Hs Hn].
  assert (Hperm : Permutation (S n :: n :: layers ++ falling)
                              ((layers ++ [S n]) ++ falling ++ [n])).
  { rewrite <- app_assoc. simpl.
    apply Permutation_cons_app.
    rewrite app_assoc. apply Permutation_cons_append. }
  assert (Hnew : forall u, In u ((layers ++ [S n]) ++ falling ++ [n]) ->
                           In u (layers ++ falling) \/ u = n \/ u = S n).
  { intros u Hu. apply (Permutation_in _ (Permutation_sym Hperm)) in Hu.
    destruct Hu as [<- | [<- | Hu]]; auto. }
  rewrite Forall_forall in Hf.
  constructor.
  - apply Forall_forall. intros u Hu.
    destruct (Hnew u Hu) as [Hold | [-> | ->]]; [apply Hf in Hold |..]; lia.
  - intros u Hu. apply in_or_app.
    destruct (Hnew u Hu) as [Hold | [-> | ->]]; [left; now apply Hw | |];
      right; simpl; auto.
  - intros u Hu. apply in_or_app.
    destruct (Hnew u Hu) as [Hold | [-> | ->]]; [left; now apply Hs | |];
      right; simpl; auto.
  - apply (Permutation_NoDup Hperm).
    constructor; [| constructor; [| exact Hn]].
    + intros [H | H]; [lia | apply Hf in H; lia].
    + intro H. apply Hf in H. lia.
Qed.

Lemma resources_miss (init : list nat) (top : nat) (world' scene' : list nat) :
  layers = init ++ [top] ->
  resources_ok layers falling world scene n ->
  (forall u, u <> top -> In u (world ++ [n]) -> In u world') ->
  (forall u, u <> top -> In u (scene ++ [n]) -> In u scene') ->
  resources_ok init (falling ++ [n]) world' scene' (S n).
Proof.
  intros -> [Hf Hw Hs Hn] Hw' Hs'.
  rewrite <- app_assoc in Hf, Hw, Hs, Hn. simpl in Hf, Hw, Hs, Hn.
  rewrite Forall_forall in Hf.
  pose proof (NoDup_remove_1 _ _ _ Hn) as Hn1.
  pose proof (NoDup_remove_2 _ _ _ Hn) as Hn2.
  assert (Hold : forall u, In u (init ++ falling) -> In u (init ++ top :: falling)).
  { intros u Hu. apply in_app_or in Hu. apply in_or_app.
    destruct Hu; [left | right; right]; assumption. }
  assert (Htop : (top < n)%nat) by (apply Hf, in_or_app; right; left; reflexivity).
  assert (Hnew : forall u, In u (init ++ falling ++ [n]) ->
                           (In u (init ++ falling) /\ u <> top) \/ (u = n /\ u <> top)).
  { intros u Hu. rewrite app_assoc in Hu. apply in_app_or in Hu.
    destruct Hu as [Hu | [<- | []]].
    - left. split; [exact Hu | intros ->; contradiction].
    - right. split; [reflexivity | lia]. }
  constructor.
  - apply Forall_forall. intros u Hu.
    destruct (Hnew u Hu) as [[Hu' _] | [-> _]]; [apply Hold, Hf in Hu' |]; lia.
  - intros u Hu. destruct (Hnew u Hu) as [[Hu' Hne] | [-> Hne]].
    + apply Hw'; [exact Hne | apply in_or_app; left; apply Hw, Hold, Hu'].
    + apply Hw'; [exact Hne | apply in_or_app; right; left; reflexivity].
  - intros u Hu. destruct (Hnew u Hu) as [[Hu' Hne] | [-> Hne]].
    + apply Hs'; [exact Hne | apply in_or_app; left; apply Hs, Hold, Hu'].
    + apply Hs'; [exact Hne | apply in_or_app; right; left; reflexivity].
  - rewrite app_assoc.
    apply (Permutation_NoDup (Permutation_cons_append (init ++ falling) n)).
    constructor; [| exact Hn1].
    intro H. apply Hold, Hf in H. lia.
Qed.

End Resources.

Lemma resources_start (n : nat) :
  resources_ok [n; S n] [] [n; S n] [n; S n] (S (S n)).
Proof.
  constructor; simpl.
  - repeat constructor; lia.
  - apply incl_refl.
  - apply incl_refl.
  - constructor; [intros [H | []]; lia |].
    constructor; [intros [] | constructor].
Qed.

(** *** States the invariant cannot tell apart *)

Lemma same_view_refl (g : GameLogic) : same_view g g.
Proof. constructor; reflexivity. Qed.

Lemma same_view_trans (g1 g2 g3 : GameLogic) :
  same_view g1 g2 -> same_view g2 g3 -> same_view g1 g3.
Proof.
  intros [A1 A2 A3 A4 A5 A6 A7 A8 A9] [B1 B2 B3 B4 B5 B6 B7 B8 B9].
  constructor; congruence.
Qed.

Lemma same_view_length (g g' : GameLogic) :
  same_view g g' -> length (stack g') = length (stack g).
Proof.
  intros H. rewrite <- (length_map uid (stack g')), (sv_stack_uid H).
  apply length_map.
Qed.

Lemma same_view_invariant (g g' : GameLogic) :
  same_view g g' -> invariant g -> invariant g'.
Proof.
  intros Hsv [Hp He Ha Hr].
  pose proof (same_view_length g g' Hsv) as Hlen.
  constructor.
  - rewrite (sv_isGameEnded Hsv), (sv_score Hsv), Hlen. exact Hp.
  - rewrite (sv_isGameEnded Hsv), (sv_score Hsv), Hlen. exact He.
  - rewrite (sv_stack_direction Hsv), Hlen. exact Ha.
  - rewrite (sv_stack_uid Hsv), (sv_overhangs_uid Hsv), (sv_world Hsv),
      (sv_scene Hsv), (sv_next_uid Hsv). exact Hr.
Qed.

Lemma same_view_updateCameraPosition (g : GameLogic) (targetY deltaTime : Q) :
  same_view g (RenderManager.updateCameraPosition g targetY deltaTime).
Proof.
  unfold RenderManager.updateCameraPosition.
  destruct (Qltb (camera_y g) (targetY + 4)); constructor; reflexivity.
Qed.

Lemma stack_updateCameraPosition (g : GameLogic) (targetY deltaTime : Q) :
  stack (RenderManager.updateCameraPosition g targetY deltaTime) = stack g.
Proof.
  unfold RenderManager.updateCameraPosition.
  destruct (Qltb (camera_y g) (targetY + 4)); reflexivity.
Qed.

Lemma same_view_setRobotPrecision (g : GameLogic) (random : Q) :
  same_view g (setRobotPrecision g random).
Proof. constructor; reflexivity. Qed.

Lemma same_view_updateOverhangs (g : GameLogic) :
  same_view g (updateOverhangs g).
Proof.
  constructor; try reflexivity.
  unfold updateOverhangs. cbn [overhangs set_overhangs].
  rewrite map_map. apply map_ext. exact Frame.uid_updateFromPhysics.
Qed.

Lemma same_view_physics_step (g : GameLogic) (engine : Block -> Vec3) :
  same_view g (PhysicsManager.step g engine).
Proof.
  constructor; try reflexivity.
  unfold PhysicsManager.step. cbn [overhangs set_overhangs].
  rewrite map_map. apply map_ext.
  intro b. now destruct (physicsBody b).
Qed.

Lemma stack_store_top (g : GameLogic) (base : list Block) (p t b : Block) :
  stack g = base ++ [p; t] -> stack (store_top g b) = base ++ [p; b].
Proof.
  intro Hstack. unfold store_top. cbn [stack set_stack].
  rewrite Hstack. apply store_at_top.
Qed.

Lemma same_view_store_top (g : GameLogic) (base : list Block) (p t b : Block) :
  stack g = base ++ [p; t] -> uid b = uid t -> direction b = direction t ->
  same_view g (store_top g b).
Proof.
  intros Hstack Hu Hd.
  constructor; try reflexivity;
    rewrite (stack_store_top g base p t b Hstack), Hstack, !map_app; simpl;
    congruence.
Qed.

(** *** The invariant through the branches *)

Lemma invariant_fresh (random : Q) : invariant (fresh random).
Proof.
  constructor; cbn.
  - intros _. split; [lia | reflexivity].
  - discriminate.
  - reflexivity.
  - exact (resources_start 0).
Qed.

Lemma invariant_startGame (g : GameLogic) : invariant (startGame g).
Proof.
  constructor.
  - intros _. split; [cbn; lia | reflexivity].
  - discriminate.
  - reflexivity.
  - exact (resources_start (next_uid g)).
Qed.

Lemma invariant_cutAndContinue
      (g : GameLogic) (base : list Block) (p t : Block) (d : Direction)
      (overlap size delta overhangSize : Q) :
  invariant g -> stack g = base ++ [p; t] -> isGameEnded g = false ->
  direction t = Some d ->
  invariant (cutAndContinue g t overlap size delta overhangSize d).
Proof.
  intros Hinv Hstack Hplaying Hdir.
  destruct (cutAndContinue_effect g base p t Hstack d overlap size delta overhangSize Hdir)
    as (overhang & next & E).
  pose proof (length_two_top base p t) as Hlen.
  assert (Hlen' : length (base ++ [p; keptLayer t overlap size delta; next])
                  = S (S (S (length base)))) by (rewrite length_app; simpl; lia).
  constructor.
  - intros _. rewrite (ce_score E), (ce_stack E), Hlen', Hstack, Hlen.
    split; lia.
  - rewrite (ce_isGameEnded E), Hplaying. discriminate.
  - rewrite (ce_stack E), Hlen'.
    change (base ++ [p; keptLayer t overlap size delta; next])
      with (base ++ [p; keptLayer t overlap size delta] ++ [next]).
    rewrite app_assoc, map_app, axes_snoc.
    f_equal.
    + pose proof (inv_axes Hinv) as Ha. rewrite Hstack, Hlen in Ha.
      rewrite <- Ha, !map_app. simpl.
      now rewrite (direction_keptLayer t overlap size delta).
    + simpl map. rewrite (ce_next_direction E). f_equal. symmetry.
      apply axis_at_succ.
      rewrite <- (axis_of_top g base p t Hinv Hstack). exact Hdir.
  - rewrite (ce_stack E), (ce_overhangs E), (ce_world E), (ce_scene E), (ce_fresh E).
    change (base ++ [p; keptLayer t overlap size delta; next])
      with (base ++ [p; keptLayer t overlap size delta] ++ [next]).
    rewrite app_assoc, !map_app. cbn [map].
    rewrite (ce_next_uid E), (ce_overhang_uid E),
      (uid_keptLayer t overlap size delta).
    replace (map uid base ++ [uid p; uid t]) with (map uid (stack g))
      by (rewrite Hstack, map_app; reflexivity).
    apply resources_cut. exact (inv_resources Hinv).
Qed.

Lemma invariant_missBlock (g g' : GameLogic) :
  invariant g -> isGameEnded g = false -> missBlock g = Some g' ->
  invariant g' /\ outcome g g'.
Proof.
  intros Hinv Hplaying Hmiss.
  destruct (inv_playing Hinv Hplaying) as [Hlen Hscore].
  destruct (two_top_inv (stack g) Hlen) as (base & p & t & Hstack).
  assert (Hstack' : stack g = (base ++ [p]) ++ [t]) by (now rewrite <- app_assoc).
  destruct (missBlock_effect g _ t Hstack') as (g1 & overhang & Hm & E).
  rewrite Hmiss in Hm. injection Hm as <-.
  assert (Hl : length (stack g) = S (length (stack g'))).
  { rewrite (me_stack E), Hstack', !length_app. simpl. lia. }
  split.
  - constructor.
    + rewrite (me_isGameEnded E). discriminate.
    + intros _. rewrite (me_score E), Hscore. split; lia.
    + pose proof (inv_axes Hinv) as Ha.
      rewrite Hl, axes_snoc, Hstack', map_app in Ha. simpl map at 2 in Ha.
      apply app_inj_tail in Ha. rewrite (me_stack E) in *. exact (proj1 Ha).
    + rewrite (me_stack E), (me_overhangs E), (me_fresh E),
        (map_app uid (overhangs g) [overhang]).
      cbn [map]. rewrite (me_overhang_uid E).
      apply (resources_miss (map uid (stack g)) (map uid (overhangs g))
                            (world_bodies g) (scene_meshes g) (next_uid g)
                            (map uid (base ++ [p])) (uid t)).
      * rewrite Hstack', map_app. reflexivity.
      * exact (inv_resources Hinv).
      * intros u Hne Hin. rewrite (me_world E).
        destruct (physicsBody t); [apply in_in_remove |]; assumption.
      * intros u Hne Hin. rewrite (me_scene E).
        destruct (mesh t); [apply in_in_remove |]; assumption.
  - apply outcome_missed; [exact Hplaying | exact (me_isGameEnded E) | exact Hl
                           | exact (me_score E) | exact (me_isAutopilot E)].
Qed.

(** *** The invariant through the entry points *)

Lemma outcome_compose (g0 g1 g2 g3 : GameLogic) :
  same_view g0 g1 -> outcome g1 g2 -> same_view g2 g3 -> outcome g0 g3.
Proof.
  intros H01 H12 H23.
  pose proof (same_view_length g0 g1 H01) as L01.
  pose proof (same_view_length g2 g3 H23) as L23.
  destruct H12 as [Hsv | Hp Hp' Hl Hs Ha | Hp Hp' Hl Hs Ha].
  - apply outcome_idle.
    exact (same_view_trans g0 g1 g3 H01 (same_view_trans g1 g2 g3 Hsv H23)).
  - apply outcome_placed.
    + now rewrite <- (sv_isGameEnded H01).
    + now rewrite (sv_isGameEnded H23).
    + lia.
    + rewrite (sv_score H23), Hs, (sv_score H01). reflexivity.
    + now rewrite (sv_isAutopilot H23), Ha, (sv_isAutopilot H01).
  - apply outcome_missed.
    + now rewrite <- (sv_isGameEnded H01).
    + now rewrite (sv_isGameEnded H23).
    + lia.
    + rewrite (sv_score H23), Hs, (sv_score H01). reflexivity.
    + now rewrite (sv_isAutopilot H23), Ha, (sv_isAutopilot H01).
Qed.

Lemma split_outcome (g : GameLogic) :
  invariant g ->
  exists g', splitBlockAndAddNext g = Some g' /\ invariant g' /\ outcome g g'.
Proof.
  intro Hinv.
  destruct (isGameEnded g) eqn:Hended.
  - exists g. split; [apply split_skips; now left |].
    split; [exact Hinv | apply outcome_idle, same_view_refl].
  - destruct (inv_playing Hinv Hended) as [Hlen Hscore].
    destruct (two_top_inv (stack g) Hlen) as (base & p & t & Hstack).
    pose proof (axis_of_top g base p t Hinv Hstack) as Hdir.
    simpl axis_at in Hdir.
    set (d := if Nat.odd (S (length base)) then DIRECTIONS.X else DIRECTIONS.Z) in Hdir.
    destruct (Qlt_le_dec 0 (Geometry.overlap t p d)) as [Hpos | Hneg].
    + eexists. split; [exact (split_cut g base p t d Hstack Hended Hdir Hpos) |].
      split; [exact (invariant_cutAndContinue g base p t d _ _ _ _ Hinv Hstack Hended Hdir) |].
      destruct (cutAndContinue_effect g base p t Hstack d
                  (Geometry.overlap t p d) (Geometry.size t d) (Geometry.delta t p d)
                  (Geometry.overhangSize t p d) Hdir) as (overhang & next & E).
      apply outcome_placed.
      * exact Hended.
      * now rewrite (ce_isGameEnded E).
      * rewrite (ce_stack E), Hstack, !length_app. simpl. lia.
      * rewrite (ce_score E), Hscore. lia.
      * exact (ce_isAutopilot E).
    + assert (Hstack' : stack g = (base ++ [p]) ++ [t]) by (now rewrite <- app_assoc).
      destruct (missBlock_effect g _ t Hstack') as (g' & overhang & Hm & _).
      exists g'.
      split; [rewrite <- Hm; exact (split_miss g base p t d Hstack Hended Hdir Hneg) |].
      exact (invariant_missBlock g g' Hinv Hended Hm).
Qed.

Lemma update_unfold (g : GameLogic) (deltaTime random : Q)
      (base : list Block) (p t : Block) :
  stack g = base ++ [p; t] ->
  update g deltaTime random
  = let g1 :=
      RenderManager.updateCameraPosition
        g (GAME_CONFIG.BOX_HEIGHT * inject_Z (Z.of_nat (length (stack g)) - 2))
        deltaTime in
    match
      (if shouldBlockMove g1 t p then
         if isOutOfBounds (moveBlock t deltaTime)
         then missBlock (store_top g1 (moveBlock t deltaTime))
         else Some (store_top g1 (moveBlock t deltaTime))
       else if isAutopilot g1 then
         match splitBlockAndAddNext g1 with
         | Some g2 => Some (setRobotPrecision g2 random)
         | None => None
         end
       else Some g1)
    with
    | Some g2 => Some (updateOverhangs g2)
    | None => None
    end.
Proof.
  intro Hstack. unfold update.
  assert (Hlen : (length (stack g) <? 2)%nat = false)
    by (apply Nat.ltb_ge; rewrite Hstack, length_two_top; lia).
  assert (Htop : stack_at (stack g) (Z.of_nat (length (stack g)) - 1) = Some t)
    by (rewrite Hstack; apply stack_at_top).
  assert (Hprev : stack_at (stack g) (Z.of_nat (length (stack g)) - 2) = Some p)
    by (rewrite Hstack; apply stack_at_previous).
  rewrite Hlen, Htop, Hprev. reflexivity.
Qed.

Lemma shouldBlockMove_playing (g : GameLogic) (t p : Block) :
  shouldBlockMove g t p = true -> isGameEnded g = false.
Proof. unfold shouldBlockMove. destruct (isGameEnded g); [discriminate | reflexivity]. Qed.

Lemma update_outcome (g : GameLogic) (deltaTime random : Q) :
  invariant g ->
  exists g', update g deltaTime random = Some g' /\ invariant g' /\ outcome g g'.
Proof.
  intro Hinv.
  destruct (Nat.lt_ge_cases (length (stack g)) 2) as [Hshort | Hlen].
  - exists g. unfold update. apply Nat.ltb_lt in Hshort. rewrite Hshort.
    split; [reflexivity |]. split; [exact Hinv | apply outcome_idle, same_view_refl].
  - destruct (two_top_inv (stack g) Hlen) as (base & p & t & Hstack).
    rewrite (update_unfold g deltaTime random base p t Hstack). cbv zeta.
    set (g1 := RenderManager.updateCameraPosition g _ deltaTime).
    assert (H01 : same_view g g1) by apply same_view_updateCameraPosition.
    assert (Hinv1 : invariant g1) by exact (same_view_invariant g g1 H01 Hinv).
    assert (Hstack1 : stack g1 = base ++ [p; t])
      by (unfold g1; rewrite stack_updateCameraPosition; exact Hstack).
    destruct (shouldBlockMove g1 t p) eqn:Hmove.
    + pose proof (shouldBlockMove_playing g1 t p Hmove) as Hplaying1.
      set (g2 := store_top g1 (moveBlock t deltaTime)).
      assert (H12 : same_view g1 g2).
      { apply (same_view_store_top g1 base p t); [exact Hstack1 | |].
        - apply Frame.uid_moveBlock.
        - apply Frame.direction_moveBlock. }
      assert (H02 : same_view g g2) by exact (same_view_trans g g1 g2 H01 H12).
      assert (Hinv2 : invariant g2) by exact (same_view_invariant g1 g2 H12 Hinv1).
      destruct (isOutOfBounds (moveBlock t deltaTime)).
      * assert (Hstack2 : stack g2 = (base ++ [p]) ++ [moveBlock t deltaTime]).
        { unfold g2. rewrite (stack_store_top g1 base p t _ Hstack1).
          now rewrite <- app_assoc. }
        destruct (missBlock_effect g2 _ _ Hstack2) as (g3 & overhang & Hm & _).
        assert (Hplaying2 : isGameEnded g2 = false)
          by (rewrite (sv_isGameEnded H12); exact Hplaying1).
        destruct (invariant_missBlock g2 g3 Hinv2 Hplaying2 Hm) as [Hinv3 Hout].
        exists (updateOverhangs g3). rewrite Hm.
        split; [reflexivity |].
        split; [exact (same_view_invariant _ _ (same_view_updateOverhangs g3) Hinv3) |].
        exact (outcome_compose g g2 g3 _ H02 Hout (same_view_updateOverhangs g3)).
      * exists (updateOverhangs g2). split; [reflexivity |].
        split; [exact (same_view_invariant _ _ (same_view_updateOverhangs g2) Hinv2) |].
        apply outcome_idle.
        exact (same_view_trans g g2 _ H02 (same_view_updateOverhangs g2)).
    + destruct (isAutopilot g1).
      * destruct (split_outcome g1 Hinv1) as (g2 & Hsplit & Hinv2 & Hout).
        rewrite Hsplit.
        exists (updateOverhangs (setRobotPrecision g2 random)).
        split; [reflexivity |].
        assert (H23 : same_view g2 (updateOverhangs (setRobotPrecision g2 random))).
        { apply (same_view_trans g2 (setRobotPrecision g2 random)).
          - apply same_view_setRobotPrecision.
          - apply same_view_updateOverhangs. }
        split; [exact (same_view_invariant _ _ H23 Hinv2) |].
        exact (outcome_compose g g1 g2 _ H01 Hout H23).
      * exists (updateOverhangs g1). split; [reflexivity |].
        split; [exact (same_view_invariant _ _ (same_view_updateOverhangs g1) Hinv1) |].
        apply outcome_idle.
        exact (same_view_trans g g1 _ H01 (same_view_updateOverhangs g1)).
Qed.

Lemma step_reset (g : GameLogic) (op : Op) :
  is_reset g op = true -> step g op = Some (startGame g).
Proof.
  destruct op as [| | deltaTime random | engine]; simpl.
  - reflexivity.
  - intro H. unfold handleBlockPlacement. now rewrite H.
  - discriminate.
  - discriminate.
Qed.

Lemma step_outcome (g : GameLogic) (op : Op) :
  invariant g -> is_reset g op = false ->
  exists g', step g op = Some g' /\ invariant g' /\ outcome g g'.
Proof.
  intros Hinv Hop.
  destruct op as [| | deltaTime random | engine]; simpl in *.
  - discriminate.
  - unfold handleBlockPlacement. rewrite Hop. exact (split_outcome g Hinv).
  - exact (update_outcome g deltaTime random Hinv).
  - exists (PhysicsManager.step g engine).
    pose proof (same_view_physics_step g engine) as Hsv.
    split; [reflexivity |].
    split; [exact (same_view_invariant _ _ Hsv Hinv) | exact (outcome_idle _ _ Hsv)].
Qed.

(** Every entry point returns, and keeps the invariant. *)
Lemma step_invariant (g : GameLogic) (op : Op) :
  invariant g -> exists g', step g op = Some g' /\ invariant g'.
Proof.
  intro Hinv. destruct (is_reset g op) eqn:Hop.
  - exists (startGame g). split; [exact (step_reset g op Hop) | apply invariant_startGame].
  - destruct (step_outcome g op Hinv Hop) as (g' & Hs & Hi & _). now exists g'.
Qed.

Lemma reachable_invariant (g : GameLogic) : reachable g -> invariant g.
Proof.
  induction 1 as [random | g op g' _ IH Hstep].
  - apply invariant_fresh.
  - destruct (step_invariant g op IH) as (g1 & Hs & Hi). congruence.
Qed.

(** ** The claims about whole games *)

Lemma reachable_alternates (g : GameLogic) : reachable g -> alternates (stack g).
Proof.
  intros Hreach i lower upper Hlower Hupper.
  pose proof (reachable_invariant g Hreach) as Hinv.
  pose proof (axis_of_layer g (S i) lower Hinv Hlower) as Hl.
  pose proof (axis_of_layer g (S (S i)) upper Hinv Hupper) as Hu.
  exists (if Nat.odd (S i) then DIRECTIONS.X else DIRECTIONS.Z).
  split; [exact Hl |].
  rewrite Hu. apply axis_at_succ. reflexivity.
Qed.

(** C5. After a successful placement the layer appended slides along the
    axis opposite to that of the layer just cut, whatever the geometry; and
    in every reachable state each layer from the third on slides along the
    axis opposite to that of the layer below it. *)
Theorem axes_alternate :
  (forall (g : GameLogic) (base : list Block) (previousLayer topLayer : Block)
          (d : Direction),
      stack g = base ++ [previousLayer; topLayer] ->
      isGameEnded g = false ->
      direction topLayer = Some d ->
      0 < Geometry.overlap topLayer previousLayer d ->
      exists g' kept next,
        splitBlockAndAddNext g = Some g'
        /\ stack g' = base ++ [previousLayer; kept; next]
        /\ uid kept = uid topLayer
        /\ direction kept = Some d
        /\ direction next = Some (Geometry.opposite d))
  /\ (forall g : GameLogic, reachable g -> alternates (stack g)).
Proof.
  split; [| exact reachable_alternates].
  intros g base previousLayer topLayer d Hstack Hplaying Hdir Hpos.
  set (ov := Geometry.overlap topLayer previousLayer d) in *.
  set (os := Geometry.overhangSize topLayer previousLayer d).
  set (sz := Geometry.size topLayer d).
  set (dl := Geometry.delta topLayer previousLayer d).
  destruct (cutAndContinue_effect g base previousLayer topLayer Hstack d ov sz dl os Hdir)
    as (overhang & next & E).
  exists (cutAndContinue g topLayer ov sz dl os d), (keptLayer topLayer ov sz dl), next.
  split; [exact (split_cut g base previousLayer topLayer d Hstack Hplaying Hdir Hpos) |].
  split; [exact (ce_stack E) |].
  split; [exact (uid_keptLayer topLayer ov sz dl) |].
  split; [rewrite (direction_keptLayer topLayer ov sz dl); exact Hdir |].
  exact (ce_next_direction E).
Qed.

Lemma reachable_run (g : GameLogic) (ops : list Op) (g' : GameLogic) :
  reachable g -> run g ops = Some g' -> reachable g'.
Proof.
  revert g. induction ops as [| op ops IH]; intros g Hreach Hrun; simpl in Hrun.
  - now injection Hrun as <-.
  - destruct (step g op) as [g1 |] eqn:Hstep; [| discriminate].
    apply (IH g1); [exact (reachable_step g op g1 Hreach Hstep) | exact Hrun].
Qed.

(** The concrete games are games a page can reach. *)
Lemma reachable_start : reachable Scenario.start.
Proof.
  apply (reachable_run (fresh 0.5) [OpStartGame]);
    [apply reachable_fresh | reflexivity].
Qed.

Lemma reachable_offset_one : reachable Scenario.offset_one.
Proof.
  apply (reachable_run Scenario.start [OpUpdate 1375 0]);
    [exact reachable_start | vm_compute; reflexivity].
Qed.

Lemma reachable_two_placed : reachable Scenario.two_placed.
Proof.
  apply (reachable_run Scenario.start Scenario.two_taps);
    [exact reachable_start | vm_compute; reflexivity].
Qed.

Lemma reachable_demo : reachable Scenario.demo.
Proof.
  apply (reachable_run (fresh 0.5) [OpUpdate 1250 0.5; OpUpdate 16 0.5]);
    [apply reachable_fresh | vm_compute; reflexivity].
Qed.

Lemma axes_alternate_witness :
  (stack Scenario.offset_one = [] ++ [Scenario.offset_one_base; Scenario.offset_one_top]
   /\ isGameEnded Scenario.offset_one = false
   /\ direction Scenario.offset_one_top = Some DIRECTIONS.X
   /\ 0 < Geometry.overlap Scenario.offset_one_top Scenario.offset_one_base DIRECTIONS.X
   /\ exists g' kept next,
        splitBlockAndAddNext Scenario.offset_one = Some g'
        /\ stack g' = [] ++ [Scenario.offset_one_base; kept; next]
        /\ direction kept = Some DIRECTIONS.X
        /\ direction next = Some DIRECTIONS.Z)
  /\ reachable Scenario.two_placed
  /\ alternates (stack Scenario.two_placed).
Proof.
  assert (H1 : stack Scenario.offset_one
               = [] ++ [Scenario.offset_one_base; Scenario.offset_one_top])
    by reflexivity.
  assert (H2 : isGameEnded Scenario.offset_one = false) by reflexivity.
  assert (H3 : direction Scenario.offset_one_top = Some DIRECTIONS.X) by reflexivity.
  assert (H4 : 0 < Geometry.overlap Scenario.offset_one_top Scenario.offset_one_base
                                    DIRECTIONS.X) by reflexivity.
  split; [repeat split; try assumption | split].
  - destruct (proj1 axes_alternate _ [] _ _ _ H1 H2 H3 H4)
      as (g' & kept & next & Hsplit & Hst & _ & Hk & Hn).
    exists g', kept, next. repeat split; assumption.
  - exact reachable_two_placed.
  - exact (proj2 axes_alternate _ reachable_two_placed).
Defined.

(** *** Score *)

(** A placement on a running game appends a layer exactly when the layers
    overlap: the placements counted by [placements] are the runs of
    [cutAndContinue]. *)
Lemma split_grows_iff_overlap
      (g : GameLogic) (base : list Block) (previousLayer topLayer : Block)
      (d : Direction) :
  stack g = base ++ [previousLayer; topLayer] ->
  isGameEnded g = false ->
  direction topLayer = Some d ->
  exists g',
    splitBlockAndAddNext g = Some g'
    /\ ((length (stack g) <? length (stack g'))%nat = true
        <-> 0 < Geometry.overlap topLayer previousLayer d).
Proof.
  intros Hstack Hplaying Hdir.
  destruct (Qlt_le_dec 0 (Geometry.overlap topLayer previousLayer d)) as [Hpos | Hneg].
  - destruct (cutAndContinue_effect g base previousLayer topLayer Hstack d
                (Geometry.overlap topLayer previousLayer d)
                (Geometry.size topLayer d)
                (Geometry.delta topLayer previousLayer d)
                (Geometry.overhangSize topLayer previousLayer d) Hdir)
      as (overhang & next & E).
    eexists.
    split; [exact (split_cut g base previousLayer topLayer d Hstack Hplaying Hdir Hpos) |].
    split; [intros _; exact Hpos | intros _].
    apply Nat.ltb_lt. rewrite (ce_stack E), Hstack, !length_app. simpl. lia.
  - assert (Hstack' : stack g = (base ++ [previousLayer]) ++ [topLayer])
      by (now rewrite <- app_assoc).
    destruct (missBlock_effect g _ topLayer Hstack') as (g' & overhang & Hm & E).
    exists g'.
    split; [rewrite <- Hm;
            exact (split_miss g base previousLayer topLayer d Hstack Hplaying Hdir Hneg) |].
    split; [| intro; lra].
    intro H. apply Nat.ltb_lt in H.
    rewrite (me_stack E), Hstack', !length_app in H. simpl in H. lia.
Qed.

Lemma outcome_score (g g' : GameLogic) :
  outcome g g' ->
  score g'
  = (score g + (if (length (stack g) <? length (stack g'))%nat then 1 else 0))%Z.
Proof.
  intros [Hsv | _ _ Hl Hs _ | _ _ Hl Hs _].
  - rewrite (same_view_length g g' Hsv), Nat.ltb_irrefl, (sv_score Hsv). lia.
  - rewrite Hl, Hs. assert (H : (length (stack g) <? S (length (stack g)))%nat = true)
      by (apply Nat.ltb_lt; lia). now rewrite H.
  - rewrite Hl, Hs. assert (H : (S (length (stack g')) <? length (stack g'))%nat = false)
      by (apply Nat.ltb_ge; lia). rewrite H. lia.
Qed.

(** Within one game the score grows by one with every successful placement
    and changes with nothing else. *)
Lemma run_score (ops : list Op) (g0 : GameLogic) :
  invariant g0 -> one_game g0 ops = true ->
  exists g, run g0 ops = Some g
            /\ score g = (score g0 + Z.of_nat (placements g0 ops))%Z.
Proof.
  revert g0. induction ops as [| op ops IH]; intros g0 Hinv Hgame.
  - exists g0. split; [reflexivity | simpl; lia].
  - simpl in Hgame. apply andb_prop in Hgame. destruct Hgame as [Hop Hgame].
    apply negb_true_iff in Hop.
    destruct (step_outcome g0 op Hinv Hop) as (g1 & Hstep & Hinv1 & Hout).
    rewrite Hstep in Hgame.
    destruct (IH g1 Hinv1 Hgame) as (g & Hrun & Hscore).
    exists g. simpl. unfold is_placement. rewrite Hstep, Hop. simpl negb. simpl andb.
    split; [exact Hrun |].
    rewrite Hscore, (outcome_score g0 g1 Hout).
    destruct (length (stack g0) <? length (stack g1))%nat; lia.
Qed.

Lemma fresh_game_score (g0 : GameLogic) :
  fresh_game g0 -> invariant g0 /\ score g0 = 0%Z.
Proof.
  intros [random | g].
  - split; [apply invariant_fresh | reflexivity].
  - split; [apply invariant_startGame | reflexivity].
Qed.

(** C6. From a fresh game, a run of calls within one game returns with the
    score equal to the number of successful placements of the run; and from
    a reachable state every call returns, with score 0 when it is a reset and
    otherwise with a score no smaller than before. *)
Theorem score_counts_placements :
  (forall (g0 : GameLogic) (ops : list Op),
      fresh_game g0 -> one_game g0 ops = true ->
      exists g, run g0 ops = Some g
                /\ score g = Z.of_nat (placements g0 ops))
  /\ (forall (g : GameLogic) (op : Op),
         reachable g ->
         exists g', step g op = Some g'
                    /\ if is_reset g op
                       then score g' = 0%Z
                       else (score g <= score g')%Z).
Proof.
  split.
  - intros g0 ops Hfresh Hgame.
    destruct (fresh_game_score g0 Hfresh) as [Hinv Hzero].
    destruct (run_score ops g0 Hinv Hgame) as (g & Hrun & Hscore).
    exists g. split; [exact Hrun | rewrite Hscore, Hzero; lia].
  - intros g op Hreach.
    pose proof (reachable_invariant g Hreach) as Hinv.
    destruct (is_reset g op) eqn:Hop.
    + exists (startGame g). split; [exact (step_reset g op Hop) | reflexivity].
    + destruct (step_outcome g op Hinv Hop) as (g' & Hstep & _ & Hout).
      exists g'. split; [exact Hstep |].
      rewrite (outcome_score g g' Hout).
      destruct (length (stack g) <? length (stack g'))%nat; lia.
Qed.

Lemma score_counts_placements_witness :
  (fresh_game Scenario.start
   /\ one_game Scenario.start Scenario.two_taps = true
   /\ placements Scenario.start Scenario.two_taps = 2%nat
   /\ exists g, run Scenario.start Scenario.two_taps = Some g /\ score g = 2%Z)
  /\ reachable Scenario.offset_one
  /\ is_reset Scenario.offset_one OpHandleBlockPlacement = false
  /\ exists g', step Scenario.offset_one OpHandleBlockPlacement = Some g'
                /\ (score Scenario.offset_one <= score g')%Z.
Proof.
  assert (H1 : fresh_game Scenario.start) by exact (fresh_started (fresh 0.5)).
  assert (H2 : one_game Scenario.start Scenario.two_taps = true)
    by (vm_compute; reflexivity).
  assert (H3 : placements Scenario.start Scenario.two_taps = 2%nat)
    by (vm_compute; reflexivity).
  split; [repeat split; try assumption | repeat split].
  - destruct (proj1 score_counts_placements _ _ H1 H2) as (g & Hrun & Hscore).
    exists g. split; [exact Hrun | rewrite Hscore, H3; reflexivity].
  - exact reachable_offset_one.
  - exact (proj2 score_counts_placements _ OpHandleBlockPlacement reachable_offset_one).
Defined.

(** C7, as the code has it.  Between calls the score is [stack.length - 2]
    while the game runs (the stack holds the base and the layer still
    sliding) and [stack.length - 1] once a miss has ended it. *)
Theorem score_against_stack_height (g : GameLogic) :
  reachable g ->
  score g
  = (Z.of_nat (length (stack g)) - (if isGameEnded g then 1 else 2))%Z.
Proof.
  intro Hreach. pose proof (reachable_invariant g Hreach) as Hinv.
  destruct (isGameEnded g) eqn:Hended.
  - exact (proj2 (inv_ended Hinv Hended)).
  - exact (proj2 (inv_playing Hinv Hended)).
Qed.

Lemma score_against_stack_height_witness :
  reachable Scenario.two_placed
  /\ score Scenario.two_placed
     = (Z.of_nat (length (stack Scenario.two_placed))
        - (if isGameEnded Scenario.two_placed then 1 else 2))%Z.
Proof.
  split; [exact reachable_two_placed |].
  exact (score_against_stack_height _ reachable_two_placed).
Defined.

(** C7, as stated, fails.  Right after [startGame] the score is 0 and the
    stack holds 2 layers; after two successful placements the score is 2 and
    the stack holds 4. *)
Lemma score_is_not_stack_height_minus_one :
  reachable Scenario.start
  /\ score Scenario.start = 0%Z
  /\ length (stack Scenario.start) = 2%nat
  /\ score Scenario.start <> (Z.of_nat (length (stack Scenario.start)) - 1)%Z
  /\ reachable Scenario.two_placed
  /\ score Scenario.two_placed = 2%Z
  /\ length (stack Scenario.two_placed) = 4%nat
  /\ score Scenario.two_placed
     <> (Z.of_nat (length (stack Scenario.two_placed)) - 1)%Z.
Proof.
  split; [exact reachable_start |].
  split; [reflexivity |]. split; [reflexivity |].
  split; [discriminate |].
  split; [exact reachable_two_placed |].
  split; [reflexivity |]. split; [reflexivity | discriminate].
Qed.

(** *** Reset *)

(** C9. A placement request in autopilot cuts and places nothing: it runs
    [startGame].  Autopilot is off, the game is running, the score is 0, the
    overhangs are empty and the stack holds the two seed layers, new blocks
    that are alone in the physics world and in the scene.  Every block the
    game held has its body out of the world and its mesh out of the scene and
    disposed. *)
Theorem placement_in_autopilot_restarts (g : GameLogic) :
  reachable g ->
  isAutopilot g = true ->
  exists g' base top,
    handleBlockPlacement g = Some g'
    /\ g' = startGame g
    /\ isAutopilot g' = false
    /\ isGameEnded g' = false
    /\ score g' = 0%Z
    /\ overhangs g' = []
    /\ stack g' = [base; top]
    /\ position base = mkVec3 0 0 0
    /\ width base = GAME_CONFIG.ORIGINAL_BOX_SIZE
    /\ depth base = GAME_CONFIG.ORIGINAL_BOX_SIZE
    /\ direction base = None
    /\ position top = mkVec3 (-10) 1 0
    /\ width top = GAME_CONFIG.ORIGINAL_BOX_SIZE
    /\ depth top = GAME_CONFIG.ORIGINAL_BOX_SIZE
    /\ direction top = Some DIRECTIONS.X
    /\ world_bodies g' = [uid base; uid top]
    /\ scene_meshes g' = [uid base; uid top]
    /\ forall b : Block,
         In b (stack g ++ overhangs g) ->
         ~ In (uid b) (map uid (stack g'))
         /\ ~ In (uid b) (world_bodies g')
         /\ ~ In (uid b) (scene_meshes g')
         /\ In (uid b) (disposed g').
Proof.
  intros Hreach Hauto.
  pose proof (reachable_invariant g Hreach) as Hinv.
  destruct (inv_resources Hinv) as [Hfresh _ Hscene _].
  rewrite Forall_forall in Hfresh.
  destruct (startGame_effect g) as (base & top & E).
  exists (startGame g), base, top.
  split; [unfold handleBlockPlacement; rewrite Hauto; reflexivity |].
  split; [reflexivity |].
  split; [exact (se_isAutopilot E) |].
  split; [exact (se_isGameEnded E) |].
  split; [exact (se_score E) |].
  split; [exact (se_overhangs E) |].
  split; [exact (se_stack E) |].
  split; [exact (se_base_position E) |].
  split; [exact (se_base_width E) |].
  split; [exact (se_base_depth E) |].
  split; [exact (se_base_direction E) |].
  split; [exact (se_top_position E) |].
  split; [exact (se_top_width E) |].
  split; [exact (se_top_depth E) |].
  split; [exact (se_top_direction E) |].
  split; [rewrite (se_world E), (se_base_uid E), (se_top_uid E); reflexivity |].
  split; [rewrite (se_scene E), (se_base_uid E), (se_top_uid E); reflexivity |].
  intros b Hb.
  assert (Hlive : In (uid b) (map uid (stack g) ++ map uid (overhangs g)))
    by (rewrite <- map_app; now apply in_map).
  pose proof (Hfresh _ Hlive) as Hlt.
  assert (Hnew : ~ In (uid b) [next_uid g; S (next_uid g)])
    by (intros [H | [H | []]]; lia).
  rewrite (se_stack E), (se_world E), (se_scene E), (se_disposed E).
  cbn [map]. rewrite (se_base_uid E), (se_top_uid E).
  split; [exact Hnew |].
  split; [exact Hnew |].
  split; [exact Hnew |].
  apply in_or_app. right. exact (Hscene _ Hlive).
Qed.

Lemma placement_in_autopilot_restarts_witness :
  reachable Scenario.demo
  /\ isAutopilot Scenario.demo = true
  /\ length (stack Scenario.demo) = 3%nat
  /\ length (overhangs Scenario.demo) = 1%nat
  /\ exists g',
       handleBlockPlacement Scenario.demo = Some g'
       /\ isAutopilot g' = false
       /\ score g' = 0%Z
       /\ length (stack g') = 2%nat
       /\ overhangs g' = [].
Proof.
  assert (H1 : isAutopilot Scenario.demo = true) by reflexivity.
  split; [exact reachable_demo |].
  split; [exact H1 |].
  split; [reflexivity |]. split; [reflexivity |].
  destruct (placement_in_autopilot_restarts _ reachable_demo H1)
    as (g' & base & top & Hh & _ & Ha & _ & Hs & Ho & Hst & _).
  exists g'. rewrite Hst. repeat split; assumption.
Defined.

(** * Further properties of the code *)

(** ** Induction over the reachable states

    A property holds in every reachable state as soon as the fresh page has
    it and each state transformer the entry points are made of keeps it. *)

Section Preservation.

Variable P : GameLogic -> Prop.

Hypothesis P_fresh : forall random : Q, P (fresh random).
Hypothesis P_startGame :
  forall g : GameLogic, invariant g -> P g -> P (startGame g).
Hypothesis P_cut :
  forall (g : GameLogic) (base : list Block) (p t : Block) (d : Direction),
    invariant g -> P g ->
    stack g = base ++ [p; t] -> isGameEnded g = false ->
    direction t = Some d -> 0 < Geometry.overlap t p d ->
    P (cutAndContinue g t (Geometry.overlap t p d) (Geometry.size t d)
                      (Geometry.delta t p d) (Geometry.overhangSize t p d) d).
Hypothesis P_miss :
  forall (g : GameLogic) (init : list Block) (t : Block) (g' : GameLogic),
    invariant g -> P g ->
    stack g = init ++ [t] -> isGameEnded g = false -> missBlock g = Some g' ->
    P g'.
Hypothesis P_move :
  forall (g : GameLogic) (base : list Block) (p t : Block) (deltaTime : Q),
    invariant g -> P g ->
    stack g = base ++ [p; t] -> isGameEnded g = false ->
    P (store_top g (moveBlock t deltaTime)).
Hypothesis P_camera :
  forall (g : GameLogic) (targetY deltaTime : Q),
    P g -> P (RenderManager.updateCameraPosition g targetY deltaTime).
Hypothesis P_precision :
  forall (g : GameLogic) (random : Q), P g -> P (setRobotPrecision g random).
Hypothesis P_sync :
  forall g : GameLogic, P g -> P (updateOverhangs g).
Hypothesis P_physics :
  forall (g : GameLogic) (engine : Block -> Vec3),
    P g -> P (PhysicsManager.step g engine).

Lemma split_preserved (g g' : GameLogic) :
  invariant g -> P g -> splitBlockAndAddNext g = Some g' -> P g'.
Proof.
  intros Hinv HP Hsplit.
  destruct (isGameEnded g) eqn:Hended.
  - rewrite (split_skips g (or_introl Hended)) in Hsplit. now injection Hsplit as <-.
  - destruct (inv_playing Hinv Hended) as [Hlen _].
    destruct (two_top_inv (stack g) Hlen) as (base & p & t & Hstack).
    pose proof (axis_of_top g base p t Hinv Hstack) as Hdir.
    simpl axis_at in Hdir.
    set (d := if Nat.odd (S (length base)) then DIRECTIONS.X else DIRECTIONS.Z) in Hdir.
    destruct (Qlt_le_dec 0 (Geometry.overlap t p d)) as [Hpos | Hneg].
    + rewrite (split_cut g base p t d Hstack Hended Hdir Hpos) in Hsplit.
      injection Hsplit as <-.
      exact (P_cut g base p t d Hinv HP Hstack Hended Hdir Hpos).
    + rewrite (split_miss g base p t d Hstack Hended Hdir Hneg) in Hsplit.
      assert (Hstack' : stack g = (base ++ [p]) ++ [t]) by (now rewrite <- app_assoc).
      exact (P_miss g _ t g' Hinv HP Hstack' Hended Hsplit).
Qed.

Lemma update_preserved (g : GameLogic) (deltaTime random : Q) (g' : GameLogic) :
  invariant g -> P g -> update g deltaTime random = Some g' -> P g'.
Proof.
  intros Hinv HP Hupd.
  destruct (Nat.lt_ge_cases (length (stack g)) 2) as [Hshort | Hlen].
  - unfold update in Hupd. apply Nat.ltb_lt in Hshort. rewrite Hshort in Hupd.
    now injection Hupd as <-.
  - destruct (two_top_inv (stack g) Hlen) as (base & p & t & Hstack).
    rewrite (update_unfold g deltaTime random base p t Hstack) in Hupd.
    cbv zeta in Hupd.
    set (g1 := RenderManager.updateCameraPosition g _ deltaTime) in Hupd.
    assert (H01 : same_view g g1) by apply same_view_updateCameraPosition.
    assert (Hinv1 : invariant g1) by exact (same_view_invariant g g1 H01 Hinv).
    assert (HP1 : P g1) by (apply P_camera; exact HP).
    assert (Hstack1 : stack g1 = base ++ [p; t])
      by (unfold g1; rewrite stack_updateCameraPosition; exact Hstack).
    destruct (shouldBlockMove g1 t p) eqn:Hmove.
    + pose proof (shouldBlockMove_playing g1 t p Hmove) as Hplaying1.
      set (g2 := store_top g1 (moveBlock t deltaTime)) in Hupd.
      assert (H12 : same_view g1 g2).
      { apply (same_view_store_top g1 base p t); [exact Hstack1 | |].
        - apply Frame.uid_moveBlock.
        - apply Frame.direction_moveBlock. }
      assert (Hinv2 : invariant g2) by exact (same_view_invariant g1 g2 H12 Hinv1).
      assert (HP2 : P g2)
        by exact (P_move g1 base p t deltaTime Hinv1 HP1 Hstack1 Hplaying1).
      destruct (isOutOfBounds (moveBlock t deltaTime)).
      * assert (Hstack2 : stack g2 = (base ++ [p]) ++ [moveBlock t deltaTime]).
        { unfold g2. rewrite (stack_store_top g1 base p t _ Hstack1).
          now rewrite <- app_assoc. }
        assert (Hplaying2 : isGameEnded g2 = false)
          by (rewrite (sv_isGameEnded H12); exact Hplaying1).
        destruct (missBlock g2) as [g3 |] eqn:Hm; [| discriminate].
        injection Hupd as <-. apply P_sync.
        exact (P_miss g2 _ _ g3 Hinv2 HP2 Hstack2 Hplaying2 Hm).
      * injection Hupd as <-. apply P_sync. exact HP2.
    + destruct (isAutopilot g1).
      * destruct (splitBlockAndAddNext g1) as [g2 |] eqn:Hsplit; [| discriminate].
        injection Hupd as <-. apply P_sync, P_precision.
        exact (split_preserved g1 g2 Hinv1 HP1 Hsplit).
      * injection Hupd as <-. apply P_sync. exact HP1.
Qed.

Lemma step_preserved (g : GameLogic) (op : Op) (g' : GameLogic) :
  invariant g -> P g -> step g op = Some g' -> P g'.
Proof.
  intros Hinv HP Hstep.
  destruct op as [| | deltaTime random | engine]; simpl in Hstep.
  - injection Hstep as <-. exact (P_startGame g Hinv HP).
  - unfold handleBlockPlacement in Hstep. destruct (isAutopilot g).
    + injection Hstep as <-. exact (P_startGame g Hinv HP).
    + exact (split_preserved g g' Hinv HP Hstep).
  - exact (update_preserved g deltaTime random g' Hinv HP Hstep).
  - injection Hstep as <-. apply P_physics. exact HP.
Qed.

Lemma reachable_preserved (g : GameLogic) : reachable g -> P g.
Proof.
  induction 1 as [random | g op g' Hreach IH Hstep].
  - apply P_fresh.
  - exact (step_preserved g op g' (reachable_invariant g Hreach) IH Hstep).
Qed.

End Preservation.

(** ** The blocks a call creates *)

(** The block [createBlock] returns, field by field. *)
Lemma createBlock_block (g : GameLogic) (x y z w dp : Q)
      (dir : option Direction) (isDynamic : bool) :
  fst (createBlock g x y z w dp dir isDynamic)
  = mkBlock (next_uid g) (mkVec3 x y z) w dp dir
            (Some (mkMesh (mkVec3 w GAME_CONFIG.BOX_HEIGHT dp)
                          (GAME_CONFIG.COLOR_HUE_BASE
                           + inject_Z (Z.of_nat (length (stack g)))
                             * GAME_CONFIG.COLOR_HUE_INCREMENT)
                          (mkVec3 x y z) (mkVec3 1 1 1)))
            (Some (mkBody (if isDynamic
                           then GAME_CONFIG.BOX_FALL_MASS
                                * (w / GAME_CONFIG.ORIGINAL_BOX_SIZE)
                                * (dp / GAME_CONFIG.ORIGINAL_BOX_SIZE)
                           else 0)
                          (mkVec3 (w / 2) (GAME_CONFIG.BOX_HEIGHT / 2) (dp / 2))
                          (mkVec3 x y z)))
            false false.
Proof. reflexivity. Qed.

(** The two blocks [cutAndContinue] creates, as [createBlock] builds them:
    the overhang in a state [g1] and the next layer in a state [g2] whose
    stacks are as high as that of [g]. *)
Lemma cutAndContinue_blocks
      (g : GameLogic) (base : list Block) (p t : Block) (d : Direction)
      (overlap size delta overhangSize : Q) :
  stack g = base ++ [p; t] ->
  direction t = Some d ->
  let kept := keptLayer t overlap size delta in
  let shift := (overlap / 2 + overhangSize / 2) * Math_sign delta in
  exists g1 g2,
    length (stack g1) = length (stack g)
    /\ length (stack g2) = length (stack g)
    /\ next_uid g1 = next_uid g
    /\ next_uid g2 = S (next_uid g)
    /\ overhangs (cutAndContinue g t overlap size delta overhangSize d)
       = overhangs g
         ++ [startFalling
               (fst (createBlock
                       g1
                       (if Direction_eqb d DIRECTIONS.X
                        then getPosition kept DIRECTIONS.X + shift
                        else getPosition kept DIRECTIONS.X)
                       (GAME_CONFIG.BOX_HEIGHT
                        * inject_Z (Z.of_nat (length (stack g1)) - 1))
                       (if Direction_eqb d DIRECTIONS.Z
                        then getPosition kept DIRECTIONS.Z + shift
                        else getPosition kept DIRECTIONS.Z)
                       (if Direction_eqb d DIRECTIONS.X
                        then overhangSize else width kept)
                       (if Direction_eqb d DIRECTIONS.Z
                        then overhangSize else depth kept)
                       None true))]
    /\ stack (cutAndContinue g t overlap size delta overhangSize d)
       = base
         ++ [p; kept;
             fst (createBlock
                    g2
                    (if Direction_eqb d DIRECTIONS.X
                     then getPosition kept DIRECTIONS.X else -10)
                    (GAME_CONFIG.BOX_HEIGHT
                     * inject_Z (Z.of_nat (length (stack g2))))
                    (if Direction_eqb d DIRECTIONS.Z
                     then getPosition kept DIRECTIONS.Z else -10)
                    (width kept) (depth kept)
                    (Some (Geometry.opposite d)) false)].
Proof.
  intros Hstack Hdir kept shift.
  assert (E : forall nx,
             base ++ [p; kept; nx]
             = store_at (stack g) (length (stack g) - 1) kept ++ [nx]).
  { intro nx. rewrite Hstack, store_at_top, <- app_assoc. reflexivity. }
  eexists. eexists.
  split; [| split; [| split; [| split; [| split]]]].
  5: reflexivity.
  5: rewrite E; destruct d; reflexivity.
  - cbn [stack store_top set_stack]. apply Frame.length_store_at.
  - cbn [stack addOverhang createBlock PhysicsManager.createBoxBody
         RenderManager.addToScene set_overhangs set_score emit
         set_scene_meshes set_world_bodies set_next_uid store_top set_stack].
    apply Frame.length_store_at.
  - reflexivity.
  - reflexivity.
Qed.

(** ** Consistency of the blocks of the stack *)

Lemma nth_error_snoc (l : list Block) (a b : Block) (i : nat) :
  nth_error (l ++ [a]) i = Some b ->
  nth_error l i = Some b \/ (i = length l /\ b = a).
Proof.
  intro H. destruct (Nat.lt_ge_cases i (length l)) as [Hlt | Hge].
  - left. now rewrite nth_error_app1 in H.
  - right. rewrite nth_error_app2 in H by exact Hge.
    destruct (i - length l)%nat as [| k] eqn:Hk.
    + simpl in H. injection H as <-. split; [lia | reflexivity].
    + simpl in H. destruct k; discriminate.
Qed.

Lemma nth_error_prefix (l : list Block) (a b : Block) (i : nat) :
  nth_error l i = Some b -> nth_error (l ++ [a]) i = Some b.
Proof.
  intro H. rewrite nth_error_app1; [exact H |].
  apply nth_error_Some. rewrite H. discriminate.
Qed.

(** A block fresh from [createBlock] as a layer at index [i]. *)
Lemma layer_consistent_created
      (g : GameLogic) (i : nat) (x z w dp : Q) (dir : option Direction) :
  0 < w -> w <= GAME_CONFIG.ORIGINAL_BOX_SIZE ->
  0 < dp -> dp <= GAME_CONFIG.ORIGINAL_BOX_SIZE ->
  layer_consistent
    i (fst (createBlock g x (GAME_CONFIG.BOX_HEIGHT * inject_Z (Z.of_nat i))
                        z w dp dir false)).
Proof.
  intros Hw Hw' Hd Hd'. rewrite createBlock_block.
  constructor; cbn [mesh physicsBody position width depth isFalling vy].
  - eexists. split; [reflexivity |]. split; [reflexivity |].
    cbn [mesh_geometry mesh_scale vx vy vz].
    split; [left; split; reflexivity |]. split; [split; reflexivity |].
    left; split; reflexivity.
  - eexists. split; [reflexivity |]. repeat split.
  - reflexivity.
  - split; assumption.
  - split; assumption.
  - reflexivity.
Qed.

Lemma uncut_created
      (g : GameLogic) (x y z w dp : Q) (dir : option Direction) (dyn : bool) :
  uncut (fst (createBlock g x y z w dp dir dyn)).
Proof.
  rewrite createBlock_block. eexists. split; [reflexivity |]. split; reflexivity.
Qed.

(** A layer moved along its axis. *)
Lemma layer_consistent_moveBlock (i : nat) (b : Block) (deltaTime : Q) :
  layer_consistent i b -> layer_consistent i (moveBlock b deltaTime).
Proof.
  intros [(m & Hm & Hmp & Hx & Hy & Hz) (p & Hp & Hpp & Hhe & Hmass) Hh Hw Hd Hf].
  unfold moveBlock. destruct (direction b) as [d |] eqn:Hdir.
  - unfold updatePosition. rewrite Hm, Hp.
    constructor; cbn [mesh physicsBody position width depth isFalling option_map].
    + eexists. split; [reflexivity |].
      unfold shift_mesh. cbn [mesh_position mesh_geometry mesh_scale].
      rewrite Hmp. split; [reflexivity |]. split; [exact Hx |].
      split; [exact Hy | exact Hz].
    + eexists. split; [reflexivity |].
      unfold shift_body. cbn [body_position body_halfExtents body_mass].
      rewrite Hpp. repeat split; assumption.
    + destruct d; exact Hh.
    + exact Hw.
    + exact Hd.
    + exact Hf.
  - constructor; try assumption.
    + exists m. split; [exact Hm |]. split; [exact Hmp |]. split; [exact Hx |].
      split; [exact Hy | exact Hz].
    + exists p. repeat split; assumption.
Qed.

Lemma uncut_moveBlock (b : Block) (deltaTime : Q) :
  uncut b -> uncut (moveBlock b deltaTime).
Proof.
  intros (m & Hm & Hs & Hg).
  unfold moveBlock. destruct (direction b) as [d |]; [| now exists m].
  unfold updatePosition. rewrite Hm. eexists.
  cbn [mesh option_map width depth]. split; [reflexivity |].
  unfold shift_mesh. cbn [mesh_scale mesh_geometry]. now split.
Qed.

Lemma extents_moveBlock (b : Block) (deltaTime : Q) :
  width (moveBlock b deltaTime) = width b
  /\ depth (moveBlock b deltaTime) = depth b.
Proof. unfold moveBlock. destruct (direction b); split; reflexivity. Qed.

(** A layer cut along its axis, when the cut leaves something. *)
Lemma layer_consistent_keptLayer
      (i : nat) (t : Block) (d : Direction) (overlap delta : Q) :
  layer_consistent i t -> uncut t -> direction t = Some d ->
  0 < overlap -> overlap <= getSize t (Some d) ->
  layer_consistent i (keptLayer t overlap (getSize t (Some d)) delta).
Proof.
  intros [(m & Hm & Hmp & Hx & Hy & Hz) (p & Hp & Hpp & Hhe & Hmass) Hh Hw Hd Hf]
         (m' & Hm' & Hscale & Hgeom) Hdir Hpos Hle.
  rewrite Hm in Hm'. injection Hm' as <-.
  unfold keptLayer, cut, PhysicsManager.updateBodyShape.
  rewrite Hdir, Hm, Hp.
  cbn [physicsBody option_map width depth position mesh uid direction isMoving
       isFalling].
  constructor; cbn [mesh physicsBody position width depth isFalling].
  - eexists. split; [reflexivity |].
    cbn [mesh_position mesh_geometry mesh_scale]. rewrite Hmp, Hgeom, Hscale.
    split; [reflexivity |].
    destruct d; cbn [getSize Direction_eqb set_coord coord vx vy vz] in *.
    + split; [right; reflexivity |]. split; [split; reflexivity |].
      left; split; reflexivity.
    + split; [left; split; reflexivity |]. split; [split; reflexivity |].
      right; reflexivity.
  - eexists. split; [reflexivity |].
    cbn [body_position body_halfExtents body_mass]. rewrite Hpp.
    repeat split. exact Hmass.
  - destruct d; exact Hh.
  - destruct d; cbn [getSize Direction_eqb] in *; [split; lra | exact Hw].
  - destruct d; cbn [getSize Direction_eqb] in *; [exact Hd | split; lra].
  - exact Hf.
Qed.

Section StackLists.

Variables (l : list Block) (b : Block).

Lemma layers_consistent_snoc :
  layers_consistent l -> layer_consistent (length l) b ->
  layers_consistent (l ++ [b]).
Proof.
  intros Hl Hb i c Hnth.
  destruct (nth_error_snoc l b c i Hnth) as [H | [-> ->]]; [now apply Hl | exact Hb].
Qed.

Lemma layers_consistent_init :
  layers_consistent (l ++ [b]) ->
  layers_consistent l /\ layer_consistent (length l) b.
Proof.
  intro H. split.
  - intros i c Hnth. apply H. now apply nth_error_prefix.
  - apply H. rewrite nth_error_app2 by lia. now rewrite Nat.sub_diag.
Qed.

Lemma tapers_init : tapers (l ++ [b]) -> tapers l.
Proof.
  intros H i lower upper Hl Hu.
  apply (H i); now apply nth_error_prefix.
Qed.

Lemma tapers_last (l0 : list Block) (a : Block) :
  l = l0 ++ [a] -> tapers (l ++ [b]) ->
  width b <= width a /\ depth b <= depth a.
Proof.
  intros -> H. apply (H (length l0)).
  - rewrite <- app_assoc, nth_error_app2 by lia. now rewrite Nat.sub_diag.
  - assert (Hlen : length (l0 ++ [a]) = S (length l0))
      by (rewrite length_app; simpl; lia).
    rewrite nth_error_app2 by lia.
    rewrite Hlen, Nat.sub_diag. reflexivity.
Qed.

Lemma tapers_snoc :
  tapers l ->
  (forall (l0 : list Block) (a : Block),
      l = l0 ++ [a] -> width b <= width a /\ depth b <= depth a) ->
  tapers (l ++ [b]).
Proof.
  intros Hl Hb i lower upper Hlo Hup.
  destruct (nth_error_snoc l b upper (S i) Hup) as [Hup' | [Hi ->]].
  - destruct (nth_error_snoc l b lower i Hlo) as [Hlo' | [Hi _]].
    + exact (Hl i lower upper Hlo' Hup').
    + assert (S i < length l)%nat by (apply nth_error_Some; rewrite Hup'; discriminate).
      lia.
  - destruct (nth_error_snoc l b lower i Hlo) as [Hlo' | [Hi' _]]; [| lia].
    destruct (exists_last (l := l)) as (l0 & a & El).
    { intros ->. destruct i; discriminate. }
    assert (Ea : a = lower).
    { rewrite El in Hlo', Hi. rewrite length_app in Hi. simpl in Hi.
      rewrite nth_error_app2 in Hlo' by lia.
      replace (i - length l0)%nat with 0%nat in Hlo' by lia.
      simpl in Hlo'. now injection Hlo'. }
    rewrite <- Ea. exact (Hb l0 a El).
Qed.

End StackLists.

Lemma stack_consistent_seeds (g : GameLogic) (b0 b1 : Block) :
  stack g = [b0; b1] ->
  layer_consistent 0 b0 -> layer_consistent 1 b1 -> uncut b1 ->
  width b1 = width b0 -> depth b1 = depth b0 ->
  stack_consistent g.
Proof.
  intros Hstack H0 H1 Hu Hw Hd.
  constructor; rewrite ?Hstack.
  - intros [| [| i]] b Hnth; simpl in Hnth.
    + now injection Hnth as <-.
    + now injection Hnth as <-.
    + destruct i; discriminate.
  - intros _ base p t E.
    change [b0; b1] with ([] ++ [b0; b1]) in E.
    change (base ++ [p; t]) with (base ++ [p] ++ [t]) in E.
    change ([] ++ [b0; b1]) with ([b0] ++ [b1]) in E.
    rewrite app_assoc in E. apply app_inj_tail in E. destruct E as [E <-].
    change [b0] with ([] ++ [b0]) in E. apply app_inj_tail in E.
    destruct E as [_ <-]. repeat split; assumption.
  - intros [| [| i]] lower upper Hlo Hup; simpl in Hlo, Hup.
    + injection Hlo as <-. injection Hup as <-. rewrite Hw, Hd.
      split; apply Qle_refl.
    + discriminate Hup.
    + destruct i; discriminate.
Qed.

Lemma stack_consistent_startGame (g : GameLogic) : stack_consistent (startGame g).
Proof.
  assert (H : exists b0 b1,
             stack (startGame g) = [b0; b1]
             /\ layer_consistent 0 b0 /\ layer_consistent 1 b1 /\ uncut b1
             /\ width b1 = width b0 /\ depth b1 = depth b0).
  { eexists. eexists. split; [cbv; reflexivity |].
    split; [| split; [| split; [| split; reflexivity]]].
    - constructor; cbn.
      + eexists. split; [reflexivity |]. cbn.
        repeat split; try reflexivity; left; split; reflexivity.
      + eexists. split; [reflexivity |]. cbn. repeat split; reflexivity.
      + reflexivity.
      + split; [reflexivity | discriminate].
      + split; [reflexivity | discriminate].
      + reflexivity.
    - constructor; cbn.
      + eexists. split; [reflexivity |]. cbn.
        repeat split; try reflexivity; left; split; reflexivity.
      + eexists. split; [reflexivity |]. cbn. repeat split; reflexivity.
      + reflexivity.
      + split; [reflexivity | discriminate].
      + split; [reflexivity | discriminate].
      + reflexivity.
    - eexists. split; [reflexivity |]. split; reflexivity. }
  destruct H as (b0 & b1 & Hs & H0 & H1 & Hu & Hw & Hd).
  exact (stack_consistent_seeds _ b0 b1 Hs H0 H1 Hu Hw Hd).
Qed.

Lemma stack_consistent_fresh (random : Q) : stack_consistent (fresh random).
Proof.
  assert (H : exists b0 b1,
             stack (fresh random) = [b0; b1]
             /\ layer_consistent 0 b0 /\ layer_consistent 1 b1 /\ uncut b1
             /\ width b1 = width b0 /\ depth b1 = depth b0).
  { eexists. eexists. split; [cbv; reflexivity |].
    split; [| split; [| split; [| split; reflexivity]]].
    - constructor; cbn.
      + eexists. split; [reflexivity |]. cbn.
        repeat split; try reflexivity; left; split; reflexivity.
      + eexists. split; [reflexivity |]. cbn. repeat split; reflexivity.
      + reflexivity.
      + split; [reflexivity | discriminate].
      + split; [reflexivity | discriminate].
      + reflexivity.
    - constructor; cbn.
      + eexists. split; [reflexivity |]. cbn.
        repeat split; try reflexivity; left; split; reflexivity.
      + eexists. split; [reflexivity |]. cbn. repeat split; reflexivity.
      + reflexivity.
      + split; [reflexivity | discriminate].
      + split; [reflexivity | discriminate].
      + reflexivity.
    - eexists. split; [reflexivity |]. split; reflexivity. }
  destruct H as (b0 & b1 & Hs & H0 & H1 & Hu & Hw & Hd).
  exact (stack_consistent_seeds _ b0 b1 Hs H0 H1 Hu Hw Hd).
Qed.

Lemma stack_consistent_same_stack (g g' : GameLogic) :
  stack g' = stack g -> isGameEnded g' = isGameEnded g ->
  stack_consistent g -> stack_consistent g'.
Proof.
  intros Hs He [Hl Ht Hp]. constructor; rewrite ?Hs, ?He; assumption.
Qed.

Lemma two_top_inj (base base' : list Block) (p p' t t' : Block) :
  base ++ [p; t] = base' ++ [p'; t'] -> base = base' /\ p = p' /\ t = t'.
Proof.
  intro E.
  change (base ++ [p; t]) with (base ++ [p] ++ [t]) in E.
  change (base' ++ [p'; t']) with (base' ++ [p'] ++ [t']) in E.
  rewrite !app_assoc in E.
  apply app_inj_tail in E. destruct E as [E Et].
  apply app_inj_tail in E. destruct E as [E Ep]. auto.
Qed.

Lemma extents_keptLayer (t : Block) (d : Direction) (overlap delta : Q) :
  direction t = Some d -> overlap <= getSize t (Some d) ->
  width (keptLayer t overlap (getSize t (Some d)) delta) <= width t
  /\ depth (keptLayer t overlap (getSize t (Some d)) delta) <= depth t.
Proof.
  intros Hdir Hle. unfold keptLayer. cbv zeta.
  rewrite Frame.width_updateBodyShape, Frame.depth_updateBodyShape.
  unfold cut. rewrite Hdir.
  destruct d; cbn [width depth Direction_eqb getSize] in *;
    split; try apply Qle_refl; exact Hle.
Qed.

Lemma overlap_le_size (t p : Block) (d : Direction) :
  Geometry.overlap t p d <= getSize t (Some d).
Proof.
  unfold Geometry.overlap, Geometry.size, Geometry.overhangSize, Math_abs.
  pose proof (Qabs_nonneg (Geometry.delta t p d)). lra.
Qed.

Lemma stack_consistent_cut
      (g : GameLogic) (base : list Block) (p t : Block) (d : Direction) :
  stack_consistent g ->
  stack g = base ++ [p; t] -> isGameEnded g = false ->
  direction t = Some d -> 0 < Geometry.overlap t p d ->
  stack_consistent
    (cutAndContinue g t (Geometry.overlap t p d) (Geometry.size t d)
                    (Geometry.delta t p d) (Geometry.overhangSize t p d) d).
Proof.
  intros [Hl Ht Hp] Hstack Hplaying Hdir Hpos.
  destruct (Ht Hplaying base p t Hstack) as (Hu & Hw & Hd).
  pose proof (overlap_le_size t p d) as Hle.
  destruct (cutAndContinue_blocks g base p t d (Geometry.overlap t p d)
              (Geometry.size t d) (Geometry.delta t p d)
              (Geometry.overhangSize t p d) Hstack Hdir)
    as (g1 & g2 & _ & Hlen2 & _ & _ & _ & Hs).
  cbv zeta in Hs. unfold Geometry.size in Hs |- *.
  set (kept := keptLayer t (Geometry.overlap t p d) (getSize t (Some d))
                         (Geometry.delta t p d)) in *.
  set (next := fst (createBlock g2 _ _ _ (width kept) (depth kept) _ false)) in Hs.
  assert (Hstack' : stack g = (base ++ [p]) ++ [t]) by (now rewrite <- app_assoc).
  rewrite Hstack' in Hl, Hp.
  destruct (layers_consistent_init _ _ Hl) as [Hl0 Hlt].
  assert (Hk : layer_consistent (length (base ++ [p])) kept)
    by exact (layer_consistent_keptLayer _ t d _ _ Hlt Hu Hdir Hpos Hle).
  destruct (extents_keptLayer t d (Geometry.overlap t p d) (Geometry.delta t p d)
                              Hdir Hle) as [Hkw Hkd].
  fold kept in Hkw, Hkd.
  assert (Hidx : length (stack g2) = length ((base ++ [p]) ++ [kept])).
  { rewrite Hlen2, Hstack', !length_app. reflexivity. }
  assert (Hn : layer_consistent (length ((base ++ [p]) ++ [kept])) next).
  { unfold next. rewrite Hidx.
    apply layer_consistent_created;
      [exact (proj1 (lc_width Hk)) | exact (proj2 (lc_width Hk))
       | exact (proj1 (lc_depth Hk)) | exact (proj2 (lc_depth Hk))]. }
  assert (Hs' : stack (cutAndContinue g t (Geometry.overlap t p d)
                                      (getSize t (Some d)) (Geometry.delta t p d)
                                      (Geometry.overhangSize t p d) d)
                = ((base ++ [p]) ++ [kept]) ++ [next]).
  { rewrite Hs, <- !app_assoc. reflexivity. }
  constructor.
  - rewrite Hs'. apply layers_consistent_snoc; [| exact Hn].
    apply layers_consistent_snoc; assumption.
  - intros _ base' p' t' E. rewrite Hs in E.
    change (base ++ [p; kept; next]) with (base ++ [p] ++ [kept; next]) in E.
    rewrite app_assoc in E.
    apply two_top_inj in E. destruct E as (_ & <- & <-).
    split; [apply uncut_created |].
    unfold next. rewrite createBlock_block. split; reflexivity.
  - rewrite Hs'. apply tapers_snoc.
    + apply tapers_snoc; [exact (tapers_init _ _ Hp) |].
      intros l0 a E. apply app_inj_tail in E. destruct E as [_ <-].
      rewrite <- Hw, <- Hd. split; assumption.
    + intros l0 a E. apply app_inj_tail in E. destruct E as [_ <-].
      unfold next. rewrite createBlock_block. split; apply Qle_refl.
Qed.

Lemma stack_consistent_miss (g : GameLogic) (init : list Block) (t : Block)
      (g' : GameLogic) :
  stack_consistent g -> stack g = init ++ [t] -> missBlock g = Some g' ->
  stack_consistent g'.
Proof.
  intros [Hl _ Hp] Hstack Hmiss.
  destruct (missBlock_effect g init t Hstack) as (g1 & overhang & Hm & E).
  rewrite Hmiss in Hm. injection Hm as <-.
  rewrite Hstack in Hl, Hp.
  constructor; rewrite ?(me_stack E).
  - exact (proj1 (layers_consistent_init _ _ Hl)).
  - rewrite (me_isGameEnded E). discriminate.
  - exact (tapers_init _ _ Hp).
Qed.

Lemma stack_consistent_move
      (g : GameLogic) (base : list Block) (p t : Block) (deltaTime : Q) :
  stack_consistent g -> stack g = base ++ [p; t] -> isGameEnded g = false ->
  stack_consistent (store_top g (moveBlock t deltaTime)).
Proof.
  intros [Hl Ht Hp] Hstack Hplaying.
  destruct (Ht Hplaying base p t Hstack) as (Hu & Hw & Hd).
  destruct (extents_moveBlock t deltaTime) as [Hmw Hmd].
  assert (Hstack' : stack g = (base ++ [p]) ++ [t]) by (now rewrite <- app_assoc).
  rewrite Hstack' in Hl, Hp.
  destruct (layers_consistent_init _ _ Hl) as [Hl0 Hlt].
  assert (Hs : stack (store_top g (moveBlock t deltaTime))
               = (base ++ [p]) ++ [moveBlock t deltaTime]).
  { rewrite (stack_store_top g base p t _ Hstack). now rewrite <- app_assoc. }
  constructor.
  - rewrite Hs. apply layers_consistent_snoc; [exact Hl0 |].
    now apply layer_consistent_moveBlock.
  - intros _ base' p' t' E. rewrite Hs, <- app_assoc in E.
    apply two_top_inj in E. destruct E as (_ & <- & <-).
    split; [now apply uncut_moveBlock |]. rewrite Hmw, Hmd. now split.
  - rewrite Hs. apply tapers_snoc; [exact (tapers_init _ _ Hp) |].
    intros l0 a E. apply app_inj_tail in E. destruct E as [_ <-].
    rewrite Hmw, Hmd, Hw, Hd. split; apply Qle_refl.
Qed.

(** Every reachable state has a consistent stack. *)
Lemma reachable_stack_consistent (g : GameLogic) :
  reachable g -> stack_consistent g.
Proof.
  apply reachable_preserved.
  - exact stack_consistent_fresh.
  - intros g0 _ _. apply stack_consistent_startGame.
  - intros g0 base p t d _ H Hs He Hd Hpos.
    exact (stack_consistent_cut g0 base p t d H Hs He Hd Hpos).
  - intros g0 init t g' _ H Hs _ Hm.
    exact (stack_consistent_miss g0 init t g' H Hs Hm).
  - intros g0 base p t dt _ H Hs He.
    exact (stack_consistent_move g0 base p t dt H Hs He).
  - intros g0 y dt H.
    apply (stack_consistent_same_stack g0); [| | exact H].
    + apply stack_updateCameraPosition.
    + exact (sv_isGameEnded (same_view_updateCameraPosition g0 y dt)).
  - intros g0 r H. now apply (stack_consistent_same_stack g0).
  - intros g0 H. now apply (stack_consistent_same_stack g0).
  - intros g0 e H. now apply (stack_consistent_same_stack g0).
Qed.

(** X1. In every reachable state each layer of the stack has a mesh and a
    body that sit exactly where the block is, whatever moves and cuts it went
    through; the body is static (mass 0) and its box has half the width, half
    the height and half the depth of the block. *)
Theorem layers_mesh_and_body_follow_block (g : GameLogic) (i : nat) (b : Block) :
  reachable g ->
  nth_error (stack g) i = Some b ->
  exists (m : Mesh) (p : Body),
    mesh b = Some m
    /\ physicsBody b = Some p
    /\ mesh_position m = position b
    /\ body_position p = position b
    /\ body_halfExtents p
       = mkVec3 (width b / 2) (GAME_CONFIG.BOX_HEIGHT / 2) (depth b / 2)
    /\ body_mass p = 0.
Proof.
  intros Hreach Hnth.
  pose proof (sc_layers (reachable_stack_consistent g Hreach)) as Hl.
  destruct (Hl i b Hnth)
    as [(m & Hm & Hmp & _) (p & Hp & Hpp & Hhe & Hmass) _ _ _ _].
  exists m, p. repeat split; assumption.
Qed.

Lemma layers_mesh_and_body_follow_block_witness :
  reachable Scenario.two_placed
  /\ exists b : Block,
       nth_error (stack Scenario.two_placed) 2 = Some b
       /\ exists (m : Mesh) (p : Body),
            mesh b = Some m
            /\ physicsBody b = Some p
            /\ mesh_position m = position b
            /\ body_position p = position b
            /\ body_halfExtents p
               = mkVec3 (width b / 2) (GAME_CONFIG.BOX_HEIGHT / 2) (depth b / 2)
            /\ body_mass p = 0.
Proof.
  split; [exact reachable_two_placed |].
  eexists. split; [reflexivity |].
  exact (layers_mesh_and_body_follow_block _ 2 _ reachable_two_placed eq_refl).
Defined.

(** X2. In every reachable state each layer of the stack is drawn with the
    box it was created with: the mesh has scale 1 and a geometry of
    [BOX_HEIGHT] along the height; along 'x', and along 'z', either the
    scale is 1 and the geometry has the extent of the block, or the block
    was cut along that axis and the scale is the quotient [cut] has set, the
    extent of the block over the extent of the geometry. *)
Theorem layers_drawn_scaled_by_cut (g : GameLogic) (i : nat) (b : Block) :
  reachable g ->
  nth_error (stack g) i = Some b ->
  exists m : Mesh,
    mesh b = Some m
    /\ drawn (vx (mesh_geometry m)) (vx (mesh_scale m)) (width b)
    /\ vy (mesh_scale m) = 1
    /\ vy (mesh_geometry m) = GAME_CONFIG.BOX_HEIGHT
    /\ drawn (vz (mesh_geometry m)) (vz (mesh_scale m)) (depth b).
Proof.
  intros Hreach Hnth.
  pose proof (sc_layers (reachable_stack_consistent g Hreach)) as Hl.
  destruct (Hl i b Hnth) as [(m & Hm & _ & Hx & [Hy Hy'] & Hz) _ _ _ _ _].
  exists m. repeat split; assumption.
Qed.

Lemma layers_drawn_scaled_by_cut_witness :
  reachable Scenario.offset_one
  /\ exists g' b,
       step Scenario.offset_one OpHandleBlockPlacement = Some g'
       /\ nth_error (stack g') 1 = Some b
       /\ width b == 2
       /\ exists m : Mesh,
            mesh b = Some m
            /\ vx (mesh_geometry m) == 3
            /\ vx (mesh_scale m) == 2 # 3
            /\ drawn (vx (mesh_geometry m)) (vx (mesh_scale m)) (width b).
Proof.
  split; [exact reachable_offset_one |].
  eexists. eexists. split; [vm_compute; reflexivity |].
  split; [reflexivity |]. split; [reflexivity |].
  assert (Hreach : reachable
                     (Scenario.force Scenario.offset_one
                        (step Scenario.offset_one OpHandleBlockPlacement)))
    by (apply (reachable_step Scenario.offset_one OpHandleBlockPlacement);
        [exact reachable_offset_one | vm_compute; reflexivity]).
  destruct (layers_drawn_scaled_by_cut _ 1 _ Hreach eq_refl)
    as (m & Hm & Hx & _).
  exists m. split; [exact Hm |].
  vm_compute in Hm. injection Hm as <-.
  split; [reflexivity |]. split; [reflexivity | exact Hx].
Defined.

(** X3. In every reachable state the layer at index [i] of the stack is at
    height [BOX_HEIGHT * i]: the layers are piled without gaps, and neither a
    move nor a cut changes the height of a layer. *)
Theorem layers_piled_by_index (g : GameLogic) (i : nat) (b : Block) :
  reachable g ->
  nth_error (stack g) i = Some b ->
  vy (position b) = GAME_CONFIG.BOX_HEIGHT * inject_Z (Z.of_nat i).
Proof.
  intros Hreach Hnth.
  pose proof (sc_layers (reachable_stack_consistent g Hreach)) as Hl.
  exact (lc_height (Hl i b Hnth)).
Qed.

Lemma layers_piled_by_index_witness :
  reachable Scenario.two_placed
  /\ exists b : Block,
       nth_error (stack Scenario.two_placed) 3 = Some b
       /\ vy (position b) = GAME_CONFIG.BOX_HEIGHT * inject_Z (Z.of_nat 3).
Proof.
  split; [exact reachable_two_placed |].
  eexists. split; [reflexivity |].
  exact (layers_piled_by_index _ 3 _ reachable_two_placed eq_refl).
Defined.

(** X4. In every reachable state every layer of the stack has positive width
    and depth, at most [ORIGINAL_BOX_SIZE], and no layer is wider or deeper
    than the layer below it: a cut never leaves an empty block and the tower
    never widens. *)
Theorem tower_tapers (g : GameLogic) :
  reachable g ->
  (forall (i : nat) (b : Block),
      nth_error (stack g) i = Some b ->
      0 < width b /\ width b <= GAME_CONFIG.ORIGINAL_BOX_SIZE
      /\ 0 < depth b /\ depth b <= GAME_CONFIG.ORIGINAL_BOX_SIZE)
  /\ tapers (stack g).
Proof.
  intro Hreach.
  pose proof (reachable_stack_consistent g Hreach) as [Hl _ Hp].
  split; [| exact Hp].
  intros i b Hnth. destruct (Hl i b Hnth) as [_ _ _ [Hw Hw'] [Hd Hd'] _].
  repeat split; assumption.
Qed.

Lemma tower_tapers_witness :
  reachable Scenario.two_placed
  /\ (forall (i : nat) (b : Block),
         nth_error (stack Scenario.two_placed) i = Some b ->
         0 < width b /\ width b <= GAME_CONFIG.ORIGINAL_BOX_SIZE
         /\ 0 < depth b /\ depth b <= GAME_CONFIG.ORIGINAL_BOX_SIZE)
  /\ tapers (stack Scenario.two_placed).
Proof.
  split; [exact reachable_two_placed |].
  exact (tower_tapers _ reachable_two_placed).
Defined.

(** X5. In a reachable running game the sliding layer has the width and the
    depth of the layer below it: each layer is created with the extents the
    cut has left to the one before.  So the extent a placement compares with
    the offset of the two layers is the extent of either. *)
Theorem sliding_layer_has_extents_of_layer_below
        (g : GameLogic) (base : list Block) (previousLayer topLayer : Block) :
  reachable g ->
  stack g = base ++ [previousLayer; topLayer] ->
  isGameEnded g = false ->
  width topLayer = width previousLayer
  /\ depth topLayer = depth previousLayer
  /\ forall d : Direction,
       Geometry.overlap topLayer previousLayer d
       = getSize previousLayer (Some d)
         - Math_abs (getPosition topLayer d - getPosition previousLayer d).
Proof.
  intros Hreach Hstack Hplaying.
  destruct (sc_top (reachable_stack_consistent g Hreach) Hplaying
                   base previousLayer topLayer Hstack) as (_ & Hw & Hd).
  split; [exact Hw |]. split; [exact Hd |].
  intro d. unfold Geometry.overlap, Geometry.size, Geometry.overhangSize,
             Geometry.delta.
  destruct d; cbn [getSize]; [rewrite Hw | rewrite Hd]; reflexivity.
Qed.

Lemma sliding_layer_has_extents_of_layer_below_witness :
  reachable Scenario.two_placed
  /\ (exists base previousLayer topLayer,
         stack Scenario.two_placed = base ++ [previousLayer; topLayer]
         /\ isGameEnded Scenario.two_placed = false
         /\ width topLayer = width previousLayer
         /\ depth topLayer = depth previousLayer).
Proof.
  split; [exact reachable_two_placed |].
  assert (H : exists base previousLayer topLayer,
             stack Scenario.two_placed = base ++ [previousLayer; topLayer])
    by (exists (firstn 2 (stack Scenario.two_placed)); eexists; eexists; reflexivity).
  destruct H as (base & p & t & Hs).
  assert (He : isGameEnded Scenario.two_placed = false) by reflexivity.
  exists base, p, t. split; [exact Hs |]. split; [exact He |].
  destruct (sliding_layer_has_extents_of_layer_below
              Scenario.two_placed base p t reachable_two_placed Hs He)
    as (Hw & Hd & _).
  split; assumption.
Defined.

(** ** One frame of [update] *)

(** [updateCameraPosition] touches the camera only. *)
Lemma updateCameraPosition_fields (g : GameLogic) (targetY deltaTime : Q) :
  let g1 := RenderManager.updateCameraPosition g targetY deltaTime in
  stack g1 = stack g /\ overhangs g1 = overhangs g
  /\ isAutopilot g1 = isAutopilot g /\ isGameEnded g1 = isGameEnded g
  /\ score g1 = score g /\ robotPrecision g1 = robotPrecision g
  /\ world_bodies g1 = world_bodies g /\ scene_meshes g1 = scene_meshes g
  /\ disposed g1 = disposed g /\ emitted g1 = emitted g
  /\ next_uid g1 = next_uid g.
Proof.
  unfold RenderManager.updateCameraPosition.
  destruct (Qltb (camera_y g) (targetY + 4)); cbv zeta; repeat split.
Qed.

Lemma isOutOfBounds_moveBlock (t : Block) (d : Direction) (deltaTime : Q) :
  direction t = Some d ->
  isOutOfBounds (moveBlock t deltaTime)
  = Qltb 10 (Qabs (getPosition t d + GAME_CONFIG.MOVEMENT_SPEED * deltaTime)).
Proof.
  intro Hdir. unfold isOutOfBounds.
  rewrite Frame.direction_moveBlock, Hdir.
  unfold moveBlock. rewrite Hdir. unfold Math_abs. now destruct d.
Qed.

(** X6. In a running game that is not in autopilot, a frame whose move keeps
    the sliding layer within 10 of the origin moves it by
    [MOVEMENT_SPEED * deltaTime] along its axis, mesh and body included, and
    changes nothing else of the stack, the score, the phase, the physics
    world, the scene or the events. *)
Theorem update_slides_top_layer
        (g : GameLogic) (base : list Block) (previousLayer topLayer : Block)
        (d : Direction) (deltaTime random : Q) :
  stack g = base ++ [previousLayer; topLayer] ->
  isGameEnded g = false ->
  isAutopilot g = false ->
  direction topLayer = Some d ->
  Qabs (getPosition topLayer d + GAME_CONFIG.MOVEMENT_SPEED * deltaTime) <= 10 ->
  exists g' moved,
    update g deltaTime random = Some g'
    /\ stack g' = base ++ [previousLayer; moved]
    /\ moved = updatePosition topLayer d (GAME_CONFIG.MOVEMENT_SPEED * deltaTime)
    /\ getPosition moved d
       = getPosition topLayer d + GAME_CONFIG.MOVEMENT_SPEED * deltaTime
    /\ getPosition moved (Geometry.opposite d)
       = getPosition topLayer (Geometry.opposite d)
    /\ vy (position moved) = vy (position topLayer)
    /\ width moved = width topLayer
    /\ depth moved = depth topLayer
    /\ uid moved = uid topLayer
    /\ isGameEnded g' = false
    /\ score g' = score g
    /\ map uid (overhangs g') = map uid (overhangs g)
    /\ world_bodies g' = world_bodies g
    /\ scene_meshes g' = scene_meshes g
    /\ emitted g' = emitted g.
Proof.
  intros Hstack Hplaying Hhuman Hdir Hin.
  rewrite (update_unfold g deltaTime random base previousLayer topLayer Hstack).
  cbv zeta.
  set (g1 := RenderManager.updateCameraPosition g _ deltaTime).
  destruct (updateCameraPosition_fields
              g (GAME_CONFIG.BOX_HEIGHT * inject_Z (Z.of_nat (length (stack g)) - 2))
              deltaTime)
    as (Hs1 & Ho1 & Ha1 & He1 & Hsc1 & _ & Hw1 & Hm1 & _ & Hem1 & _).
  fold g1 in Hs1, Ho1, Ha1, He1, Hsc1, Hw1, Hm1, Hem1.
  assert (Hmove : shouldBlockMove g1 topLayer previousLayer = true)
    by (unfold shouldBlockMove; rewrite He1, Hplaying, Ha1, Hhuman; reflexivity).
  rewrite Hmove, (isOutOfBounds_moveBlock topLayer d deltaTime Hdir).
  apply Qltb_ge in Hin. rewrite Hin.
  assert (Hmoved : moveBlock topLayer deltaTime
                   = updatePosition topLayer d
                                    (GAME_CONFIG.MOVEMENT_SPEED * deltaTime))
    by (unfold moveBlock; rewrite Hdir; reflexivity).
  rewrite Hmoved.
  eexists. eexists. split; [reflexivity |].
  split.
  { change (stack (updateOverhangs (store_top g1 ?b))) with (stack (store_top g1 b)).
    apply (stack_store_top g1 base previousLayer topLayer).
    rewrite Hs1. exact Hstack. }
  split; [reflexivity |].
  split; [destruct d; reflexivity |].
  split; [destruct d; reflexivity |].
  split; [destruct d; reflexivity |].
  do 3 (split; [reflexivity |]).
  split; [exact (eq_trans He1 Hplaying) |].
  split; [exact Hsc1 |].
  split.
  { change (overhangs (updateOverhangs (store_top g1 ?b)))
      with (map updateFromPhysics (overhangs g1)).
    rewrite map_map, Ho1. apply map_ext. exact Frame.uid_updateFromPhysics. }
  split; [exact Hw1 |]. split; [exact Hm1 | exact Hem1].
Qed.

Lemma update_slides_top_layer_witness :
  stack Scenario.start = [] ++ [Scenario.offset_one_base; nth 1 (stack Scenario.start) Scenario.no_block]
  /\ isGameEnded Scenario.start = false
  /\ isAutopilot Scenario.start = false
  /\ direction (nth 1 (stack Scenario.start) Scenario.no_block) = Some DIRECTIONS.X
  /\ Qabs (getPosition (nth 1 (stack Scenario.start) Scenario.no_block) DIRECTIONS.X
           + GAME_CONFIG.MOVEMENT_SPEED * 1375) <= 10
  /\ exists g' moved,
       update Scenario.start 1375 0 = Some g'
       /\ stack g' = [] ++ [Scenario.offset_one_base; moved]
       /\ getPosition moved DIRECTIONS.X
          = getPosition (nth 1 (stack Scenario.start) Scenario.no_block) DIRECTIONS.X
            + GAME_CONFIG.MOVEMENT_SPEED * 1375
       /\ score g' = score Scenario.start.
Proof.
  assert (H1 : stack Scenario.start
               = [] ++ [Scenario.offset_one_base;
                        nth 1 (stack Scenario.start) Scenario.no_block])
    by reflexivity.
  assert (H2 : isGameEnded Scenario.start = false) by reflexivity.
  assert (H3 : isAutopilot Scenario.start = false) by reflexivity.
  assert (H4 : direction (nth 1 (stack Scenario.start) Scenario.no_block)
               = Some DIRECTIONS.X) by reflexivity.
  assert (H5 : Qabs (getPosition (nth 1 (stack Scenario.start) Scenario.no_block)
                                 DIRECTIONS.X
                     + GAME_CONFIG.MOVEMENT_SPEED * 1375) <= 10)
    by (vm_compute; discriminate).
  repeat split; try assumption.
  destruct (update_slides_top_layer _ [] _ _ _ 1375 0 H1 H2 H3 H4 H5)
    as (g' & moved & Hu & Hs & _ & Hp & _ & _ & _ & _ & _ & _ & Hsc & _).
  exists g', moved. repeat split; assumption.
Defined.

Lemma updateFromPhysics_fields (b : Block) :
  position (updateFromPhysics b) = position b
  /\ width (updateFromPhysics b) = width b
  /\ depth (updateFromPhysics b) = depth b
  /\ direction (updateFromPhysics b) = direction b
  /\ physicsBody (updateFromPhysics b) = physicsBody b
  /\ isFalling (updateFromPhysics b) = isFalling b.
Proof.
  unfold updateFromPhysics.
  destruct (physicsBody b) eqn:Hp, (mesh b); cbn; rewrite ?Hp; repeat split.
Qed.

(** X7. In a running game that is not in autopilot, a frame whose move takes
    the sliding layer more than 10 from the origin along its axis ends the
    game: the layer is moved, then leaves the stack and falls as an overhang
    from where the move took it, GAME_OVER is emitted and the score stays. *)
Theorem update_misses_out_of_bounds
        (g : GameLogic) (base : list Block) (previousLayer topLayer : Block)
        (d : Direction) (deltaTime random : Q) :
  stack g = base ++ [previousLayer; topLayer] ->
  isGameEnded g = false ->
  isAutopilot g = false ->
  direction topLayer = Some d ->
  10 < Qabs (getPosition topLayer d + GAME_CONFIG.MOVEMENT_SPEED * deltaTime) ->
  exists g' overhang,
    update g deltaTime random = Some g'
    /\ stack g' = base ++ [previousLayer]
    /\ overhangs g' = map updateFromPhysics (overhangs g) ++ [overhang]
    /\ getPosition overhang d
       = getPosition topLayer d + GAME_CONFIG.MOVEMENT_SPEED * deltaTime
    /\ getPosition overhang (Geometry.opposite d)
       = getPosition topLayer (Geometry.opposite d)
    /\ width overhang = width topLayer
    /\ depth overhang = depth topLayer
    /\ isFalling overhang = true
    /\ isGameEnded g' = true
    /\ score g' = score g
    /\ emitted g' = emitted g ++ [GAME_OVER].
Proof.
  intros Hstack Hplaying Hhuman Hdir Hout.
  rewrite (update_unfold g deltaTime random base previousLayer topLayer Hstack).
  cbv zeta.
  set (g1 := RenderManager.updateCameraPosition g _ deltaTime).
  destruct (updateCameraPosition_fields
              g (GAME_CONFIG.BOX_HEIGHT * inject_Z (Z.of_nat (length (stack g)) - 2))
              deltaTime)
    as (Hs1 & Ho1 & Ha1 & He1 & Hsc1 & _ & _ & _ & _ & Hem1 & _).
  fold g1 in Hs1, Ho1, Ha1, He1, Hsc1, Hem1.
  assert (Hmove : shouldBlockMove g1 topLayer previousLayer = true)
    by (unfold shouldBlockMove; rewrite He1, Hplaying, Ha1, Hhuman; reflexivity).
  rewrite Hmove, (isOutOfBounds_moveBlock topLayer d deltaTime Hdir).
  apply Qltb_lt in Hout. rewrite Hout.
  set (moved := moveBlock topLayer deltaTime).
  assert (Hmoved : moved = updatePosition topLayer d
                                          (GAME_CONFIG.MOVEMENT_SPEED * deltaTime))
    by (unfold moved, moveBlock; rewrite Hdir; reflexivity).
  set (g2 := store_top g1 moved).
  assert (Hstack2 : stack g2 = (base ++ [previousLayer]) ++ [moved]).
  { unfold g2. rewrite (stack_store_top g1 base previousLayer topLayer moved).
    - now rewrite <- app_assoc.
    - rewrite Hs1. exact Hstack. }
  destruct (missBlock_effect g2 _ moved Hstack2) as (g3 & oh & Hm & E).
  rewrite Hm.
  destruct (updateFromPhysics_fields oh) as (Hpos & Hw & Hd & _ & _ & Hf).
  exists (updateOverhangs g3), (updateFromPhysics oh).
  split; [reflexivity |].
  split; [exact (me_stack E) |].
  split.
  { change (overhangs (updateOverhangs g3))
      with (map updateFromPhysics (overhangs g3)).
    rewrite (me_overhangs E), map_app.
    change (overhangs g2) with (overhangs g1). rewrite Ho1. reflexivity. }
  unfold getPosition. rewrite Hpos, Hw, Hd, Hf.
  fold (getPosition oh d). fold (getPosition oh (Geometry.opposite d)).
  split.
  { destruct d; [rewrite (me_overhang_x E) | rewrite (me_overhang_z E)];
      rewrite Hmoved; reflexivity. }
  split.
  { destruct d; cbn [Geometry.opposite];
      [rewrite (me_overhang_z E) | rewrite (me_overhang_x E)];
      rewrite Hmoved; reflexivity. }
  split; [rewrite (me_overhang_width E), Hmoved; reflexivity |].
  split; [rewrite (me_overhang_depth E), Hmoved; reflexivity |].
  split; [exact (me_overhang_falling E) |].
  split; [exact (me_isGameEnded E) |].
  split; [change (score (updateOverhangs g3)) with (score g3);
          rewrite (me_score E); exact Hsc1 |].
  change (emitted (updateOverhangs g3)) with (emitted g3).
  rewrite (me_emitted E).
  change (isAutopilot g2) with (isAutopilot g1). rewrite Ha1, Hhuman.
  change (emitted g2) with (emitted g1). now rewrite Hem1.
Qed.

Lemma update_misses_out_of_bounds_witness :
  stack Scenario.offset_one = [] ++ [Scenario.offset_one_base; Scenario.offset_one_top]
  /\ isGameEnded Scenario.offset_one = false
  /\ isAutopilot Scenario.offset_one = false
  /\ direction Scenario.offset_one_top = Some DIRECTIONS.X
  /\ 10 < Qabs (getPosition Scenario.offset_one_top DIRECTIONS.X
                + GAME_CONFIG.MOVEMENT_SPEED * 1250)
  /\ exists g' overhang,
       update Scenario.offset_one 1250 0 = Some g'
       /\ stack g' = [Scenario.offset_one_base]
       /\ overhangs g' = [overhang]
       /\ getPosition overhang DIRECTIONS.X == 11
       /\ isGameEnded g' = true.
Proof.
  assert (H1 : stack Scenario.offset_one
               = [] ++ [Scenario.offset_one_base; Scenario.offset_one_top])
    by reflexivity.
  assert (H2 : isGameEnded Scenario.offset_one = false) by reflexivity.
  assert (H3 : isAutopilot Scenario.offset_one = false) by reflexivity.
  assert (H4 : direction Scenario.offset_one_top = Some DIRECTIONS.X) by reflexivity.
  assert (H5 : 10 < Qabs (getPosition Scenario.offset_one_top DIRECTIONS.X
                          + GAME_CONFIG.MOVEMENT_SPEED * 1250))
    by reflexivity.
  repeat split; try assumption.
  destruct (update_misses_out_of_bounds _ [] _ _ _ 1250 0 H1 H2 H3 H4 H5)
    as (g' & overhang & Hu & Hs & Ho & Hp & _ & _ & _ & _ & He & _).
  exists g', overhang.
  split; [exact Hu |]. split; [exact Hs |]. split; [exact Ho |].
  split; [rewrite Hp; reflexivity | exact He].
Defined.

(** X8. Once the game has ended nothing but a reset starts it again: a tap
    outside autopilot, a frame (in autopilot too) and a physics step all
    return with the stack, the score, the phase, the mode and the events as
    they were, and with the same overhangs. *)
Theorem ended_game_waits_for_reset (g : GameLogic) (op : Op) :
  isGameEnded g = true ->
  is_reset g op = false ->
  exists g',
    step g op = Some g'
    /\ stack g' = stack g
    /\ isGameEnded g' = true
    /\ isAutopilot g' = isAutopilot g
    /\ score g' = score g
    /\ emitted g' = emitted g
    /\ map uid (overhangs g') = map uid (overhangs g).
Proof.
  intros Hended Hop.
  assert (Hsync : forall g0, map uid (overhangs (updateOverhangs g0))
                             = map uid (overhangs g0)).
  { intro g0. change (overhangs (updateOverhangs g0))
      with (map updateFromPhysics (overhangs g0)).
    rewrite map_map. apply map_ext. exact Frame.uid_updateFromPhysics. }
  destruct op as [| | deltaTime random | engine]; simpl in Hop |- *.
  - discriminate.
  - unfold handleBlockPlacement. rewrite Hop.
    exists g. split; [apply split_skips; now left |]. repeat split; assumption.
  - destruct (Nat.lt_ge_cases (length (stack g)) 2) as [Hshort | Hlen].
    + exists g. unfold update. apply Nat.ltb_lt in Hshort. rewrite Hshort.
      repeat split; assumption.
    + destruct (two_top_inv (stack g) Hlen) as (base & p & t & Hstack).
      rewrite (update_unfold g deltaTime random base p t Hstack). cbv zeta.
      set (g1 := RenderManager.updateCameraPosition g _ deltaTime).
      destruct (updateCameraPosition_fields
                  g (GAME_CONFIG.BOX_HEIGHT
                     * inject_Z (Z.of_nat (length (stack g)) - 2)) deltaTime)
        as (Hs1 & Ho1 & Ha1 & He1 & Hsc1 & _ & _ & _ & _ & Hem1 & _).
      fold g1 in Hs1, Ho1, Ha1, He1, Hsc1, Hem1.
      assert (Hmove : shouldBlockMove g1 t p = false)
        by (unfold shouldBlockMove; rewrite He1, Hended; reflexivity).
      rewrite Hmove.
      destruct (isAutopilot g1) eqn:Hauto.
      * rewrite (split_skips g1 (or_introl (eq_trans He1 Hended))).
        eexists. split; [reflexivity |].
        split; [exact Hs1 |]. split; [exact (eq_trans He1 Hended) |].
        split; [change (isAutopilot g1 = isAutopilot g); rewrite Hauto; exact Ha1 |].
        split; [exact Hsc1 |]. split; [exact Hem1 |].
        rewrite Hsync. change (overhangs (setRobotPrecision g1 random))
          with (overhangs g1). now rewrite Ho1.
      * eexists. split; [reflexivity |].
        split; [exact Hs1 |]. split; [exact (eq_trans He1 Hended) |].
        split; [change (isAutopilot g1 = isAutopilot g); rewrite Hauto; exact Ha1 |].
        split; [exact Hsc1 |]. split; [exact Hem1 |].
        rewrite Hsync. now rewrite Ho1.
  - eexists. split; [reflexivity |].
    repeat split; try assumption.
    exact (sv_overhangs_uid (same_view_physics_step g engine)).
Qed.

Lemma ended_game_waits_for_reset_witness :
  isGameEnded Scenario.ended = true
  /\ is_reset Scenario.ended OpHandleBlockPlacement = false
  /\ exists g',
       step Scenario.ended OpHandleBlockPlacement = Some g'
       /\ stack g' = stack Scenario.ended
       /\ isGameEnded g' = true
       /\ score g' = score Scenario.ended.
Proof.
  assert (H1 : isGameEnded Scenario.ended = true) by reflexivity.
  assert (H2 : is_reset Scenario.ended OpHandleBlockPlacement = false) by reflexivity.
  split; [exact H1 |]. split; [exact H2 |].
  destruct (ended_game_waits_for_reset _ OpHandleBlockPlacement H1 H2)
    as (g' & Hs & Hst & He & _ & Hsc & _).
  exists g'. repeat split; assumption.
Defined.

(** X9. In autopilot on a running game, a frame that finds the sliding layer
    at or past its target (the coordinate of the layer below plus
    [robotPrecision]) does not move it.  After the camera it runs
    [splitBlockAndAddNext] on the layer where it is: with [0 < overlap] the
    layer is cut and kept, a next layer is added and the score is the number
    of layers placed; otherwise the layer is missed and the game ends with
    the score it had.  Then a new precision
    [random * ROBOT_PRECISION_RANGE - 0.5] is drawn, which lies in
    [-1/2, 1/2) for [random] in [0, 1). *)
Theorem autopilot_places_at_target
        (g : GameLogic) (base : list Block) (previousLayer topLayer : Block)
        (d : Direction) (deltaTime random : Q) :
  stack g = base ++ [previousLayer; topLayer] ->
  isGameEnded g = false ->
  isAutopilot g = true ->
  direction topLayer = Some d ->
  getPosition previousLayer d + robotPrecision g <= getPosition topLayer d ->
  let g1 :=
    RenderManager.updateCameraPosition
      g (GAME_CONFIG.BOX_HEIGHT * inject_Z (Z.of_nat (length (stack g)) - 2))
      deltaTime in
  let overlap := Geometry.overlap topLayer previousLayer d in
  exists g2 g',
    splitBlockAndAddNext g1 = Some g2
    /\ g' = updateOverhangs (setRobotPrecision g2 random)
    /\ update g deltaTime random = Some g'
    /\ (0 < overlap ->
        (exists next,
            stack g'
            = base ++ [previousLayer;
                       keptLayer topLayer overlap (Geometry.size topLayer d)
                                 (Geometry.delta topLayer previousLayer d);
                       next])
        /\ isGameEnded g' = false
        /\ score g' = (Z.of_nat (length (stack g)) - 1)%Z)
    /\ (overlap <= 0 ->
        stack g' = base ++ [previousLayer]
        /\ isGameEnded g' = true
        /\ score g' = score g)
    /\ isAutopilot g' = true
    /\ robotPrecision g' = random * GAME_CONFIG.ROBOT_PRECISION_RANGE - 0.5
    /\ (0 <= random -> random < 1 ->
        - (1 # 2) <= robotPrecision g' /\ robotPrecision g' < 1 # 2).
Proof.
  intros Hstack Hplaying Hauto Hdir Hreached g1 ov.
  rewrite (update_unfold g deltaTime random base previousLayer topLayer Hstack).
  cbv zeta. fold g1.
  destruct (updateCameraPosition_fields
              g (GAME_CONFIG.BOX_HEIGHT * inject_Z (Z.of_nat (length (stack g)) - 2))
              deltaTime)
    as (Hs1 & _ & Ha1 & He1 & Hsc1 & Hrp1 & _).
  fold g1 in Hs1, Ha1, He1, Hsc1, Hrp1.
  assert (Hmove : shouldBlockMove g1 topLayer previousLayer = false).
  { unfold shouldBlockMove. rewrite He1, Hplaying, Ha1, Hauto, Hdir, Hrp1.
    cbn [negb]. now apply Qltb_ge. }
  rewrite Hmove, Ha1, Hauto.
  assert (Hstack1 : stack g1 = base ++ [previousLayer; topLayer])
    by (rewrite Hs1; exact Hstack).
  assert (Hp1 : isGameEnded g1 = false) by (rewrite He1; exact Hplaying).
  assert (Hprec : forall g2,
             robotPrecision (updateOverhangs (setRobotPrecision g2 random))
             = random * GAME_CONFIG.ROBOT_PRECISION_RANGE - 0.5) by reflexivity.
  assert (Hrange : forall g2,
             0 <= random -> random < 1 ->
             - (1 # 2) <= robotPrecision (updateOverhangs (setRobotPrecision g2 random))
             /\ robotPrecision (updateOverhangs (setRobotPrecision g2 random)) < 1 # 2).
  { intros g2 H0 H1. rewrite Hprec. unfold GAME_CONFIG.ROBOT_PRECISION_RANGE.
    setoid_replace 0.5 with (1 # 2) by reflexivity. split; lra. }
  assert (Hstk : forall x, stack (updateOverhangs (setRobotPrecision x random)) = stack x)
    by reflexivity.
  assert (Hend : forall x, isGameEnded (updateOverhangs (setRobotPrecision x random))
                           = isGameEnded x) by reflexivity.
  assert (Hscr : forall x, score (updateOverhangs (setRobotPrecision x random)) = score x)
    by reflexivity.
  assert (Haut : forall x, isAutopilot (updateOverhangs (setRobotPrecision x random))
                           = isAutopilot x) by reflexivity.
  destruct (Qlt_le_dec 0 ov) as [Hpos | Hneg].
  - pose proof (split_cut g1 base previousLayer topLayer d Hstack1 Hp1 Hdir Hpos)
      as Hsplit.
    fold ov in Hsplit.
    destruct (cutAndContinue_effect
                g1 base previousLayer topLayer Hstack1 d ov (Geometry.size topLayer d)
                (Geometry.delta topLayer previousLayer d)
                (Geometry.overhangSize topLayer previousLayer d) Hdir)
      as (overhang & next & E).
    rewrite Hsplit.
    set (g2 := cutAndContinue g1 topLayer ov (Geometry.size topLayer d)
                              (Geometry.delta topLayer previousLayer d)
                              (Geometry.overhangSize topLayer previousLayer d) d) in *.
    exists g2, (updateOverhangs (setRobotPrecision g2 random)).
    split; [reflexivity |]. split; [reflexivity |]. split; [reflexivity |].
    rewrite Hstk, Hend, Hscr, Haut.
    split; [intros _ | split; [intro Hle; exfalso; lra |]].
    + split; [exists next; exact (ce_stack E) |].
      split; [rewrite (ce_isGameEnded E); exact Hp1 |].
      rewrite (ce_score E), Hs1. reflexivity.
    + split; [rewrite (ce_isAutopilot E), Ha1; exact Hauto |].
      split; [apply Hprec | apply Hrange].
  - pose proof (split_miss g1 base previousLayer topLayer d Hstack1 Hp1 Hdir Hneg)
      as Hsplit.
    assert (Hstack' : stack g1 = (base ++ [previousLayer]) ++ [topLayer])
      by (rewrite Hstack1; now rewrite <- app_assoc).
    destruct (missBlock_effect g1 _ topLayer Hstack') as (g2 & oh & Hm & M).
    rewrite Hsplit, Hm.
    exists g2, (updateOverhangs (setRobotPrecision g2 random)).
    split; [reflexivity |]. split; [reflexivity |]. split; [reflexivity |].
    rewrite Hstk, Hend, Hscr, Haut.
    split; [intro Hpos; exfalso; lra |].
    split; [intros _ |].
    + split; [exact (me_stack M) |].
      split; [exact (me_isGameEnded M) |].
      rewrite (me_score M). exact Hsc1.
    + split; [rewrite (me_isAutopilot M), Ha1; exact Hauto |].
      split; [apply Hprec | apply Hrange].
Qed.

Lemma reachable_at_target : reachable Demo.at_target.
Proof.
  apply (reachable_run (fresh 0.5) [OpUpdate 1250 0.5]);
    [apply reachable_fresh | vm_compute; reflexivity].
Qed.

Lemma autopilot_places_at_target_witness :
  stack Demo.at_target = [] ++ [Demo.at_target_base; Demo.at_target_top]
  /\ isGameEnded Demo.at_target = false
  /\ isAutopilot Demo.at_target = true
  /\ direction Demo.at_target_top = Some DIRECTIONS.X
  /\ getPosition Demo.at_target_base DIRECTIONS.X + robotPrecision Demo.at_target
     <= getPosition Demo.at_target_top DIRECTIONS.X
  /\ 0 < Geometry.overlap Demo.at_target_top Demo.at_target_base DIRECTIONS.X
  /\ exists g',
       update Demo.at_target 16 0.25 = Some g'
       /\ length (stack g') = 3%nat
       /\ score g' = 1%Z
       /\ robotPrecision g' == - (1 # 4).
Proof.
  assert (H1 : stack Demo.at_target = [] ++ [Demo.at_target_base; Demo.at_target_top])
    by reflexivity.
  assert (H2 : isGameEnded Demo.at_target = false) by reflexivity.
  assert (H3 : isAutopilot Demo.at_target = true) by reflexivity.
  assert (H4 : direction Demo.at_target_top = Some DIRECTIONS.X) by reflexivity.
  assert (H5 : getPosition Demo.at_target_base DIRECTIONS.X
               + robotPrecision Demo.at_target
               <= getPosition Demo.at_target_top DIRECTIONS.X)
    by (vm_compute; discriminate).
  assert (H6 : 0 < Geometry.overlap Demo.at_target_top Demo.at_target_base DIRECTIONS.X)
    by reflexivity.
  repeat split; try assumption.
  destruct (autopilot_places_at_target _ [] _ _ _ 16 0.25 H1 H2 H3 H4 H5)
    as (g2 & g' & _ & _ & Hu & Hcut & _ & _ & Hp & _).
  destruct (Hcut H6) as ((next & Hst) & _ & Hsc).
  exists g'. split; [exact Hu |].
  split; [rewrite Hst; reflexivity |].
  split; [rewrite Hsc; reflexivity |].
  rewrite Hp. reflexivity.
Defined.

(** ** The camera *)

Lemma camera_missBlock (g g' : GameLogic) :
  missBlock g = Some g' -> camera_y g' = camera_y g.
Proof.
  unfold missBlock.
  destruct (stack_at (stack g) (Z.of_nat (length (stack g)) - 1)) as [t |];
    [| discriminate].
  unfold PhysicsManager.removeBody, RenderManager.removeFromScene.
  destruct (physicsBody t), (mesh t);
    cbn [isAutopilot set_isGameEnded set_stack set_scene_meshes set_world_bodies
         addOverhang createBlock PhysicsManager.createBoxBody
         RenderManager.addToScene set_overhangs set_next_uid];
    destruct (isAutopilot g); cbn [negb];
    intro H; injection H as <-; reflexivity.
Qed.

Lemma camera_split (g g' : GameLogic) :
  splitBlockAndAddNext g = Some g' -> camera_y g' = camera_y g.
Proof.
  unfold splitBlockAndAddNext.
  destruct (isGameEnded g || (length (stack g) <? 2)%nat).
  - intro H. now injection H as <-.
  - destruct (stack_at (stack g) (Z.of_nat (length (stack g)) - 1)) as [t |];
      [| discriminate].
    destruct (stack_at (stack g) (Z.of_nat (length (stack g)) - 2)) as [p |];
      [| discriminate].
    destruct (direction t) as [d |]; [| apply camera_missBlock].
    destruct (Qltb 0 _); [| apply camera_missBlock].
    intro H. injection H as <-. reflexivity.
Qed.

(** X10. A frame on a stack of at least two layers moves the camera by
    [CAMERA_FOLLOW_SPEED * deltaTime] when it is lower than 4 above the
    height of the layer under the sliding one, and leaves it where it is
    otherwise; no placement, miss or move of that frame touches it.  So for
    [0 <= deltaTime] the camera never descends during a frame. *)
Theorem update_camera_follows
        (g : GameLogic) (deltaTime random : Q) (g' : GameLogic) :
  (2 <= length (stack g))%nat ->
  update g deltaTime random = Some g' ->
  camera_y g'
  = (if Qltb (camera_y g)
             (GAME_CONFIG.BOX_HEIGHT * inject_Z (Z.of_nat (length (stack g)) - 2) + 4)
     then camera_y g + GAME_CONFIG.CAMERA_FOLLOW_SPEED * deltaTime
     else camera_y g)
  /\ (0 <= deltaTime -> camera_y g <= camera_y g').
Proof.
  intros Hlen Hupd.
  assert (Hcam : camera_y g'
                 = camera_y (RenderManager.updateCameraPosition
                               g (GAME_CONFIG.BOX_HEIGHT
                                  * inject_Z (Z.of_nat (length (stack g)) - 2))
                               deltaTime)).
  { destruct (two_top_inv (stack g) Hlen) as (base & p & t & Hstack).
    rewrite (update_unfold g deltaTime random base p t Hstack) in Hupd.
    cbv zeta in Hupd.
    set (g1 := RenderManager.updateCameraPosition g _ deltaTime) in *.
    destruct (shouldBlockMove g1 t p).
    - destruct (isOutOfBounds (moveBlock t deltaTime)).
      + destruct (missBlock (store_top g1 (moveBlock t deltaTime))) as [g3 |] eqn:Hm;
          [| discriminate].
        injection Hupd as <-.
        change (camera_y (updateOverhangs g3)) with (camera_y g3).
        rewrite (camera_missBlock _ _ Hm). reflexivity.
      + injection Hupd as <-. reflexivity.
    - destruct (isAutopilot g1).
      + destruct (splitBlockAndAddNext g1) as [g2 |] eqn:Hs; [| discriminate].
        injection Hupd as <-.
        change (camera_y (updateOverhangs (setRobotPrecision g2 random)))
          with (camera_y g2).
        exact (camera_split _ _ Hs).
      + injection Hupd as <-. reflexivity. }
  rewrite Hcam. unfold RenderManager.updateCameraPosition.
  destruct (Qltb (camera_y g) _); cbn [camera_y set_camera_y].
  - split; [reflexivity |]. intro Hdt.
    unfold GAME_CONFIG.CAMERA_FOLLOW_SPEED.
    assert (0 <= 0.08 * deltaTime) by (apply Qmult_le_0_compat; [discriminate | exact Hdt]).
    lra.
  - split; [reflexivity | intros _; apply Qle_refl].
Qed.

Lemma update_camera_follows_witness :
  (2 <= length (stack Demo.placed))%nat
  /\ update Demo.placed 100 0 = Some Demo.placed_frame
  /\ 0 <= 100
  /\ camera_y Demo.placed == 4
  /\ camera_y Demo.placed_frame == 12
  /\ camera_y Demo.placed_frame
     = (if Qltb (camera_y Demo.placed)
                (GAME_CONFIG.BOX_HEIGHT
                 * inject_Z (Z.of_nat (length (stack Demo.placed)) - 2) + 4)
        then camera_y Demo.placed + GAME_CONFIG.CAMERA_FOLLOW_SPEED * 100
        else camera_y Demo.placed)
  /\ camera_y Demo.placed <= camera_y Demo.placed_frame.
Proof.
  assert (H1 : (2 <= length (stack Demo.placed))%nat) by (vm_compute; lia).
  assert (H2 : update Demo.placed 100 0 = Some Demo.placed_frame)
    by (vm_compute; reflexivity).
  assert (H3 : 0 <= 100) by discriminate.
  destruct (update_camera_follows _ 100 0 _ H1 H2) as [Hc Hm].
  split; [exact H1 |]. split; [exact H2 |]. split; [exact H3 |].
  split; [reflexivity |]. split; [reflexivity |].
  split; [exact Hc | exact (Hm H3)].
Defined.

(** ** The bodies of the overhangs *)

(** The mesh and the body [addOverhang] gives to the block it creates. *)
Lemma overhang_created
      (g : GameLogic) (x y z w dp : Q) :
  let o := startFalling (fst (createBlock g x y z w dp None true)) in
  uid o = next_uid g
  /\ position o = mkVec3 x y z
  /\ width o = w /\ depth o = dp
  /\ direction o = None
  /\ isFalling o = true
  /\ exists (m : Mesh) (p : Body),
       mesh o = Some m /\ physicsBody o = Some p
       /\ mesh_position m = position o
       /\ body_position p = position o
       /\ body_halfExtents p = mkVec3 (w / 2) (GAME_CONFIG.BOX_HEIGHT / 2) (dp / 2)
       /\ body_mass p
          = GAME_CONFIG.BOX_FALL_MASS * (w / GAME_CONFIG.ORIGINAL_BOX_SIZE)
            * (dp / GAME_CONFIG.ORIGINAL_BOX_SIZE).
Proof.
  cbv zeta. rewrite createBlock_block. unfold startFalling.
  cbn [uid position width depth direction isFalling mesh physicsBody].
  repeat (split; [reflexivity |]).
  eexists. eexists. repeat split.
Qed.

(** X11. The overhang a cut sheds is a falling block with a mesh and a body
    at its position; its extent is [overhangSize] along the cut axis and the
    extent of the layer across it; the box of the body has half the extents
    of the block, and the mass of the body is
    [BOX_FALL_MASS * (width / ORIGINAL_BOX_SIZE) * (depth / ORIGINAL_BOX_SIZE)],
    which is not negative. *)
Theorem cut_overhang_body
        (g : GameLogic) (base : list Block) (previousLayer topLayer : Block)
        (d : Direction) :
  stack g = base ++ [previousLayer; topLayer] ->
  isGameEnded g = false ->
  direction topLayer = Some d ->
  0 < Geometry.overlap topLayer previousLayer d ->
  0 < getSize topLayer (Some (Geometry.opposite d)) ->
  exists g' overhang (m : Mesh) (p : Body),
    splitBlockAndAddNext g = Some g'
    /\ overhangs g' = overhangs g ++ [overhang]
    /\ isFalling overhang = true
    /\ getSize overhang (Some d) = Geometry.overhangSize topLayer previousLayer d
    /\ getSize overhang (Some (Geometry.opposite d))
       = getSize topLayer (Some (Geometry.opposite d))
    /\ mesh overhang = Some m
    /\ physicsBody overhang = Some p
    /\ mesh_position m = position overhang
    /\ body_position p = position overhang
    /\ body_halfExtents p
       = mkVec3 (width overhang / 2) (GAME_CONFIG.BOX_HEIGHT / 2)
                (depth overhang / 2)
    /\ body_mass p
       = GAME_CONFIG.BOX_FALL_MASS
         * (width overhang / GAME_CONFIG.ORIGINAL_BOX_SIZE)
         * (depth overhang / GAME_CONFIG.ORIGINAL_BOX_SIZE)
    /\ 0 <= body_mass p.
Proof.
  intros Hstack Hplaying Hdir Hpos Hacross.
  set (ov := Geometry.overlap topLayer previousLayer d) in *.
  set (os := Geometry.overhangSize topLayer previousLayer d).
  set (sz := Geometry.size topLayer d).
  set (dl := Geometry.delta topLayer previousLayer d).
  destruct (cutAndContinue_blocks g base previousLayer topLayer d ov sz dl os
                                  Hstack Hdir)
    as (g1 & g2 & _ & _ & _ & _ & Ho & _).
  cbv zeta in Ho.
  set (kept := keptLayer topLayer ov sz dl) in Ho.
  match type of Ho with
  | _ = _ ++ [startFalling (fst (createBlock ?gg ?x ?y ?z ?w ?dp None true))] =>
      destruct (overhang_created gg x y z w dp)
        as (_ & Hp & Hw & Hd & _ & Hf & m & p & Hm & Hb & Hmp & Hbp & Hhe & Hmass);
      set (o := startFalling (fst (createBlock gg x y z w dp None true))) in *
  end.
  assert (Hkept : getSize kept (Some (Geometry.opposite d))
                  = getSize topLayer (Some (Geometry.opposite d))).
  { unfold kept, keptLayer, getSize. cbv zeta.
    rewrite Frame.width_updateBodyShape, Frame.depth_updateBodyShape.
    unfold cut. rewrite Hdir. now destruct d. }
  assert (Hos : 0 <= os) by apply Qabs_nonneg.
  exists (cutAndContinue g topLayer ov sz dl os d), o, m, p.
  split; [exact (split_cut g base previousLayer topLayer d Hstack Hplaying Hdir Hpos) |].
  split; [exact Ho |].
  split; [exact Hf |].
  split; [destruct d; cbn [getSize Direction_eqb] in *; [exact Hw | exact Hd] |].
  split; [destruct d; cbn [getSize Direction_eqb Geometry.opposite] in *;
          [rewrite Hd | rewrite Hw]; exact Hkept |].
  split; [exact Hm |]. split; [exact Hb |].
  split; [exact Hmp |]. split; [exact Hbp |].
  split; [rewrite Hhe, Hw, Hd; reflexivity |].
  split; [rewrite Hmass, Hw, Hd; reflexivity |].
  rewrite Hmass.
  assert (Hnonneg : forall a b : Q,
             0 <= a -> 0 <= b ->
             0 <= GAME_CONFIG.BOX_FALL_MASS * (a / GAME_CONFIG.ORIGINAL_BOX_SIZE)
                  * (b / GAME_CONFIG.ORIGINAL_BOX_SIZE)).
  { intros a b Ha Hb'.
    unfold GAME_CONFIG.BOX_FALL_MASS, GAME_CONFIG.ORIGINAL_BOX_SIZE.
    assert (H := Qmult_le_0_compat a b Ha Hb').
    setoid_replace (5 * (a / 3) * (b / 3)) with ((5 # 9) * (a * b)) by field.
    lra. }
  destruct d; cbn [Direction_eqb Geometry.opposite getSize] in *.
  - apply Hnonneg; [exact Hos |]. rewrite Hkept. now apply Qlt_le_weak.
  - apply Hnonneg; [| exact Hos]. rewrite Hkept. now apply Qlt_le_weak.
Qed.

Lemma cut_overhang_body_witness :
  stack Scenario.offset_one = [] ++ [Scenario.offset_one_base; Scenario.offset_one_top]
  /\ isGameEnded Scenario.offset_one = false
  /\ direction Scenario.offset_one_top = Some DIRECTIONS.X
  /\ 0 < Geometry.overlap Scenario.offset_one_top Scenario.offset_one_base DIRECTIONS.X
  /\ 0 < getSize Scenario.offset_one_top (Some (Geometry.opposite DIRECTIONS.X))
  /\ exists g' overhang (p : Body),
       splitBlockAndAddNext Scenario.offset_one = Some g'
       /\ overhangs g' = overhangs Scenario.offset_one ++ [overhang]
       /\ physicsBody overhang = Some p
       /\ body_mass p
          = GAME_CONFIG.BOX_FALL_MASS
            * (width overhang / GAME_CONFIG.ORIGINAL_BOX_SIZE)
            * (depth overhang / GAME_CONFIG.ORIGINAL_BOX_SIZE).
Proof.
  assert (H1 : stack Scenario.offset_one
               = [] ++ [Scenario.offset_one_base; Scenario.offset_one_top])
    by reflexivity.
  assert (H2 : isGameEnded Scenario.offset_one = false) by reflexivity.
  assert (H3 : direction Scenario.offset_one_top = Some DIRECTIONS.X) by reflexivity.
  assert (H4 : 0 < Geometry.overlap Scenario.offset_one_top Scenario.offset_one_base
                                    DIRECTIONS.X) by reflexivity.
  assert (H5 : 0 < getSize Scenario.offset_one_top
                           (Some (Geometry.opposite DIRECTIONS.X))) by reflexivity.
  repeat split; try assumption.
  destruct (cut_overhang_body _ [] _ _ _ H1 H2 H3 H4 H5)
    as (g' & overhang & m & p & Hs & Ho & _ & _ & _ & _ & Hb & _ & _ & _ & Hm & _).
  exists g', overhang, p.
  split; [exact Hs |]. split; [exact Ho |]. split; [exact Hb | exact Hm].
Defined.

(** X12. A perfect placement (the layer exactly over the one below, [delta]
    equal to 0) loses nothing: the kept block has the extent and the
    coordinate of the layer, the next layer has the same extent; yet an
    overhang is still added, of extent 0 along the axis, centred on the
    layer, with mass 0. *)
Theorem perfect_placement_keeps_everything
        (g : GameLogic) (base : list Block) (previousLayer topLayer : Block)
        (d : Direction) :
  stack g = base ++ [previousLayer; topLayer] ->
  isGameEnded g = false ->
  direction topLayer = Some d ->
  Geometry.delta topLayer previousLayer d == 0 ->
  0 < getSize topLayer (Some d) ->
  exists g' kept overhang next (p : Body),
    splitBlockAndAddNext g = Some g'
    /\ stack g' = base ++ [previousLayer; kept; next]
    /\ overhangs g' = overhangs g ++ [overhang]
    /\ getSize kept (Some d) == getSize topLayer (Some d)
    /\ getPosition kept d == getPosition topLayer d
    /\ getSize next (Some d) == getSize topLayer (Some d)
    /\ getSize overhang (Some d) == 0
    /\ getPosition overhang d == getPosition topLayer d
    /\ physicsBody overhang = Some p
    /\ body_mass p == 0.
Proof.
  intros Hstack Hplaying Hdir Hzero Hsize.
  set (ov := Geometry.overlap topLayer previousLayer d).
  set (os := Geometry.overhangSize topLayer previousLayer d).
  set (sz := Geometry.size topLayer d).
  set (dl := Geometry.delta topLayer previousLayer d) in *.
  assert (Hos : os == 0).
  { unfold os, Geometry.overhangSize, Math_abs. fold dl. rewrite Hzero. reflexivity. }
  assert (Hov : ov == getSize topLayer (Some d)).
  { unfold ov, Geometry.overlap. fold os. rewrite Hos. unfold Geometry.size. ring. }
  assert (Hpos : 0 < ov) by (rewrite Hov; exact Hsize).
  destruct (cutAndContinue_effect g base previousLayer topLayer Hstack d ov sz dl os Hdir)
    as (overhang & next & E).
  destruct (cutAndContinue_blocks g base previousLayer topLayer d ov sz dl os
                                  Hstack Hdir)
    as (g1 & g2 & _ & _ & _ & _ & Ho & _).
  cbv zeta in Ho. rewrite (ce_overhangs E) in Ho.
  apply app_inj_tail in Ho. destruct Ho as [_ Ho].
  match type of Ho with
  | _ = startFalling (fst (createBlock ?gg ?x ?y ?z ?w ?dp None true)) =>
      destruct (overhang_created gg x y z w dp)
        as (_ & _ & Hw & Hd & _ & _ & m & p & _ & Hb & _ & _ & _ & Hmass)
  end.
  rewrite <- Ho in Hw, Hd, Hb.
  exists (cutAndContinue g topLayer ov sz dl os d),
         (keptLayer topLayer ov sz dl), overhang, next, p.
  split; [exact (split_cut g base previousLayer topLayer d Hstack Hplaying Hdir Hpos) |].
  split; [exact (ce_stack E) |].
  split; [exact (ce_overhangs E) |].
  split; [rewrite (getSize_keptLayer topLayer d ov sz dl Hdir); exact Hov |].
  assert (Hkp : getPosition (keptLayer topLayer ov sz dl) d == getPosition topLayer d).
  { rewrite (getPosition_keptLayer topLayer d ov sz dl Hdir), Hzero.
    unfold Qdiv. ring. }
  split; [exact Hkp |].
  split.
  { assert (Hn : getSize next (Some d) = getSize (keptLayer topLayer ov sz dl) (Some d))
      by (destruct d; cbn [getSize];
          [exact (ce_next_width E) | exact (ce_next_depth E)]).
    rewrite Hn, (getSize_keptLayer topLayer d ov sz dl Hdir). exact Hov. }
  split; [rewrite (ce_overhang_size E); exact Hos |].
  split.
  { rewrite (ce_overhang_along E), (Math_sign_zero dl Hzero), Hkp. ring. }
  split; [exact Hb |].
  rewrite Hmass.
  assert (Hext : getSize overhang (Some d) == 0)
    by (rewrite (ce_overhang_size E); exact Hos).
  destruct d; cbn [Direction_eqb getSize] in *.
  - rewrite Hos. unfold Qdiv. ring.
  - rewrite Hos. unfold Qdiv. ring.
Qed.

Lemma perfect_placement_keeps_everything_witness :
  stack Demo.at_target = [] ++ [Demo.at_target_base; Demo.at_target_top]
  /\ isGameEnded Demo.at_target = false
  /\ direction Demo.at_target_top = Some DIRECTIONS.X
  /\ Geometry.delta Demo.at_target_top Demo.at_target_base DIRECTIONS.X == 0
  /\ 0 < getSize Demo.at_target_top (Some DIRECTIONS.X)
  /\ exists g' kept overhang (p : Body),
       splitBlockAndAddNext Demo.at_target = Some g'
       /\ overhangs g' = overhangs Demo.at_target ++ [overhang]
       /\ getSize kept (Some DIRECTIONS.X) == 3
       /\ getSize overhang (Some DIRECTIONS.X) == 0
       /\ physicsBody overhang = Some p
       /\ body_mass p == 0.
Proof.
  assert (H1 : stack Demo.at_target = [] ++ [Demo.at_target_base; Demo.at_target_top])
    by reflexivity.
  assert (H2 : isGameEnded Demo.at_target = false) by reflexivity.
  assert (H3 : direction Demo.at_target_top = Some DIRECTIONS.X) by reflexivity.
  assert (H4 : Geometry.delta Demo.at_target_top Demo.at_target_base DIRECTIONS.X == 0)
    by reflexivity.
  assert (H5 : 0 < getSize Demo.at_target_top (Some DIRECTIONS.X)) by reflexivity.
  repeat split; try assumption.
  destruct (perfect_placement_keeps_everything _ [] _ _ _ H1 H2 H3 H4 H5)
    as (g' & kept & overhang & next & p & Hs & _ & Ho & Hk & _ & _ & Hz & _ & Hb & Hm).
  exists g', kept, overhang, p.
  split; [exact Hs |]. split; [exact Ho |].
  split; [rewrite Hk; reflexivity |].
  split; [exact Hz |]. split; [exact Hb | exact Hm].
Defined.

(** ** Consistency of the overhangs and of the two engines *)

Lemma overhang_consistent_created (g : GameLogic) (x y z w dp : Q) :
  0 <= w -> 0 <= dp ->
  overhang_consistent (startFalling (fst (createBlock g x y z w dp None true))).
Proof.
  intros Hw Hd.
  destruct (overhang_created g x y z w dp)
    as (_ & _ & Ew & Ed & Edir & Ef & m & p & Hm & Hp & _ & _ & Hhe & Hmass).
  exists m, p. rewrite Ew, Ed. repeat split; assumption.
Qed.

Lemma overhang_consistent_updateFromPhysics (o : Block) :
  overhang_consistent o -> overhang_consistent (updateFromPhysics o).
Proof.
  intros (m & p & Hm & Hp & Hf & Hd & Hhe & Hmass & Hw & Hdp).
  unfold updateFromPhysics. rewrite Hp, Hm.
  eexists. exists p. cbn. repeat split; assumption.
Qed.

Lemma overhang_consistent_physics (o : Block) (v : Vec3) :
  overhang_consistent o ->
  overhang_consistent
    match physicsBody o with
    | None => o
    | Some p =>
        mkBlock (uid o) (position o) (width o) (depth o) (direction o) (mesh o)
                (Some (mkBody (body_mass p) (body_halfExtents p) v))
                (isMoving o) (isFalling o)
    end.
Proof.
  intros (m & p & Hm & Hp & Hf & Hd & Hhe & Hmass & Hw & Hdp).
  rewrite Hp. exists m. eexists. cbn. repeat split; assumption.
Qed.

(** The block [missBlock] adds to the overhangs, as [createBlock] builds it. *)
Lemma missBlock_blocks (g : GameLogic) (init : list Block) (t : Block)
      (g' : GameLogic) :
  stack g = init ++ [t] -> missBlock g = Some g' ->
  overhangs g'
  = overhangs g
    ++ [startFalling
          (fst (createBlock g (getPosition t DIRECTIONS.X)
                            (GAME_CONFIG.BOX_HEIGHT
                             * inject_Z (Z.of_nat (length (stack g)) - 1))
                            (getPosition t DIRECTIONS.Z)
                            (width t) (depth t) None true))].
Proof.
  intros Hstack.
  assert (Htop : stack_at (stack g) (Z.of_nat (length (stack g)) - 1) = Some t)
    by (rewrite Hstack; apply stack_at_last).
  unfold missBlock. rewrite Htop.
  unfold PhysicsManager.removeBody, RenderManager.removeFromScene.
  destruct (physicsBody t), (mesh t);
    cbn [isAutopilot set_isGameEnded set_stack set_scene_meshes set_world_bodies
         addOverhang createBlock PhysicsManager.createBoxBody
         RenderManager.addToScene set_overhangs set_next_uid];
    destruct (isAutopilot g); cbn [negb];
    intro H; injection H as <-; reflexivity.
Qed.

Lemma live_same_view (g g' : GameLogic) : same_view g g' -> live g' = live g.
Proof.
  intro H. unfold live. now rewrite (sv_stack_uid H), (sv_overhangs_uid H).
Qed.

Lemma blocks_consistent_quiet (g g' : GameLogic) :
  same_view g g' -> stack g' = stack g ->
  Forall overhang_consistent (overhangs g') ->
  blocks_consistent g -> blocks_consistent g'.
Proof.
  intros Hsv Hs Ho [Hst _ Hw Hsc]. constructor.
  - exact (stack_consistent_same_stack g g' Hs (sv_isGameEnded Hsv) Hst).
  - exact Ho.
  - rewrite (live_same_view g g' Hsv), (sv_world Hsv). exact Hw.
  - rewrite (live_same_view g g' Hsv), (sv_scene Hsv). exact Hsc.
Qed.

Lemma blocks_consistent_startGame (g : GameLogic) : blocks_consistent (startGame g).
Proof.
  destruct (startGame_effect g) as (base & top & E).
  constructor.
  - apply stack_consistent_startGame.
  - rewrite (se_overhangs E). constructor.
  - unfold live. rewrite (se_world E), (se_stack E), (se_overhangs E). cbn [map app].
    rewrite (se_base_uid E), (se_top_uid E). apply incl_refl.
  - unfold live. rewrite (se_scene E), (se_stack E), (se_overhangs E). cbn [map app].
    rewrite (se_base_uid E), (se_top_uid E). apply incl_refl.
Qed.

Lemma blocks_consistent_fresh (random : Q) : blocks_consistent (fresh random).
Proof.
  constructor.
  - apply stack_consistent_fresh.
  - constructor.
  - apply incl_refl.
  - apply incl_refl.
Qed.

Lemma blocks_consistent_cut
      (g : GameLogic) (base : list Block) (p t : Block) (d : Direction) :
  blocks_consistent g ->
  stack g = base ++ [p; t] -> isGameEnded g = false ->
  direction t = Some d -> 0 < Geometry.overlap t p d ->
  blocks_consistent
    (cutAndContinue g t (Geometry.overlap t p d) (Geometry.size t d)
                    (Geometry.delta t p d) (Geometry.overhangSize t p d) d).
Proof.
  intros [Hst Ho Hw Hsc] Hstack Hplaying Hdir Hpos.
  pose proof (stack_consistent_cut g base p t d Hst Hstack Hplaying Hdir Hpos) as Hst'.
  set (ov := Geometry.overlap t p d) in *.
  set (os := Geometry.overhangSize t p d) in *.
  set (sz := Geometry.size t d) in *.
  set (dl := Geometry.delta t p d) in *.
  destruct (cutAndContinue_effect g base p t Hstack d ov sz dl os Hdir)
    as (overhang & next & E).
  destruct (cutAndContinue_blocks g base p t d ov sz dl os Hstack Hdir)
    as (g1 & g2 & _ & _ & _ & _ & Hov & _).
  cbv zeta in Hov.
  assert (Hlive : forall u, In u (live g) \/ u = next_uid g \/ u = S (next_uid g) ->
                            In u (live (cutAndContinue g t ov sz dl os d))).
  { intros u Hu. unfold live in *.
    rewrite (ce_stack E), (ce_overhangs E), Hstack in *.
    rewrite !map_app in *. cbn [map] in *.
    rewrite (ce_next_uid E), (ce_overhang_uid E), (uid_keptLayer t ov sz dl).
    rewrite !in_app_iff in *. cbn [In] in *. intuition. }
  constructor.
  - exact Hst'.
  - rewrite Hov. apply Forall_app. split; [exact Ho |]. constructor; [| constructor].
    assert (Hk : layers_consistent (stack (cutAndContinue g t ov sz dl os d)))
      by exact (sc_layers Hst').
    assert (Hkept : layer_consistent (S (length base)) (keptLayer t ov sz dl)).
    { apply Hk. rewrite (ce_stack E), nth_error_app2 by lia.
      now replace (S (length base) - length base)%nat with 1%nat by lia. }
    assert (Hos : 0 <= os) by apply Qabs_nonneg.
    apply overhang_consistent_created;
      destruct d; cbn [Direction_eqb];
      try exact Hos;
      try (apply Qlt_le_weak; exact (proj1 (lc_width Hkept)));
      try (apply Qlt_le_weak; exact (proj1 (lc_depth Hkept))).
  - rewrite (ce_world E). intros u Hu. apply Hlive.
    apply in_app_or in Hu. destruct Hu as [Hu | [<- | [<- | []]]]; auto.
  - rewrite (ce_scene E). intros u Hu. apply Hlive.
    apply in_app_or in Hu. destruct Hu as [Hu | [<- | [<- | []]]]; auto.
Qed.

Lemma blocks_consistent_miss (g : GameLogic) (init : list Block) (t : Block)
      (g' : GameLogic) :
  blocks_consistent g -> stack g = init ++ [t] -> missBlock g = Some g' ->
  blocks_consistent g'.
Proof.
  intros [Hst Ho Hw Hsc] Hstack Hmiss.
  destruct (missBlock_effect g init t Hstack) as (g1 & overhang & Hm & E).
  rewrite Hmiss in Hm. injection Hm as <-.
  assert (Ht : layer_consistent (length init) t).
  { apply (sc_layers Hst). rewrite Hstack, nth_error_app2 by lia.
    now rewrite Nat.sub_diag. }
  destruct (lc_mesh Ht) as (m & Hmesh & _).
  destruct (lc_body Ht) as (p & Hbody & _).
  assert (Hlive : forall u, (In u (live g) \/ u = next_uid g) -> u <> uid t ->
                            In u (live g')).
  { intros u Hu Hne. unfold live in *.
    rewrite (me_stack E), (me_overhangs E), Hstack in *.
    rewrite !map_app in *. cbn [map] in *.
    rewrite (me_overhang_uid E).
    rewrite !in_app_iff in *. cbn [In] in *.
    destruct Hu as [[[Hu | [Hu | []]] | Hu] | Hu]; auto;
      symmetry in Hu; contradiction. }
  constructor.
  - exact (stack_consistent_miss g init t g' Hst Hstack Hmiss).
  - rewrite (missBlock_blocks g init t g' Hstack Hmiss).
    apply Forall_app. split; [exact Ho |]. constructor; [| constructor].
    apply overhang_consistent_created; apply Qlt_le_weak.
    + exact (proj1 (lc_width Ht)).
    + exact (proj1 (lc_depth Ht)).
  - rewrite (me_world E), Hbody. intros u Hu.
    apply in_remove in Hu. destruct Hu as [Hu Hne].
    apply Hlive; [| exact Hne].
    apply in_app_or in Hu. destruct Hu as [Hu | [<- | []]]; auto.
  - rewrite (me_scene E), Hmesh. intros u Hu.
    apply in_remove in Hu. destruct Hu as [Hu Hne].
    apply Hlive; [| exact Hne].
    apply in_app_or in Hu. destruct Hu as [Hu | [<- | []]]; auto.
Qed.

Lemma blocks_consistent_move
      (g : GameLogic) (base : list Block) (p t : Block) (deltaTime : Q) :
  blocks_consistent g -> stack g = base ++ [p; t] -> isGameEnded g = false ->
  blocks_consistent (store_top g (moveBlock t deltaTime)).
Proof.
  intros [Hst Ho Hw Hsc] Hstack Hplaying.
  assert (Hsv : same_view g (store_top g (moveBlock t deltaTime))).
  { apply (same_view_store_top g base p t); [exact Hstack | |].
    - apply Frame.uid_moveBlock.
    - apply Frame.direction_moveBlock. }
  constructor.
  - exact (stack_consistent_move g base p t deltaTime Hst Hstack Hplaying).
  - exact Ho.
  - rewrite (live_same_view _ _ Hsv), (sv_world Hsv). exact Hw.
  - rewrite (live_same_view _ _ Hsv), (sv_scene Hsv). exact Hsc.
Qed.

(** Every reachable state is consistent. *)
Lemma reachable_blocks_consistent (g : GameLogic) :
  reachable g -> blocks_consistent g.
Proof.
  apply reachable_preserved.
  - exact blocks_consistent_fresh.
  - intros g0 _ _. apply blocks_consistent_startGame.
  - intros g0 base p t d _ H Hs He Hd Hpos.
    exact (blocks_consistent_cut g0 base p t d H Hs He Hd Hpos).
  - intros g0 init t g' _ H Hs _ Hm.
    exact (blocks_consistent_miss g0 init t g' H Hs Hm).
  - intros g0 base p t dt _ H Hs He.
    exact (blocks_consistent_move g0 base p t dt H Hs He).
  - intros g0 y dt H.
    apply (blocks_consistent_quiet g0); [| | | exact H].
    + apply same_view_updateCameraPosition.
    + apply stack_updateCameraPosition.
    + pose proof (updateCameraPosition_fields g0 y dt) as F. cbv zeta in F.
      destruct F as (_ & Eo & _). rewrite Eo. exact (bc_overhangs H).
  - intros g0 r H.
    apply (blocks_consistent_quiet g0); [| reflexivity | exact (bc_overhangs H) | exact H].
    apply same_view_setRobotPrecision.
  - intros g0 H.
    apply (blocks_consistent_quiet g0); [| reflexivity | | exact H].
    + apply same_view_updateOverhangs.
    + cbn. apply Forall_map.
      eapply Forall_impl; [| exact (bc_overhangs H)].
      exact overhang_consistent_updateFromPhysics.
  - intros g0 e H.
    apply (blocks_consistent_quiet g0); [| reflexivity | | exact H].
    + apply same_view_physics_step.
    + cbn. apply Forall_map.
      eapply Forall_impl; [| exact (bc_overhangs H)].
      intro o. apply overhang_consistent_physics.
Qed.

Lemma reachable_ended : reachable Scenario.ended.
Proof.
  apply (reachable_run Scenario.start [OpUpdate 875 0; OpHandleBlockPlacement]);
    [exact reachable_start | vm_compute; reflexivity].
Qed.

Lemma reachable_dropped : reachable Demo.dropped.
Proof.
  apply (reachable_step Scenario.two_placed (OpPhysicsStep Demo.drop));
    [exact reachable_two_placed | vm_compute; reflexivity].
Qed.

(** X13. In every reachable state the physics world holds exactly the bodies
    of the blocks of the game (the layers of the stack and the overhangs),
    and the scene exactly their meshes: a block never loses its body or its
    mesh while the game holds it, and the body and the mesh of a missed layer
    leave with it.  No two blocks of the game are the same object. *)
Theorem world_and_scene_hold_the_blocks (g : GameLogic) :
  reachable g ->
  (forall u : nat, In u (world_bodies g) <-> In u (live g))
  /\ (forall u : nat, In u (scene_meshes g) <-> In u (live g))
  /\ NoDup (live g).
Proof.
  intro Hreach.
  pose proof (inv_resources (reachable_invariant g Hreach)) as R.
  pose proof (reachable_blocks_consistent g Hreach) as C.
  split; [| split].
  - intro u. split; [apply (bc_world C) | apply (res_world R)].
  - intro u. split; [apply (bc_scene C) | apply (res_scene R)].
  - exact (res_nodup R).
Qed.

Lemma world_and_scene_hold_the_blocks_witness :
  reachable Scenario.ended
  /\ (forall u : nat, In u (world_bodies Scenario.ended) <-> In u (live Scenario.ended))
  /\ (forall u : nat, In u (scene_meshes Scenario.ended) <-> In u (live Scenario.ended))
  /\ NoDup (live Scenario.ended).
Proof.
  split; [exact reachable_ended |].
  exact (world_and_scene_hold_the_blocks Scenario.ended reachable_ended).
Defined.

Lemma updateFromPhysics_synced (o : Block) (m : Mesh) (p : Body) :
  mesh (updateFromPhysics o) = Some m ->
  physicsBody (updateFromPhysics o) = Some p ->
  mesh_position m = body_position p.
Proof.
  unfold updateFromPhysics.
  destruct (physicsBody o) as [p0 |] eqn:Hp, (mesh o) as [m0 |] eqn:Hm;
    cbn; rewrite ?Hp, ?Hm; intros H1 H2; try discriminate.
  injection H1 as <-. injection H2 as <-. reflexivity.
Qed.

Lemma update_ends_with_sync (g : GameLogic) (deltaTime random : Q) (g' : GameLogic) :
  (2 <= length (stack g))%nat ->
  update g deltaTime random = Some g' ->
  exists g2, g' = updateOverhangs g2.
Proof.
  intros Hlen Hupd.
  destruct (two_top_inv (stack g) Hlen) as (base & p & t & Hstack).
  rewrite (update_unfold g deltaTime random base p t Hstack) in Hupd.
  cbv zeta in Hupd.
  match type of Hupd with
  | match ?x with _ => _ end = _ => destruct x as [g2 |]; [| discriminate]
  end.
  exists g2. now injection Hupd as <-.
Qed.

(** X14. A frame of a reachable game whose stack has at least two layers
    ends with every overhang drawn where the physics engine has its body:
    each overhang still has a mesh and a body, and the position of the mesh
    is the position of the body. *)
Theorem update_draws_overhangs_at_their_bodies
        (g : GameLogic) (deltaTime random : Q) (g' : GameLogic) (o : Block) :
  reachable g ->
  (2 <= length (stack g))%nat ->
  update g deltaTime random = Some g' ->
  In o (overhangs g') ->
  exists (m : Mesh) (p : Body),
    mesh o = Some m /\ physicsBody o = Some p
    /\ mesh_position m = body_position p.
Proof.
  intros Hreach Hlen Hupd Hin.
  assert (Hreach' : reachable g')
    by exact (reachable_step g (OpUpdate deltaTime random) g' Hreach Hupd).
  pose proof (bc_overhangs (reachable_blocks_consistent g' Hreach')) as Hall.
  rewrite Forall_forall in Hall.
  destruct (Hall o Hin) as (m & p & Hm & Hp & _).
  exists m, p. split; [exact Hm |]. split; [exact Hp |].
  destruct (update_ends_with_sync g deltaTime random g' Hlen Hupd) as (g2 & ->).
  change (overhangs (updateOverhangs g2))
    with (map updateFromPhysics (overhangs g2)) in Hin.
  apply in_map_iff in Hin. destruct Hin as (o0 & <- & _).
  exact (updateFromPhysics_synced o0 m p Hm Hp).
Qed.

Lemma update_draws_overhangs_at_their_bodies_witness :
  reachable Demo.dropped
  /\ (2 <= length (stack Demo.dropped))%nat
  /\ update Demo.dropped 16 0 = Some Demo.dropped_frame
  /\ exists o : Block,
       nth_error (overhangs Demo.dropped_frame) 0 = Some o
       /\ exists (m : Mesh) (p : Body),
            mesh o = Some m /\ physicsBody o = Some p
            /\ mesh_position m = body_position p.
Proof.
  assert (H2 : (2 <= length (stack Demo.dropped))%nat) by (vm_compute; lia).
  assert (H3 : update Demo.dropped 16 0 = Some Demo.dropped_frame)
    by (vm_compute; reflexivity).
  split; [exact reachable_dropped |]. split; [exact H2 |]. split; [exact H3 |].
  eexists. split; [reflexivity |].
  apply (update_draws_overhangs_at_their_bodies
           Demo.dropped 16 0 Demo.dropped_frame _ reachable_dropped H2 H3).
  left. reflexivity.
Defined.

(** X15. When the game has ended with score 0 (the first sliding layer was
    missed, one layer is left), no call before the next reset moves the mesh
    of an overhang: [update] returns before [updateOverhangs], so the missed
    layer stays drawn where it left the stack whatever the physics engine
    does to its body. *)
Theorem first_layer_miss_freezes_overhangs (g : GameLogic) (op : Op) :
  reachable g ->
  isGameEnded g = true ->
  score g = 0%Z ->
  is_reset g op = false ->
  exists g',
    step g op = Some g'
    /\ map mesh (overhangs g') = map mesh (overhangs g)
    /\ isGameEnded g' = true
    /\ score g' = 0%Z.
Proof.
  intros Hreach Hended Hscore Hop.
  destruct (inv_ended (reachable_invariant g Hreach) Hended) as [_ Hs].
  assert (Hshort : (length (stack g) <? 2)%nat = true)
    by (apply Nat.ltb_lt; lia).
  destruct op as [| | deltaTime random | engine]; simpl in Hop |- *.
  - discriminate.
  - unfold handleBlockPlacement. rewrite Hop.
    exists g. split; [apply split_skips; now left |]. repeat split; assumption.
  - exists g. unfold update. rewrite Hshort. repeat split; assumption.
  - eexists. split; [reflexivity |].
    split; [| split; assumption].
    unfold PhysicsManager.step. cbn [overhangs set_overhangs].
    rewrite map_map. apply map_ext.
    intro b. now destruct (physicsBody b).
Qed.

Lemma first_layer_miss_freezes_overhangs_witness :
  reachable Scenario.ended
  /\ isGameEnded Scenario.ended = true
  /\ score Scenario.ended = 0%Z
  /\ is_reset Scenario.ended (OpUpdate 16 0) = false
  /\ exists g',
       step Scenario.ended (OpUpdate 16 0) = Some g'
       /\ map mesh (overhangs g') = map mesh (overhangs Scenario.ended).
Proof.
  assert (H2 : isGameEnded Scenario.ended = true) by reflexivity.
  assert (H3 : score Scenario.ended = 0%Z) by reflexivity.
  assert (H4 : is_reset Scenario.ended (OpUpdate 16 0) = false) by reflexivity.
  split; [exact reachable_ended |].
  split; [exact H2 |]. split; [exact H3 |]. split; [exact H4 |].
  destruct (first_layer_miss_freezes_overhangs
              Scenario.ended (OpUpdate 16 0) reachable_ended H2 H3 H4)
    as (g' & Hs & Hm & _).
  exists g'. split; assumption.
Defined.

(** ** Induction within one game

    A property holds after a call other than a reset as soon as each state
    transformer but [startGame] keeps it. *)

Section InGame.

Variable P : GameLogic -> Prop.

Hypothesis P_cut :
  forall (g : GameLogic) (base : list Block) (p t : Block) (d : Direction),
    invariant g -> P g ->
    stack g = base ++ [p; t] -> isGameEnded g = false ->
    direction t = Some d -> 0 < Geometry.overlap t p d ->
    P (cutAndContinue g t (Geometry.overlap t p d) (Geometry.size t d)
                      (Geometry.delta t p d) (Geometry.overhangSize t p d) d).
Hypothesis P_miss :
  forall (g : GameLogic) (init : list Block) (t : Block) (g' : GameLogic),
    invariant g -> P g ->
    stack g = init ++ [t] -> isGameEnded g = false -> missBlock g = Some g' ->
    P g'.
Hypothesis P_move :
  forall (g : GameLogic) (base : list Block) (p t : Block) (deltaTime : Q),
    invariant g -> P g ->
    stack g = base ++ [p; t] -> isGameEnded g = false ->
    P (store_top g (moveBlock t deltaTime)).
Hypothesis P_camera :
  forall (g : GameLogic) (targetY deltaTime : Q),
    P g -> P (RenderManager.updateCameraPosition g targetY deltaTime).
Hypothesis P_precision :
  forall (g : GameLogic) (random : Q), P g -> P (setRobotPrecision g random).
Hypothesis P_sync :
  forall g : GameLogic, P g -> P (updateOverhangs g).
Hypothesis P_physics :
  forall (g : GameLogic) (engine : Block -> Vec3),
    P g -> P (PhysicsManager.step g engine).

Lemma step_preserved_in_game (g : GameLogic) (op : Op) (g' : GameLogic) :
  invariant g -> P g -> is_reset g op = false -> step g op = Some g' -> P g'.
Proof.
  intros Hinv HP Hop Hstep.
  destruct op as [| | deltaTime random | engine]; simpl in Hstep, Hop.
  - discriminate.
  - unfold handleBlockPlacement in Hstep. rewrite Hop in Hstep.
    exact (split_preserved P P_cut P_miss g g' Hinv HP Hstep).
  - exact (update_preserved P P_cut P_miss P_move P_camera P_precision P_sync
                            g deltaTime random g' Hinv HP Hstep).
  - injection Hstep as <-. apply P_physics. exact HP.
Qed.

End InGame.

Lemma piece_created (g : GameLogic) (x y z w dp : Q) :
  piece (startFalling (fst (createBlock g x y z w dp None true)))
  = (next_uid g, w, dp).
Proof.
  destruct (overhang_created g x y z w dp) as (Eu & _ & Ew & Ed & _).
  unfold piece. now rewrite Eu, Ew, Ed.
Qed.

Lemma piece_updateFromPhysics (o : Block) : piece (updateFromPhysics o) = piece o.
Proof.
  destruct (updateFromPhysics_fields o) as (_ & Ew & Ed & _).
  unfold piece. now rewrite Ew, Ed, Frame.uid_updateFromPhysics.
Qed.

(** A call other than a reset leaves the overhangs in place, with their
    extents, and adds new ones at the end. *)
Lemma step_keeps_overhangs (g : GameLogic) (op : Op) (g' : GameLogic) :
  invariant g -> is_reset g op = false -> step g op = Some g' ->
  exists added : list Block,
    map piece (overhangs g') = map piece (overhangs g) ++ map piece added.
Proof.
  intros Hinv Hop Hstep.
  apply (step_preserved_in_game
           (fun x => exists added : list Block,
                map piece (overhangs x) = map piece (overhangs g) ++ map piece added))
    with (g := g) (op := op); try assumption.
  - intros x base p t d _ (added & E) Hstack _ Hdir _.
    destruct (cutAndContinue_blocks
                x base p t d (Geometry.overlap t p d) (Geometry.size t d)
                (Geometry.delta t p d) (Geometry.overhangSize t p d) Hstack Hdir)
      as (g1 & g2 & _ & _ & _ & _ & Hov & _).
    cbv zeta in Hov. rewrite Hov. eexists (added ++ [_]).
    rewrite !map_app, E, <- app_assoc. reflexivity.
  - intros x init t x' _ (added & E) Hstack _ Hmiss.
    rewrite (missBlock_blocks x init t x' Hstack Hmiss).
    eexists (added ++ [_]).
    rewrite !map_app, E, <- app_assoc. reflexivity.
  - intros x base p t dt _ H _ _. exact H.
  - intros x y dt (added & E). exists added. rewrite <- E.
    pose proof (updateCameraPosition_fields x y dt) as F. cbv zeta in F.
    destruct F as (_ & Eo & _). now rewrite Eo.
  - intros x r H. exact H.
  - intros x (added & E). exists added. rewrite <- E.
    change (overhangs (updateOverhangs x)) with (map updateFromPhysics (overhangs x)).
    rewrite map_map. apply map_ext. exact piece_updateFromPhysics.
  - intros x e (added & E). exists added. rewrite <- E.
    unfold PhysicsManager.step. cbn [overhangs set_overhangs].
    rewrite map_map. apply map_ext. intro b. now destruct (physicsBody b).
  - exists []. now rewrite app_nil_r.
Qed.

(** X16. Within one game nothing ever removes, reorders or resizes an
    overhang: after any run of calls without a reset, from a reachable state,
    the overhangs held before are still the first overhangs, in the same
    order and with the same extents; the ones added since follow them. *)
Theorem overhangs_are_never_dropped (ops : list Op) (g g' : GameLogic) :
  reachable g ->
  one_game g ops = true ->
  run g ops = Some g' ->
  exists added : list Block,
    map piece (overhangs g') = map piece (overhangs g) ++ map piece added.
Proof.
  revert g. induction ops as [| op ops IH]; intros g Hreach Hone Hrun;
    simpl in Hone, Hrun.
  - injection Hrun as <-. exists []. now rewrite app_nil_r.
  - destruct (step g op) as [g1 |] eqn:Hstep; [| discriminate].
    apply andb_prop in Hone. destruct Hone as [Hop Hone].
    apply negb_true_iff in Hop.
    destruct (step_keeps_overhangs g op g1 (reachable_invariant g Hreach) Hop Hstep)
      as (a1 & E1).
    destruct (IH g1 (reachable_step g op g1 Hreach Hstep) Hone Hrun) as (a2 & E2).
    exists (a1 ++ a2). now rewrite E2, E1, map_app, app_assoc.
Qed.

Lemma reachable_placed : reachable Demo.placed.
Proof.
  apply (reachable_step Scenario.offset_one OpHandleBlockPlacement);
    [exact reachable_offset_one | vm_compute; reflexivity].
Qed.

Lemma overhangs_are_never_dropped_witness :
  reachable Demo.placed
  /\ one_game Demo.placed Demo.tap_again = true
  /\ run Demo.placed Demo.tap_again = Some Demo.placed_again
  /\ length (overhangs Demo.placed) = 1%nat
  /\ exists added : list Block,
       map piece (overhangs Demo.placed_again)
       = map piece (overhangs Demo.placed) ++ map piece added.
Proof.
  assert (H2 : one_game Demo.placed Demo.tap_again = true)
    by (vm_compute; reflexivity).
  assert (H3 : run Demo.placed Demo.tap_again = Some Demo.placed_again)
    by (vm_compute; reflexivity).
  split; [exact reachable_placed |]. split; [exact H2 |]. split; [exact H3 |].
  split; [reflexivity |].
  exact (overhangs_are_never_dropped
           Demo.tap_again Demo.placed Demo.placed_again reachable_placed H2 H3).
Defined.

(** ** The user interface against the game *)

Lemma published_app (g g' : GameLogic) (new : list Event) :
  emitted g' = emitted g ++ new -> Page.published g g' = new.
Proof.
  intro E. unfold Page.published. rewrite E.
  rewrite skipn_app, skipn_all, Nat.sub_diag. reflexivity.
Qed.

Lemma published_same (g g' : GameLogic) :
  emitted g' = emitted g -> Page.published g g' = [].
Proof. intro E. apply published_app. now rewrite app_nil_r. Qed.

Lemma deliver_app (ui : UI.UIManager) (l1 l2 : list Event) :
  UI.deliver ui (l1 ++ l2) = UI.deliver (UI.deliver ui l1) l2.
Proof. apply fold_left_app. Qed.

(** What the page shows depends on the score, the mode and the phase of the
    game only. *)
Lemma shows_same (ui : UI.UIManager) (g g' : GameLogic) :
  score g' = score g -> isAutopilot g' = isAutopilot g ->
  isGameEnded g' && negb (isAutopilot g') = isGameEnded g && negb (isAutopilot g) ->
  Page.shows ui g -> Page.shows ui g'.
Proof.
  unfold Page.shows, Page.view. intros -> -> ->. exact (fun H => H).
Qed.

Lemma shows_same_view (ui : UI.UIManager) (g g' : GameLogic) :
  same_view g g' -> Page.shows ui g -> Page.shows ui g'.
Proof.
  intro H. apply shows_same.
  - exact (sv_score H).
  - exact (sv_isAutopilot H).
  - now rewrite (sv_isGameEnded H), (sv_isAutopilot H).
Qed.

Lemma shows_iff (ui : UI.UIManager) (g : GameLogic) :
  Page.shows ui g
  <-> UI.scoreElement ui
      = match UI.scoreElement ui with
        | Some _ => Some (Some (score g))
        | None => None
        end
      /\ UI.instructionsElement ui
         = UI.set_display (UI.instructionsElement ui)
                          (if isAutopilot g then UI.display_flex else UI.display_none)
      /\ UI.resultsElement ui
         = UI.set_display (UI.resultsElement ui)
                          (if isGameEnded g && negb (isAutopilot g)
                           then UI.display_flex else UI.display_none)
      /\ UI.score ui = score g.
Proof.
  unfold Page.shows, Page.view. split.
  - intro H. repeat split.
    + exact (f_equal UI.scoreElement H).
    + exact (f_equal UI.instructionsElement H).
    + exact (f_equal UI.resultsElement H).
    + exact (f_equal UI.score H).
  - intros (H1 & H2 & H3 & H4). destruct ui as [s i r sc init]. cbn in *.
    now rewrite <- H1, <- H2, <- H3, <- H4.
Qed.

Lemma shows_updateScore (ui : UI.UIManager) (g g' : GameLogic) :
  isAutopilot g' = isAutopilot g -> isGameEnded g' = isGameEnded g ->
  Page.shows ui g -> Page.shows (UI.updateScore ui (score g')) g'.
Proof.
  intros Ha He H. apply shows_iff in H. destruct H as (_ & H2 & H3 & _).
  apply shows_iff. rewrite Ha, He. cbn.
  repeat split; try assumption.
  now destruct (UI.scoreElement ui).
Qed.

Lemma shows_started (ui : UI.UIManager) (g : GameLogic) (b0 b1 : nat) (h0 h1 : nat) :
  score g = 0%Z -> isAutopilot g = false -> isGameEnded g = false ->
  Page.shows
    (UI.deliver ui [LAYER_ADDED b0 h0; LAYER_ADDED b1 h1; GAME_START; SCORE_UPDATE 0])
    g.
Proof.
  unfold Page.shows, Page.view. intros -> -> ->.
  destruct ui as [[s |] [i |] [r |] sc init]; reflexivity.
Qed.

Lemma shows_reset (ui : UI.UIManager) (g : GameLogic) :
  score g = 0%Z -> isAutopilot g = true ->
  Page.shows (UI.resetUI ui) g.
Proof.
  unfold Page.shows, Page.view. intros -> ->. rewrite andb_false_r.
  destruct ui as [[s |] [i |] [r |] sc init]; reflexivity.
Qed.

Lemma shows_game_over (ui : UI.UIManager) (g g' : GameLogic) :
  score g' = score g -> isAutopilot g = false -> isAutopilot g' = false ->
  isGameEnded g' = true ->
  Page.shows ui g -> Page.shows (UI.showGameOverUI ui) g'.
Proof.
  intros Hs Ha Ha' He H. apply shows_iff in H. destruct H as (H1 & H2 & _ & H4).
  apply shows_iff. rewrite Hs, Ha', He. rewrite Ha in H2. cbn.
  repeat split; try assumption.
  now destruct (UI.resultsElement ui).
Qed.

Lemma startGame_shows (ui : UI.UIManager) (g : GameLogic) :
  Page.shows (UI.deliver ui (Page.published g (startGame g))) (startGame g).
Proof.
  destruct (startGame_effect g) as (base & top & E).
  rewrite (published_app _ _ _ (se_emitted E)).
  apply shows_started; [exact (se_score E) | exact (se_isAutopilot E) | exact (se_isGameEnded E)].
Qed.

(** A call of the game logic keeps the page showing the game, once the
    events of the call have reached the user interface. *)
Lemma step_shows (ui : UI.UIManager) (g : GameLogic) (op : Op) (g' : GameLogic) :
  invariant g -> Page.shows ui g -> step g op = Some g' ->
  Page.shows (UI.deliver ui (Page.published g g')) g'.
Proof.
  intros Hinv Hshows Hstep.
  assert (H : exists new : list Event,
             emitted g' = emitted g ++ new /\ Page.shows (UI.deliver ui new) g').
  { apply (step_preserved
             (fun x => exists new : list Event,
                  emitted x = emitted g ++ new /\ Page.shows (UI.deliver ui new) x))
      with (g := g) (op := op); try assumption.
    - intros x _ (new & E & _).
      destruct (startGame_effect x) as (base & top & S).
      eexists. split.
      + rewrite (se_emitted S), E, <- app_assoc. reflexivity.
      + rewrite deliver_app.
        apply shows_started;
          [exact (se_score S) | exact (se_isAutopilot S) | exact (se_isGameEnded S)].
    - intros x base p t d _ (new & E & Hs) Hstack _ Hdir _.
      destruct (cutAndContinue_effect
                  x base p t Hstack d (Geometry.overlap t p d) (Geometry.size t d)
                  (Geometry.delta t p d) (Geometry.overhangSize t p d) Hdir)
        as (overhang & next & C).
      eexists. split.
      + rewrite (ce_emitted C), E, <- app_assoc. reflexivity.
      + rewrite deliver_app. cbn [UI.deliver fold_left UI.listen].
        rewrite <- (ce_score C).
        apply (shows_updateScore _ x);
          [exact (ce_isAutopilot C) | exact (ce_isGameEnded C) | exact Hs].
    - intros x init t x' _ (new & E & Hs) Hstack Hplaying Hmiss.
      destruct (missBlock_effect x init t Hstack) as (x1 & overhang & Hm & M).
      rewrite Hmiss in Hm. injection Hm as <-.
      destruct (isAutopilot x) eqn:Hauto.
      + exists new. split.
        * rewrite (me_emitted M), Hauto, app_nil_r. exact E.
        * apply (shows_same _ x); [exact (me_score M) | | | exact Hs].
          -- now rewrite (me_isAutopilot M).
          -- now rewrite (me_isAutopilot M), Hauto, !andb_false_r.
      + eexists. split.
        * rewrite (me_emitted M), Hauto, E, <- app_assoc. reflexivity.
        * rewrite deliver_app. cbn [UI.deliver fold_left UI.listen].
          apply (shows_game_over _ x);
            [exact (me_score M) | exact Hauto | | exact (me_isGameEnded M) | exact Hs].
          now rewrite (me_isAutopilot M).
    - intros x base p t dt _ (new & E & Hs) Hstack _.
      exists new. split; [exact E |].
      apply (shows_same_view _ x); [| exact Hs].
      apply (same_view_store_top x base p t); [exact Hstack | |].
      + apply Frame.uid_moveBlock.
      + apply Frame.direction_moveBlock.
    - intros x y dt (new & E & Hs). exists new. split.
      + pose proof (updateCameraPosition_fields x y dt) as F. cbv zeta in F.
        destruct F as (_ & _ & _ & _ & _ & _ & _ & _ & _ & Em & _). now rewrite Em.
      + apply (shows_same_view _ x); [apply same_view_updateCameraPosition | exact Hs].
    - intros x r (new & E & Hs). exists new. split; [exact E |].
      apply (shows_same_view _ x); [apply same_view_setRobotPrecision | exact Hs].
    - intros x (new & E & Hs). exists new. split; [exact E |].
      apply (shows_same_view _ x); [apply same_view_updateOverhangs | exact Hs].
    - intros x e (new & E & Hs). exists new. split; [exact E |].
      apply (shows_same_view _ x); [apply same_view_physics_step | exact Hs].
    - exists []. split; [now rewrite app_nil_r | exact Hshows]. }
  destruct H as (new & E & Hs). now rewrite (published_app g g' new E).
Qed.

(** The frame [start()] runs on the fresh page moves nothing that the page
    shows: the sliding layer is at -10, too far from the base to be placed. *)
Lemma fresh_first_frame (precision random : Q) :
  exists g1,
    update (fresh precision) 0 random = Some g1
    /\ score g1 = 0%Z /\ isAutopilot g1 = true.
Proof.
  destruct (update_outcome (fresh precision) 0 random (invariant_fresh precision))
    as (g1 & Hupd & _ & Hout).
  exists g1. split; [exact Hupd |].
  destruct Hout as [Hsv | Hp _ Hlen _ Ha | _ _ _ Hs Ha].
  - split; [exact (sv_score Hsv) | exact (sv_isAutopilot Hsv)].
  - exfalso.
    set (b0 := nth 0 (stack (fresh precision)) Scenario.no_block).
    set (b1 := nth 1 (stack (fresh precision)) Scenario.no_block).
    assert (Hstack : stack (fresh precision) = [] ++ [b0; b1])
      by (vm_compute; reflexivity).
    rewrite (update_unfold (fresh precision) 0 random [] b0 b1 Hstack) in Hupd.
    cbv zeta in Hupd.
    set (g0 := RenderManager.updateCameraPosition (fresh precision) _ 0) in Hupd.
    assert (Hs0 : stack g0 = [] ++ [b0; b1])
      by (unfold g0; rewrite stack_updateCameraPosition; exact Hstack).
    assert (Ha0 : isAutopilot g0 = true)
      by exact (sv_isAutopilot (same_view_updateCameraPosition _ _ _)).
    assert (He0 : isGameEnded g0 = false)
      by exact (sv_isGameEnded (same_view_updateCameraPosition _ _ _)).
    assert (Hl0 : length (stack g0) = 2%nat) by (rewrite Hs0; reflexivity).
    assert (Hl : length (stack (fresh precision)) = 2%nat)
      by (vm_compute; reflexivity).
    rewrite Hl in Hlen.
    destruct (shouldBlockMove g0 b1 b0).
    + assert (Hin : isOutOfBounds (moveBlock b1 0) = false) by (vm_compute; reflexivity).
      rewrite Hin in Hupd. injection Hupd as <-.
      cbn [updateOverhangs stack set_overhangs] in Hlen.
      rewrite (stack_store_top g0 [] b0 b1 _ Hs0) in Hlen. discriminate.
    + rewrite Ha0 in Hupd.
      assert (Hneg : Geometry.overlap b1 b0 DIRECTIONS.X <= 0)
        by (vm_compute; discriminate).
      rewrite (split_miss g0 [] b0 b1 DIRECTIONS.X Hs0 He0 eq_refl Hneg) in Hupd.
      destruct (missBlock_effect g0 ([] ++ [b0]) b1 Hs0) as (g2 & o & Hm & M).
      rewrite Hm in Hupd. injection Hupd as <-.
      cbn [updateOverhangs setRobotPrecision stack set_overhangs set_robotPrecision]
        in Hlen.
      rewrite (me_stack M) in Hlen. discriminate.
  - split; [exact Hs | exact Ha].
Qed.

Lemma shows_physics_step (ui : UI.UIManager) (g : GameLogic) (engine : Block -> Vec3) :
  Page.shows ui g -> Page.shows ui (PhysicsManager.step g engine).
Proof. apply shows_same_view, same_view_physics_step. Qed.

(** [start()] on a page that is not running: one frame with [deltaTime] 0,
    then [resetUI]. *)
Lemma start_unfold (sg : Page.StackGame) (random : Q) (engine : Block -> Vec3)
      (g1 : GameLogic) :
  Page.isRunning sg = false ->
  update (Page.gameLogic sg) 0 random = Some g1 ->
  Page.start sg random engine
  = Page.mkStackGame
      (PhysicsManager.step g1 engine)
      (UI.resetUI (UI.deliver (Page.uiManager sg)
                              (Page.published (Page.gameLogic sg) g1)))
      true 0.
Proof.
  destruct sg as [g ui running lt].
  cbn [Page.isRunning Page.gameLogic Page.uiManager]. intros -> Hupd.
  unfold Page.start, Page.animate.
  cbn [Page.isRunning Page.gameLogic Page.uiManager Page.lastTime negb].
  change (Qltb 0 0) with false. cbv iota.
  rewrite Hupd. reflexivity.
Qed.

(** The page after [initialize()] shows the game, whatever elements the
    document has. *)
Lemma initialize_shows
      (scoreEl : option (option Z)) (instructionsEl resultsEl : option UI.Display)
      (precision random : Q) (engine : Block -> Vec3) :
  let sg := Page.initialize scoreEl instructionsEl resultsEl precision random engine in
  reachable (Page.gameLogic sg)
  /\ Page.shows (Page.uiManager sg) (Page.gameLogic sg).
Proof.
  cbv zeta. unfold Page.initialize.
  destruct (fresh_first_frame precision random) as (g1 & Hupd & Hs & Ha).
  pose proof (reachable_fresh precision) as Hreach0.
  revert Hupd Hreach0. generalize (fresh precision). intros g0 Hupd Hreach0.
  rewrite (start_unfold (Page.mkStackGame g0 _ false 0) random engine g1 eq_refl Hupd).
  cbn [Page.gameLogic Page.uiManager].
  split.
  - apply (reachable_step g1 (OpPhysicsStep engine)); [| reflexivity].
    exact (reachable_step g0 (OpUpdate 0 random) g1 Hreach0 Hupd).
  - apply shows_reset; [exact Hs | exact Ha].
Qed.

(** Every input but an effective [resume()] keeps the page showing the
    game. *)
Lemma handle_shows (sg : Page.StackGame) (i : Page.Input) :
  Page.is_shown i = false ->
  reachable (Page.gameLogic sg) ->
  Page.shows (Page.uiManager sg) (Page.gameLogic sg) ->
  reachable (Page.gameLogic (Page.handle sg i))
  /\ Page.shows (Page.uiManager (Page.handle sg i)) (Page.gameLogic (Page.handle sg i)).
Proof.
  intros Hi Hreach Hshows.
  pose proof (reachable_invariant _ Hreach) as Hinv.
  destruct i as [| | currentTime random engine | | random engine];
    try discriminate; cbn [Page.handle].
  - unfold Page.block_placed.
    destruct (handleBlockPlacement (Page.gameLogic sg)) as [g' |] eqn:Hcall;
      cbn [Page.call_logic Page.gameLogic Page.uiManager]; [| now split].
    split.
    + exact (reachable_step _ OpHandleBlockPlacement g' Hreach Hcall).
    + exact (step_shows _ _ OpHandleBlockPlacement g' Hinv Hshows Hcall).
  - unfold Page.game_reset.
    cbn [Page.call_logic Page.gameLogic Page.uiManager]. split.
    + exact (reachable_step _ OpStartGame _ Hreach eq_refl).
    + apply startGame_shows.
  - unfold Page.animate. destruct (Page.isRunning sg); cbn [negb]; [| now split].
    cbn [Page.gameLogic Page.uiManager Page.isRunning Page.lastTime].
    set (dt := if Qltb 0 (Page.lastTime sg) then _ else _).
    destruct (update (Page.gameLogic sg) dt random) as [g' |] eqn:Hcall;
      cbn [Page.call_logic Page.gameLogic Page.uiManager Page.isRunning Page.lastTime
           Page.pause negb]; [| now split].
    split.
    + apply (reachable_step g' (OpPhysicsStep engine)); [| reflexivity].
      exact (reachable_step _ (OpUpdate dt random) g' Hreach Hcall).
    + apply shows_physics_step.
      exact (step_shows _ _ (OpUpdate dt random) g' Hinv Hshows Hcall).
  - unfold Page.pause. destruct (Page.isRunning sg); cbn [negb]; now split.
Qed.

(** X17. From [initialize()] on, and as long as the document is not shown
    again after having been hidden, the page shows the game after every tap,
    click on the results and animation frame: the score of the user
    interface, and the text of the score element if the document has one, is
    the score of the game logic; the instructions are displayed exactly while
    the robot plays; the results are displayed exactly when a game of the
    player has ended. *)
Theorem page_shows_the_game
        (scoreEl : option (option Z)) (instructionsEl resultsEl : option UI.Display)
        (precision random : Q) (engine : Block -> Vec3) (inputs : list Page.Input) :
  forallb (fun i => negb (Page.is_shown i)) inputs = true ->
  let sg :=
    Page.handle_all
      (Page.initialize scoreEl instructionsEl resultsEl precision random engine)
      inputs in
  reachable (Page.gameLogic sg)
  /\ Page.uiManager sg = Page.view (Page.uiManager sg) (Page.gameLogic sg)
  /\ UI.score (Page.uiManager sg) = score (Page.gameLogic sg).
Proof.
  intro Hin. cbv zeta.
  destruct (initialize_shows scoreEl instructionsEl resultsEl precision random engine)
    as [Hr Hs]. cbv zeta in Hr, Hs.
  revert Hr Hs.
  generalize (Page.initialize scoreEl instructionsEl resultsEl precision random engine).
  induction inputs as [| i inputs IH]; intros sg Hr Hs.
  - split; [exact Hr |]. split; [exact Hs |].
    exact (proj2 (proj2 (proj2 (proj1 (shows_iff _ _) Hs)))).
  - cbn [forallb] in Hin. apply andb_prop in Hin. destruct Hin as [Hi Hin].
    apply negb_true_iff in Hi.
    destruct (handle_shows sg i Hi Hr Hs) as [Hr' Hs'].
    exact (IH Hin (Page.handle sg i) Hr' Hs').
Qed.

Lemma page_shows_the_game_witness :
  forallb (fun i => negb (Page.is_shown i)) Session.inputs = true
  /\ UI.score (Page.uiManager (Page.handle_all Session.page Session.inputs))
     = score (Page.gameLogic (Page.handle_all Session.page Session.inputs))
  /\ score (Page.gameLogic (Page.handle_all Session.page Session.inputs)) = 1%Z.
Proof.
  assert (H : forallb (fun i => negb (Page.is_shown i)) Session.inputs = true)
    by reflexivity.
  split; [exact H |]. split.
  - exact (proj2 (proj2 (page_shows_the_game
                           (Some None) (Some UI.display_unset) (Some UI.display_unset)
                           0.5 0.5 Demo.drop Session.inputs H))).
  - vm_compute. reflexivity.
Defined.

(** ** Hiding and showing the document *)

Lemma resetUI_listen (ui : UI.UIManager) (e : Event) :
  UI.resetUI (UI.listen ui e) = UI.resetUI ui.
Proof.
  destruct ui as [[s |] [i |] [r |] sc init], e; reflexivity.
Qed.

Lemma resetUI_deliver (ui : UI.UIManager) (events : list Event) :
  UI.resetUI (UI.deliver ui events) = UI.resetUI ui.
Proof.
  revert ui. induction events as [| e events IH]; intro ui; [reflexivity |].
  cbn [UI.deliver fold_left]. fold (UI.deliver (UI.listen ui e) events).
  now rewrite IH, resetUI_listen.
Qed.

(** [resume()] on a page that is not running, for a game that keeps the
    invariant. *)
Lemma resume_unfold (sg : Page.StackGame) (random : Q) (engine : Block -> Vec3) :
  Page.isRunning sg = false ->
  invariant (Page.gameLogic sg) ->
  exists g1,
    update (Page.gameLogic sg) 0 random = Some g1
    /\ invariant g1
    /\ outcome (Page.gameLogic sg) g1
    /\ Page.resume sg random engine
       = Page.mkStackGame (PhysicsManager.step g1 engine)
                          (UI.resetUI (Page.uiManager sg)) true 0.
Proof.
  intros Hrun Hinv.
  destruct (update_outcome (Page.gameLogic sg) 0 random Hinv) as (g1 & Hupd & Hinv1 & Hout).
  exists g1. split; [exact Hupd |]. split; [exact Hinv1 |]. split; [exact Hout |].
  unfold Page.resume. rewrite Hrun.
  rewrite (start_unfold sg random engine g1 Hrun Hupd).
  now rewrite resetUI_deliver.
Qed.

(** X18. [resume()] resets what the page displays but not the game: when the
    document is shown again, the user interface is left as [resetUI] leaves
    it (score 0, instructions displayed, results hidden), while the game
    keeps its mode, an ended game stays ended and the score does not go down.
    So after a resume on a game with a positive score the page does not show
    the score of the game. *)
Theorem resume_resets_the_display_only
        (sg : Page.StackGame) (random : Q) (engine : Block -> Vec3) :
  Page.isRunning sg = false ->
  reachable (Page.gameLogic sg) ->
  let sg' := Page.resume sg random engine in
  Page.uiManager sg' = UI.resetUI (Page.uiManager sg)
  /\ UI.score (Page.uiManager sg') = 0%Z
  /\ isAutopilot (Page.gameLogic sg') = isAutopilot (Page.gameLogic sg)
  /\ (isGameEnded (Page.gameLogic sg) = true ->
      isGameEnded (Page.gameLogic sg') = true)
  /\ (score (Page.gameLogic sg) <= score (Page.gameLogic sg'))%Z
  /\ ((0 < score (Page.gameLogic sg))%Z ->
      UI.score (Page.uiManager sg') <> score (Page.gameLogic sg')).
Proof.
  intros Hrun Hreach. cbv zeta.
  destruct (resume_unfold sg random engine Hrun (reachable_invariant _ Hreach))
    as (g1 & _ & _ & Hout & ->).
  cbn [Page.uiManager Page.gameLogic].
  change (score (PhysicsManager.step g1 engine)) with (score g1).
  change (isAutopilot (PhysicsManager.step g1 engine)) with (isAutopilot g1).
  change (isGameEnded (PhysicsManager.step g1 engine)) with (isGameEnded g1).
  assert (Hscore : (score (Page.gameLogic sg) <= score g1)%Z).
  { rewrite (outcome_score _ _ Hout).
    destruct (length (stack (Page.gameLogic sg)) <? length (stack g1))%nat; lia. }
  assert (Hui : UI.score (UI.resetUI (Page.uiManager sg)) = 0%Z) by reflexivity.
  split; [reflexivity |]. split; [exact Hui |].
  split; [| split; [| split; [exact Hscore |]]].
  - destruct Hout as [Hsv | _ _ _ _ Ha | _ _ _ _ Ha];
      [exact (sv_isAutopilot Hsv) | exact Ha | exact Ha].
  - intro Hended.
    destruct Hout as [Hsv | Hp _ _ _ _ | Hp _ _ _ _];
      [rewrite (sv_isGameEnded Hsv); exact Hended | congruence | congruence].
  - intro Hpos. rewrite Hui. lia.
Qed.

Lemma reachable_played : reachable (Page.gameLogic Session.hidden).
Proof.
  apply (reachable_run
           (fresh 0.5)
           [OpUpdate 0 0.5; OpPhysicsStep Demo.drop;
            OpHandleBlockPlacement;
            OpUpdate 0 0; OpPhysicsStep Demo.drop;
            OpUpdate 1375 0; OpPhysicsStep Demo.drop;
            OpHandleBlockPlacement]);
    [apply reachable_fresh | vm_compute; reflexivity].
Qed.

Lemma resume_resets_the_display_only_witness :
  Page.isRunning Session.hidden = false
  /\ reachable (Page.gameLogic Session.hidden)
  /\ UI.score (Page.uiManager Session.hidden) = 1%Z
  /\ score (Page.gameLogic Session.hidden) = 1%Z
  /\ UI.score (Page.uiManager (Page.resume Session.hidden 0 Demo.drop))
     <> score (Page.gameLogic (Page.resume Session.hidden 0 Demo.drop)).
Proof.
  assert (H1 : Page.isRunning Session.hidden = false) by reflexivity.
  assert (Hpos : (0 < score (Page.gameLogic Session.hidden))%Z) by reflexivity.
  split; [exact H1 |]. split; [exact reachable_played |].
  split; [reflexivity |]. split; [reflexivity |].
  destruct (resume_resets_the_display_only
              Session.hidden 0 Demo.drop H1 reachable_played)
    as (_ & _ & _ & _ & _ & H).
  exact (H Hpos).
Defined.

(** X19. Time spent hidden is not played: after [resume()] on a page that is
    not running, the next animation frame runs [update] with [deltaTime] 0,
    as the frame inside [resume()] did, whatever its time stamp is; only
    [lastTime] keeps the time stamp. *)
Theorem first_frame_after_resume_ignores_the_clock
        (sg : Page.StackGame) (random : Q) (engine : Block -> Vec3)
        (random' : Q) (engine' : Block -> Vec3) :
  Page.isRunning sg = false ->
  reachable (Page.gameLogic sg) ->
  exists g1 g2 : GameLogic,
    update (Page.gameLogic sg) 0 random = Some g1
    /\ update (PhysicsManager.step g1 engine) 0 random' = Some g2
    /\ forall currentTime : Q,
         Page.animate (Page.resume sg random engine) currentTime random' engine'
         = Page.mkStackGame
             (PhysicsManager.step g2 engine')
             (UI.deliver (UI.resetUI (Page.uiManager sg))
                         (Page.published (PhysicsManager.step g1 engine) g2))
             true currentTime.
Proof.
  intros Hrun Hreach.
  destruct (resume_unfold sg random engine Hrun (reachable_invariant _ Hreach))
    as (g1 & Hupd1 & Hinv1 & _ & ->).
  assert (Hinv1' : invariant (PhysicsManager.step g1 engine))
    by exact (same_view_invariant _ _ (same_view_physics_step g1 engine) Hinv1).
  destruct (update_outcome _ 0 random' Hinv1') as (g2 & Hupd2 & _ & _).
  exists g1, g2. split; [exact Hupd1 |]. split; [exact Hupd2 |].
  intro currentTime. unfold Page.animate.
  cbn [Page.isRunning Page.gameLogic Page.uiManager Page.lastTime negb].
  change (Qltb 0 0) with false. cbv iota.
  rewrite Hupd2. reflexivity.
Qed.

Lemma first_frame_after_resume_ignores_the_clock_witness :
  Page.isRunning Session.hidden = false
  /\ reachable (Page.gameLogic Session.hidden)
  /\ Page.gameLogic (Page.animate (Page.resume Session.hidden 0 Demo.drop)
                                  5000 0 Demo.drop)
     = Page.gameLogic (Page.animate (Page.resume Session.hidden 0 Demo.drop)
                                    999999 0 Demo.drop).
Proof.
  assert (H1 : Page.isRunning Session.hidden = false) by reflexivity.
  split; [exact H1 |]. split; [exact reachable_played |].
  destruct (first_frame_after_resume_ignores_the_clock
              Session.hidden 0 Demo.drop 0 Demo.drop H1 reachable_played)
    as (g1 & g2 & _ & _ & H).
  now rewrite !H.
Defined.

(** ** The event system *)

Module EventSystemFacts.

Import EventSystem.

Lemma get_set_same (l : Listeners) (e : String.string) (s : list nat) :
  get (set l e s) e = Some s.
Proof.
  induction l as [| [k s0] l IH]; cbn.
  - now rewrite String.eqb_refl.
  - destruct (String.eqb k e) eqn:E; cbn; rewrite E; [reflexivity | exact IH].
Qed.

Lemma get_set_other (l : Listeners) (e e' : String.string) (s : list nat) :
  e' <> e -> get (set l e s) e' = get l e'.
Proof.
  intro Hne. induction l as [| [k s0] l IH]; cbn.
  - destruct (String.eqb e e') eqn:E; [| reflexivity].
    apply String.eqb_eq in E. congruence.
  - destruct (String.eqb k e) eqn:E; cbn.
    + destruct (String.eqb k e') eqn:E'; [| reflexivity].
      apply String.eqb_eq in E, E'. congruence.
    + now rewrite IH.
Qed.

Lemma get_delete_same (l : Listeners) (e : String.string) :
  get (delete l e) e = None.
Proof.
  induction l as [| [k s0] l IH]; cbn; [reflexivity |].
  destruct (String.eqb k e) eqn:E; cbn; [exact IH | now rewrite E].
Qed.

Lemma get_delete_other (l : Listeners) (e e' : String.string) :
  e' <> e -> get (delete l e) e' = get l e'.
Proof.
  intro Hne. induction l as [| [k s0] l IH]; cbn; [reflexivity |].
  destruct (String.eqb k e) eqn:E; cbn.
  - rewrite IH. destruct (String.eqb k e') eqn:E'; [| reflexivity].
    apply String.eqb_eq in E, E'. congruence.
  - now rewrite IH.
Qed.

Lemma subscribers_on_same (l : Listeners) (e : String.string) (c : nat) :
  subscribers (on l e c) e = add (subscribers l e) c.
Proof.
  unfold on, subscribers, has.
  destruct (get l e) as [s |] eqn:G.
  - rewrite G. now rewrite get_set_same.
  - rewrite get_set_same. now rewrite get_set_same.
Qed.

Lemma subscribers_on_other (l : Listeners) (e e' : String.string) (c : nat) :
  e' <> e -> subscribers (on l e c) e' = subscribers l e'.
Proof.
  intro Hne. unfold on, subscribers, has.
  destruct (get l e) as [s |] eqn:G.
  - rewrite G. now rewrite get_set_other.
  - rewrite get_set_same. now rewrite !get_set_other.
Qed.

Lemma subscribers_unsubscribe_same (l : Listeners) (e : String.string) (c : nat) :
  subscribers (unsubscribe l e c) e = set_delete (subscribers l e) c.
Proof.
  unfold unsubscribe, subscribers.
  destruct (get l e) as [s |] eqn:G.
  - now rewrite get_set_same.
  - now rewrite G.
Qed.

Lemma subscribers_unsubscribe_other (l : Listeners) (e e' : String.string) (c : nat) :
  e' <> e -> subscribers (unsubscribe l e c) e' = subscribers l e'.
Proof.
  intro Hne. unfold unsubscribe, subscribers.
  destruct (get l e) as [s |] eqn:G; [| reflexivity].
  now rewrite get_set_other.
Qed.

Lemma add_old (s : list nat) (c : nat) : In c s -> add s c = s.
Proof.
  intro Hin. unfold add.
  assert (H : existsb (Nat.eqb c) s = true).
  { apply existsb_exists. exists c. split; [exact Hin | apply Nat.eqb_refl]. }
  now rewrite H.
Qed.

Lemma add_new (s : list nat) (c : nat) : ~ In c s -> add s c = s ++ [c].
Proof.
  intro Hnin. unfold add.
  destruct (existsb (Nat.eqb c) s) eqn:H; [| reflexivity].
  apply existsb_exists in H. destruct H as (x & Hx & E).
  apply Nat.eqb_eq in E. subst x. contradiction.
Qed.

Lemma set_delete_add_new (s : list nat) (c : nat) :
  ~ In c s -> set_delete (add s c) c = s.
Proof.
  intro Hnin. rewrite (add_new s c Hnin). unfold set_delete.
  rewrite remove_app, (notin_remove Nat.eq_dec s c Hnin). cbn.
  destruct (Nat.eq_dec c c); [apply app_nil_r | contradiction].
Qed.

Section Emit.

Variables World Data : Type.
Variable call : nat -> Data -> World -> World * bool.

(** [emit] calls the subscribers of the event, and no one else. *)
Lemma emit_subscribers (l : Listeners) (e : String.string) (data : Data) (w : World) :
  emit call l e data w = fold_left (notify call data) (subscribers l e) (w, []).
Proof.
  unfold emit, subscribers. now destruct (get l e).
Qed.

Lemma fst_notify_fold (data : Data) (s : list nat) (acc : World * list nat) :
  fst (fold_left (notify call data) s acc)
  = fold_left (fun w c => fst (call c data w)) s (fst acc).
Proof.
  revert acc. induction s as [| c s IH]; intro acc; [reflexivity |].
  cbn [fold_left]. rewrite IH. f_equal.
  unfold notify. now destruct (call c data (fst acc)).
Qed.

End Emit.

End EventSystemFacts.

(** X20. [on] subscribes a callback once and last: [emit] on the listeners
    after [on(eventName, callback)] calls the callbacks subscribed before, in
    their order, and then the new one, on the world they left, caught
    errors or not; if the callback was subscribed to the event already, [on]
    changes nothing for [emit].  The subscribers of the other events are
    untouched. *)
Theorem on_subscribes_once_and_last
        (World Data : Type) (call : nat -> Data -> World -> World * bool)
        (l : EventSystem.Listeners) (eventName : String.string) (callback : nat)
        (data : Data) (w : World) :
  (In callback (EventSystem.subscribers l eventName) ->
   EventSystem.emit call (EventSystem.on l eventName callback) eventName data w
   = EventSystem.emit call l eventName data w)
  /\ (~ In callback (EventSystem.subscribers l eventName) ->
      EventSystem.emit call (EventSystem.on l eventName callback) eventName data w
      = EventSystem.notify call data
                           (EventSystem.emit call l eventName data w) callback)
  /\ (forall other : String.string,
         other <> eventName ->
         EventSystem.emit call (EventSystem.on l eventName callback) other data w
         = EventSystem.emit call l other data w).
Proof.
  split; [| split].
  - intro Hin.
    rewrite !EventSystemFacts.emit_subscribers, EventSystemFacts.subscribers_on_same.
    now rewrite (EventSystemFacts.add_old _ _ Hin).
  - intro Hnin.
    rewrite !EventSystemFacts.emit_subscribers, EventSystemFacts.subscribers_on_same.
    rewrite (EventSystemFacts.add_new _ _ Hnin), fold_left_app. reflexivity.
  - intros other Hne.
    rewrite !EventSystemFacts.emit_subscribers.
    now rewrite (EventSystemFacts.subscribers_on_other l eventName other callback Hne).
Qed.

Lemma on_subscribes_once_and_last_witness :
  ~ In 7%nat (EventSystem.subscribers Wiring.gameEvents EVENTS.GAME_RESET)
  /\ EventSystem.emit Wiring.recorder
                      (EventSystem.on Wiring.gameEvents EVENTS.GAME_RESET 7)
                      EVENTS.GAME_RESET tt []
     = ([Wiring.resetUI; Wiring.startGame; 7%nat], [Wiring.resetUI]).
Proof.
  assert (H : ~ In 7%nat (EventSystem.subscribers Wiring.gameEvents EVENTS.GAME_RESET)).
  { intros [E | [E | []]]; discriminate E. }
  split; [exact H |].
  rewrite (proj1 (proj2 (on_subscribes_once_and_last
                           (list nat) unit Wiring.recorder Wiring.gameEvents
                           EVENTS.GAME_RESET 7 tt [])) H).
  reflexivity.
Defined.


(** X21. The function [on] returns undoes the subscription: after it, the
    callback is not called for the event any more, the other subscribers of
    the event are called in the same order, and the other events are
    untouched.  If the callback was not subscribed before [on], [emit] is
    back to what it did before [on]. *)
Theorem unsubscribe_undoes_on
        (World Data : Type) (call : nat -> Data -> World -> World * bool)
        (l : EventSystem.Listeners) (eventName : String.string) (callback : nat) :
  let l' := EventSystem.unsubscribe (EventSystem.on l eventName callback)
                                    eventName callback in
  ~ In callback (EventSystem.subscribers l' eventName)
  /\ EventSystem.subscribers l' eventName
     = EventSystem.set_delete (EventSystem.subscribers l eventName) callback
  /\ (forall other : String.string,
         other <> eventName ->
         EventSystem.subscribers l' other = EventSystem.subscribers l other)
  /\ (~ In callback (EventSystem.subscribers l eventName) ->
      forall (other : String.string) (data : Data) (w : World),
        EventSystem.emit call l' other data w = EventSystem.emit call l other data w).
Proof.
  cbv zeta.
  assert (Hsame : EventSystem.subscribers
                    (EventSystem.unsubscribe (EventSystem.on l eventName callback)
                                             eventName callback) eventName
                  = EventSystem.set_delete (EventSystem.subscribers l eventName) callback).
  { rewrite EventSystemFacts.subscribers_unsubscribe_same,
            EventSystemFacts.subscribers_on_same.
    destruct (in_dec Nat.eq_dec callback (EventSystem.subscribers l eventName))
      as [Hin | Hnin].
    - now rewrite (EventSystemFacts.add_old _ _ Hin).
    - rewrite (EventSystemFacts.set_delete_add_new _ _ Hnin).
      unfold EventSystem.set_delete.
      now rewrite (notin_remove Nat.eq_dec _ _ Hnin). }
  assert (Hother : forall other : String.string,
             other <> eventName ->
             EventSystem.subscribers
               (EventSystem.unsubscribe (EventSystem.on l eventName callback)
                                        eventName callback) other
             = EventSystem.subscribers l other).
  { intros other Hne.
    rewrite (EventSystemFacts.subscribers_unsubscribe_other _ eventName other _ Hne).
    exact (EventSystemFacts.subscribers_on_other l eventName other callback Hne). }
  split; [| split; [exact Hsame | split; [exact Hother |]]].
  - rewrite Hsame. unfold EventSystem.set_delete. apply remove_In.
  - intros Hnin other data w.
    rewrite !EventSystemFacts.emit_subscribers.
    destruct (String.string_dec other eventName) as [-> | Hne].
    + rewrite Hsame. unfold EventSystem.set_delete.
      now rewrite (notin_remove Nat.eq_dec _ _ Hnin).
    + now rewrite (Hother other Hne).
Qed.

Lemma unsubscribe_undoes_on_witness :
  ~ In 7%nat (EventSystem.subscribers Wiring.gameEvents EVENTS.GAME_RESET)
  /\ EventSystem.emit Wiring.recorder
                      (EventSystem.unsubscribe
                         (EventSystem.on Wiring.gameEvents EVENTS.GAME_RESET 7)
                         EVENTS.GAME_RESET 7)
                      EVENTS.GAME_RESET tt []
     = ([Wiring.resetUI; Wiring.startGame], [Wiring.resetUI]).
Proof.
  assert (H : ~ In 7%nat (EventSystem.subscribers Wiring.gameEvents EVENTS.GAME_RESET)).
  { intros [E | [E | []]]; discriminate E. }
  split; [exact H |].
  rewrite (proj2 (proj2 (proj2 (unsubscribe_undoes_on
                                  (list nat) unit Wiring.recorder Wiring.gameEvents
                                  EVENTS.GAME_RESET 7)))
             H EVENTS.GAME_RESET tt []).
  reflexivity.
Defined.


(** X22. [emit] runs every subscriber of the event whether or not an earlier
    one threw: the world it leaves is the one the subscribers make in turn,
    each starting from the world the one before left.  After
    [removeAllListeners(eventName)] an [emit] of that event calls nothing and
    logs nothing, and the other events are untouched; after [clear()] no
    event calls anything. *)
Theorem emit_reaches_the_subscribers_only
        (World Data : Type) (call : nat -> Data -> World -> World * bool)
        (l : EventSystem.Listeners) (eventName : String.string)
        (data : Data) (w : World) :
  fst (EventSystem.emit call l eventName data w)
  = fold_left (fun w c => fst (call c data w))
              (EventSystem.subscribers l eventName) w
  /\ EventSystem.emit call (EventSystem.removeAllListeners l eventName)
                      eventName data w
     = (w, [])
  /\ (forall other : String.string,
         other <> eventName ->
         EventSystem.emit call (EventSystem.removeAllListeners l eventName)
                          other data w
         = EventSystem.emit call l other data w)
  /\ EventSystem.emit call (EventSystem.clear l) eventName data w = (w, []).
Proof.
  split; [| split; [| split]].
  - rewrite EventSystemFacts.emit_subscribers.
    exact (EventSystemFacts.fst_notify_fold World Data call data _ (w, [])).
  - unfold EventSystem.emit, EventSystem.removeAllListeners.
    now rewrite EventSystemFacts.get_delete_same.
  - intros other Hne. unfold EventSystem.emit, EventSystem.removeAllListeners.
    now rewrite (EventSystemFacts.get_delete_other l eventName other Hne).
  - reflexivity.
Qed.

Lemma emit_reaches_the_subscribers_only_witness :
  EVENTS.BLOCK_PLACED <> EVENTS.GAME_RESET
  /\ EventSystem.emit Wiring.recorder
                      (EventSystem.removeAllListeners Wiring.gameEvents EVENTS.GAME_RESET)
                      EVENTS.BLOCK_PLACED tt []
     = ([Wiring.handleBlockPlacement], [])
  /\ EventSystem.emit Wiring.recorder
                      (EventSystem.removeAllListeners Wiring.gameEvents EVENTS.GAME_RESET)
                      EVENTS.GAME_RESET tt []
     = ([], []).
Proof.
  assert (H : EVENTS.BLOCK_PLACED <> EVENTS.GAME_RESET) by discriminate.
  destruct (emit_reaches_the_subscribers_only
              (list nat) unit Wiring.recorder Wiring.gameEvents EVENTS.GAME_RESET tt [])
    as (_ & H1 & H2 & _).
  split; [exact H |]. split; [| exact H1].
  rewrite (H2 EVENTS.BLOCK_PLACED H). reflexivity.
Defined.


(** On the page, [GAME_RESET] reaches [UIManager.resetUI] first and
    [GameLogic.startGame] second; [BLOCK_PLACED] reaches
    [GameLogic.handleBlockPlacement] alone; nothing listens to
    [LAYER_ADDED]. *)
Lemma wiring_subscribers :
  EventSystem.subscribers Wiring.gameEvents EVENTS.GAME_RESET
  = [Wiring.resetUI; Wiring.startGame]
  /\ EventSystem.subscribers Wiring.gameEvents EVENTS.BLOCK_PLACED
     = [Wiring.handleBlockPlacement]
  /\ EventSystem.subscribers Wiring.gameEvents EVENTS.SCORE_UPDATE
     = [Wiring.updateScore]
  /\ EventSystem.subscribers Wiring.gameEvents EVENTS.GAME_START
     = [Wiring.showGameUI]
  /\ EventSystem.subscribers Wiring.gameEvents EVENTS.GAME_OVER
     = [Wiring.showGameOverUI]
  /\ EventSystem.subscribers Wiring.gameEvents EVENTS.LAYER_ADDED = [].
Proof. repeat split. Qed.

(** ** Colours *)

Lemma hue_of_created (g : GameLogic) (x y z w dp : Q)
      (dir : option Direction) (dyn : bool) :
  hue_of (fst (createBlock g x y z w dp dir dyn)) = Some (hue_at (length (stack g))).
Proof. rewrite createBlock_block. reflexivity. Qed.

Lemma hue_of_moveBlock (b : Block) (deltaTime : Q) :
  hue_of (moveBlock b deltaTime) = hue_of b.
Proof.
  unfold moveBlock, hue_of. destruct (direction b); [| reflexivity].
  unfold updatePosition. cbn [mesh]. now destruct (mesh b).
Qed.

Lemma hue_of_keptLayer (t : Block) (overlap size delta : Q) :
  hue_of (keptLayer t overlap size delta) = hue_of t.
Proof.
  unfold keptLayer, cut, PhysicsManager.updateBodyShape, hue_of.
  destruct (direction t); [| now destruct (physicsBody t)].
  cbn [physicsBody mesh].
  destruct (physicsBody t); cbn [option_map mesh]; now destruct (mesh t).
Qed.

Lemma coloured_snoc (l : list Block) (b : Block) :
  coloured l -> hue_of b = Some (hue_at (length l)) -> coloured (l ++ [b]).
Proof.
  intros Hl Hb i c Hnth.
  destruct (nth_error_snoc l b c i Hnth) as [H | [-> ->]]; [exact (Hl i c H) | exact Hb].
Qed.

Lemma coloured_init (l : list Block) (b : Block) :
  coloured (l ++ [b]) -> coloured l /\ hue_of b = Some (hue_at (length l)).
Proof.
  intro H. split.
  - intros i c Hnth. apply (H i c). now apply nth_error_prefix.
  - apply (H (length l) b). rewrite nth_error_app2 by lia. now rewrite Nat.sub_diag.
Qed.

Lemma coloured_cut
      (g : GameLogic) (base : list Block) (p t : Block) (d : Direction) :
  coloured (stack g) -> stack g = base ++ [p; t] -> direction t = Some d ->
  coloured (stack (cutAndContinue g t (Geometry.overlap t p d) (Geometry.size t d)
                                  (Geometry.delta t p d)
                                  (Geometry.overhangSize t p d) d)).
Proof.
  intros Hc Hstack Hdir.
  destruct (cutAndContinue_blocks
              g base p t d (Geometry.overlap t p d) (Geometry.size t d)
              (Geometry.delta t p d) (Geometry.overhangSize t p d) Hstack Hdir)
    as (g1 & g2 & _ & Hl2 & _ & _ & _ & Hst).
  cbv zeta in Hst. rewrite Hst.
  assert (Hstack' : stack g = (base ++ [p]) ++ [t]) by (now rewrite <- app_assoc).
  rewrite Hstack' in Hc. destruct (coloured_init _ _ Hc) as [Hc0 Ht].
  change (base ++ [p; ?k; ?n]) with (base ++ [p] ++ [k] ++ [n]).
  rewrite !app_assoc. apply coloured_snoc; [apply coloured_snoc |].
  - exact Hc0.
  - rewrite hue_of_keptLayer. exact Ht.
  - rewrite hue_of_created, Hl2, Hstack. f_equal. f_equal.
    rewrite !length_app. cbn [length]. lia.
Qed.

Lemma reachable_coloured (g : GameLogic) : reachable g -> coloured (stack g).
Proof.
  apply (reachable_preserved (fun x => coloured (stack x))).
  - intro random.
    assert (H : exists b0 b1,
               stack (fresh random) = [b0; b1]
               /\ hue_of b0 = Some (hue_at 0) /\ hue_of b1 = Some (hue_at 1)).
    { eexists. eexists. split; [cbv; reflexivity |]. split; reflexivity. }
    destruct H as (b0 & b1 & -> & H0 & H1).
    intros [| [| [| i]]] b Hnth; simpl in Hnth; try discriminate;
      injection Hnth as <-; assumption.
  - intros g0 _ _.
    assert (H : exists b0 b1,
               stack (startGame g0) = [b0; b1]
               /\ hue_of b0 = Some (hue_at 0) /\ hue_of b1 = Some (hue_at 1)).
    { eexists. eexists. split; [cbv; reflexivity |]. split; reflexivity. }
    destruct H as (b0 & b1 & -> & H0 & H1).
    intros [| [| [| i]]] b Hnth; simpl in Hnth; try discriminate;
      injection Hnth as <-; assumption.
  - intros g0 base p t d _ H Hs _ Hd _. exact (coloured_cut g0 base p t d H Hs Hd).
  - intros g0 init t g' _ H Hs _ Hm.
    destruct (missBlock_effect g0 init t Hs) as (g1 & o & Hm' & M).
    rewrite Hm in Hm'. injection Hm' as <-.
    rewrite (me_stack M). rewrite Hs in H. exact (proj1 (coloured_init _ _ H)).
  - intros g0 base p t dt _ H Hs _.
    rewrite (stack_store_top g0 base p t _ Hs).
    assert (Hs' : stack g0 = (base ++ [p]) ++ [t]) by (now rewrite <- app_assoc).
    rewrite Hs' in H. destruct (coloured_init _ _ H) as [H0 Ht].
    change (base ++ [p; ?k]) with (base ++ [p] ++ [k]). rewrite app_assoc.
    apply coloured_snoc; [exact H0 |]. rewrite hue_of_moveBlock. exact Ht.
  - intros g0 y dt H. now rewrite stack_updateCameraPosition.
  - intros g0 r H. exact H.
  - intros g0 H. exact H.
  - intros g0 e H. exact H.
Qed.

Lemma layers_mesh_hue (g : GameLogic) (i : nat) (b : Block) :
  reachable g ->
  nth_error (stack g) i = Some b ->
  exists m : Mesh, mesh b = Some m /\ mesh_hue m = hue_at i.
Proof.
  intros Hreach Hnth.
  pose proof (reachable_coloured g Hreach i b Hnth) as H.
  unfold hue_of in H. destruct (mesh b) as [m |]; [| discriminate].
  exists m. split; [reflexivity |]. now injection H.
Qed.

(** X23. In every reachable state the layer at index [i] of the stack is
    drawn with the hue [COLOR_HUE_BASE + i * COLOR_HUE_INCREMENT]: the colour
    of a layer depends on its height only, and cuts and moves keep it. *)
Theorem layers_coloured_by_height (g : GameLogic) (i : nat) (b : Block) :
  reachable g ->
  nth_error (stack g) i = Some b ->
  exists m : Mesh,
    mesh b = Some m
    /\ mesh_hue m
       = GAME_CONFIG.COLOR_HUE_BASE
         + inject_Z (Z.of_nat i) * GAME_CONFIG.COLOR_HUE_INCREMENT.
Proof. exact (layers_mesh_hue g i b). Qed.

Lemma layers_coloured_by_height_witness :
  reachable Scenario.two_placed
  /\ exists b : Block,
       nth_error (stack Scenario.two_placed) 3 = Some b
       /\ exists m : Mesh, mesh b = Some m /\ mesh_hue m == 42.
Proof.
  split; [exact reachable_two_placed |].
  eexists. split; [reflexivity |].
  destruct (layers_coloured_by_height Scenario.two_placed 3 _ reachable_two_placed eq_refl)
    as (m & Hm & Hh).
  exists m. split; [exact Hm |]. rewrite Hh. reflexivity.
Defined.

(** X24. The piece a placement or a miss lets fall is not drawn in the
    colour of the layer it comes from: [addOverhang] runs while that layer is
    still the top of the stack, so the mesh of the overhang gets the hue of
    the next index, one [COLOR_HUE_INCREMENT] above the hue of the layer. *)
Theorem overhang_takes_the_next_colour
        (g : GameLogic) (base : list Block) (previousLayer topLayer : Block) :
  reachable g ->
  stack g = base ++ [previousLayer; topLayer] ->
  isGameEnded g = false ->
  exists (g' : GameLogic) (overhang : Block) (mt mo : Mesh),
    splitBlockAndAddNext g = Some g'
    /\ overhangs g' = overhangs g ++ [overhang]
    /\ mesh topLayer = Some mt
    /\ mesh overhang = Some mo
    /\ mesh_hue mt = hue_at (S (length base))
    /\ mesh_hue mo = hue_at (S (S (length base)))
    /\ mesh_hue mo == mesh_hue mt + GAME_CONFIG.COLOR_HUE_INCREMENT.
Proof.
  intros Hreach Hstack Hplaying.
  pose proof (reachable_invariant g Hreach) as Hinv.
  pose proof (axis_of_top g base previousLayer topLayer Hinv Hstack) as Hdir.
  simpl axis_at in Hdir.
  set (d := if Nat.odd (S (length base)) then DIRECTIONS.X else DIRECTIONS.Z) in Hdir.
  assert (Hlen : length (stack g) = S (S (length base)))
    by (rewrite Hstack, length_app; cbn; lia).
  assert (Ht : exists mt, mesh topLayer = Some mt
                          /\ mesh_hue mt = hue_at (S (length base))).
  { destruct (layers_mesh_hue g (S (length base)) topLayer) as (m & Hm & Hh).
    - exact Hreach.
    - rewrite Hstack, nth_error_app2 by lia.
      now replace (S (length base) - length base)%nat with 1%nat by lia.
    - exists m. split; [exact Hm | exact Hh]. }
  destruct Ht as (mt & Hmt & Hht).
  assert (Hsum : hue_at (S (S (length base)))
                 == hue_at (S (length base)) + GAME_CONFIG.COLOR_HUE_INCREMENT).
  { unfold hue_at. rewrite (Nat2Z.inj_succ (S (length base))).
    unfold Z.succ. rewrite inject_Z_plus. ring. }
  assert (Hcreated : forall g0 x y z w dp,
             length (stack g0) = length (stack g) ->
             exists mo, mesh (startFalling (fst (createBlock g0 x y z w dp None true)))
                        = Some mo
                        /\ mesh_hue mo = hue_at (S (S (length base)))).
  { intros g0 x y z w dp Hl. rewrite createBlock_block. cbn [startFalling mesh].
    eexists. split; [reflexivity |]. cbn [mesh_hue]. rewrite Hl, Hlen. reflexivity. }
  destruct (Qlt_le_dec 0 (Geometry.overlap topLayer previousLayer d)) as [Hpos | Hneg].
  - rewrite (split_cut g base previousLayer topLayer d Hstack Hplaying Hdir Hpos).
    destruct (cutAndContinue_blocks
                g base previousLayer topLayer d
                (Geometry.overlap topLayer previousLayer d) (Geometry.size topLayer d)
                (Geometry.delta topLayer previousLayer d)
                (Geometry.overhangSize topLayer previousLayer d) Hstack Hdir)
      as (g1 & g2 & Hl1 & _ & _ & _ & Hov & _).
    cbv zeta in Hov.
    match type of Hov with
    | _ = _ ++ [startFalling (fst (createBlock _ ?x ?y ?z ?w ?dp _ _))] =>
        destruct (Hcreated g1 x y z w dp Hl1) as (mo & Hmo & Hho)
    end.
    eexists. eexists. exists mt, mo.
    split; [reflexivity |]. split; [exact Hov |].
    split; [exact Hmt |]. split; [exact Hmo |].
    split; [exact Hht |]. split; [exact Hho |].
    rewrite Hho, Hht. exact Hsum.
  - rewrite (split_miss g base previousLayer topLayer d Hstack Hplaying Hdir Hneg).
    assert (Hstack' : stack g = (base ++ [previousLayer]) ++ [topLayer])
      by (now rewrite <- app_assoc).
    destruct (missBlock_effect g _ topLayer Hstack') as (g1 & o & Hm & _).
    pose proof (missBlock_blocks g _ topLayer g1 Hstack' Hm) as Hov.
    match type of Hov with
    | _ = _ ++ [startFalling (fst (createBlock _ ?x ?y ?z ?w ?dp _ _))] =>
        destruct (Hcreated g x y z w dp eq_refl) as (mo & Hmo & Hho)
    end.
    exists g1. eexists. exists mt, mo.
    split; [exact Hm |]. split; [exact Hov |].
    split; [exact Hmt |]. split; [exact Hmo |].
    split; [exact Hht |]. split; [exact Hho |].
    rewrite Hho, Hht. exact Hsum.
Qed.

Lemma overhang_takes_the_next_colour_witness :
  reachable Scenario.offset_one
  /\ stack Scenario.offset_one
     = [] ++ [Scenario.offset_one_base; Scenario.offset_one_top]
  /\ isGameEnded Scenario.offset_one = false
  /\ exists (g' : GameLogic) (overhang : Block) (mt mo : Mesh),
       splitBlockAndAddNext Scenario.offset_one = Some g'
       /\ overhangs g' = overhangs Scenario.offset_one ++ [overhang]
       /\ mesh Scenario.offset_one_top = Some mt
       /\ mesh overhang = Some mo
       /\ mesh_hue mt == 34
       /\ mesh_hue mo == 38.
Proof.
  assert (H2 : stack Scenario.offset_one
               = [] ++ [Scenario.offset_one_base; Scenario.offset_one_top])
    by reflexivity.
  assert (H3 : isGameEnded Scenario.offset_one = false) by reflexivity.
  split; [exact reachable_offset_one |]. split; [exact H2 |]. split; [exact H3 |].
  destruct (overhang_takes_the_next_colour
              Scenario.offset_one [] Scenario.offset_one_base Scenario.offset_one_top
              reachable_offset_one H2 H3)
    as (g' & o & mt & mo & Hs & Ho & Hmt & Hmo & Hht & Hho & _).
  exists g', o, mt, mo.
  split; [exact Hs |]. split; [exact Ho |]. split; [exact Hmt |]. split; [exact Hmo |].
  split; [rewrite Hht | rewrite Hho]; reflexivity.
Defined.

(** ** Disposal *)

Lemma fold_dispose_block (bs : list Block) (g : GameLogic) :
  let g' := fold_left dispose_block bs g in
  stack g' = stack g /\ overhangs g' = overhangs g
  /\ world_bodies g' = world_bodies g /\ scene_meshes g' = scene_meshes g
  /\ incl (disposed g) (disposed g').
Proof.
  cbv zeta. revert g. induction bs as [| b bs IH]; intro g.
  - cbn. repeat split. apply incl_refl.
  - cbn [fold_left].
    destruct (IH (dispose_block g b)) as (H1 & H2 & H3 & H4 & H5).
    rewrite H1, H2, H3, H4.
    unfold dispose_block in *. destruct (mesh b); cbn in *.
    + repeat split. intros u Hu. apply H5, in_or_app. now left.
    + repeat split. exact H5.
Qed.

(** X25. [clearGame()], as [StackGame.dispose()] calls it on a running page,
    releases everything: the stack and the overhangs are empty, the physics
    world holds no body, the scene no mesh, and the mesh of every block the
    game held has been disposed. *)
Theorem clearGame_releases_everything (g : GameLogic) :
  reachable g ->
  stack (clearGame g) = []
  /\ overhangs (clearGame g) = []
  /\ world_bodies (clearGame g) = []
  /\ scene_meshes (clearGame g) = []
  /\ forall b : Block,
       In b (stack g ++ overhangs g) -> In (uid b) (disposed (clearGame g)).
Proof.
  intro Hreach.
  pose proof (inv_resources (reachable_invariant g Hreach)) as R.
  unfold clearGame. cbv zeta.
  set (g1 := RenderManager.clearMeshes (PhysicsManager.clearBodies g)).
  destruct (fold_dispose_block (stack g1 ++ overhangs g1) g1) as (_ & _ & H3 & H4 & H5).
  cbn [stack overhangs world_bodies scene_meshes disposed
       set_stack set_overhangs].
  split; [reflexivity |]. split; [reflexivity |].
  split; [exact H3 |]. split; [exact H4 |].
  intros b Hb. apply H5.
  unfold g1, RenderManager.clearMeshes, PhysicsManager.clearBodies.
  cbn [disposed set_scene_meshes set_disposed set_world_bodies scene_meshes].
  apply in_or_app. right. apply (res_scene R).
  rewrite <- map_app. now apply in_map.
Qed.

Lemma clearGame_releases_everything_witness :
  reachable Scenario.two_placed
  /\ length (stack Scenario.two_placed ++ overhangs Scenario.two_placed) = 6%nat
  /\ world_bodies (clearGame Scenario.two_placed) = []
  /\ scene_meshes (clearGame Scenario.two_placed) = [].
Proof.
  split; [exact reachable_two_placed |]. split; [reflexivity |].
  destruct (clearGame_releases_everything Scenario.two_placed reachable_two_placed)
    as (_ & _ & Hw & Hs & _).
  split; assumption.
Defined.
